(** * SemanticsEmitter: linearization of instruction patterns

    A shallow embedding of [utils/TableGen/SemanticsEmitter.cpp], the
    TableGen backend that turns the pattern DAG of every instruction into a
    linear list of operations ([LSNode]s), together with the properties of
    that translation.

    Conventions of the embedding:
    - machine integers are [Z] with the wrap-around written out
      ([uint16_t], [unsigned], [unsigned char], [uint64_t]);
    - [assert], [llvm_unreachable], [PrintFatalError] and a failing [cast<>]
      all stop the generator: they are the [Fatal] outcome of [Res];
    - the fields of [LinearSemantics] that the C++ code mutates are threaded
      through the state monad [M];
    - records are identified by their name, as TableGen does;
    - the parts of the TableGen pattern database that the backend only
      queries ([CodeGenDAGPatterns]) are taken as lookup functions. *)

From Stdlib Require Import ZArith String Ascii List Lia DecimalString.
From stdpp Require Import base gmap strings list sorting.
From Stdlib Require OrderedTypeEx.

Set Warnings "-register-all".
Local Open Scope Z_scope.

(** ** Outcomes *)

Inductive Res (A : Type) : Type :=
| OK (a : A)
| Fatal (msg : string).
Arguments OK {A} a.
Arguments Fatal {A} msg.

Definition isOK {A} (r : Res A) : bool :=
  match r with OK _ => true | Fatal _ => false end.

(** ** Machine integers *)

Definition wrap8 (z : Z) : Z := z mod 2 ^ 8.
Definition wrap16 (z : Z) : Z := z mod 2 ^ 16.
Definition wrap32 (z : Z) : Z := z mod 2 ^ 32.
Definition wrap64 (z : Z) : Z := z mod 2 ^ 64.

(** [~0U] *)
Definition NoIdx : Z := 2 ^ 32 - 1.

(** [llvm::utostr] on a [uint64_t]. *)
Definition utostr (X : Z) : string :=
  NilZero.string_of_uint (N.to_uint (Z.to_N X)).

(** ** [StringRef] and [std::string] operations used by the backend *)

(** [StringRef::startswith] *)
Fixpoint startswith (F Prefix : string) {struct Prefix} : bool :=
  match Prefix with
  | EmptyString => true
  | String p Prefix' =>
      match F with
      | EmptyString => false
      | String f F' => Ascii.eqb f p && startswith F' Prefix'
      end
  end.

Fixpoint drop_front (n : nat) (F : string) : string :=
  match n, F with
  | O, _ => F
  | S n', String _ F' => drop_front n' F'
  | S _, EmptyString => EmptyString
  end.

(** [std::string::find(char)]; [None] is [npos]. *)
Fixpoint find (c : ascii) (SF : string) : option nat :=
  match SF with
  | EmptyString => None
  | String a SF' =>
      if Ascii.eqb a c then Some O else option_map S (find c SF')
  end.

(** [SF[Pos] = c] *)
Fixpoint set_at (SF : string) (Pos : nat) (c : ascii) : string :=
  match SF, Pos with
  | EmptyString, _ => EmptyString
  | String _ SF', O => String c SF'
  | String a SF', S Pos' => String a (set_at SF' Pos' c)
  end.

(** [SF.pop_back()] *)
Fixpoint pop_back (SF : string) : string :=
  match SF with
  | EmptyString => EmptyString
  | String a EmptyString => EmptyString
  | String a SF' => String a (pop_back SF')
  end.

(** ** TableGen records and the pattern database *)

(** A TableGen [Record]: its name, the classes it derives from, and the
    value of its [RegClass] field when it has one. *)
Inductive Record : Type := mkRecord {
  getName : string;
  SuperClasses : list string;
  RegClass : option Record
}.

Definition isSubClassOf (R : Record) (Class : string) : bool :=
  existsb (String.eqb Class) (SuperClasses R).

(** [R->getValueAsDef("RegClass")] *)
Definition getValueAsDef_RegClass (R : Record) : Res Record :=
  match RegClass R with
  | Some RC => OK RC
  | None => Fatal "Record does not have a field named `RegClass'!"
  end.

(** [MVT::SimpleValueType]. [Any] is the first value that is not a concrete
    type; everything else compares below it. *)
Inductive SimpleValueType : Type :=
| Other | i1 | i8 | i16 | i32 | i64 | f32 | f64 | Glue
| isVoid | Untyped | Any.

#[global] Instance SimpleValueType_eq_dec : EqDecision SimpleValueType.
Proof. solve_decision. Defined.

Definition VT_eqb (a b : SimpleValueType) : bool := bool_decide (a = b).

(** [ResVT < MVT::Any] *)
Definition below_Any (VT : SimpleValueType) : bool := negb (VT_eqb VT Any).

Record SDNodeInfo : Type := mkSDNodeInfo {
  getEnumName : string;
  getNumResults : Z
}.

(** The queries made to [CodeGenDAGPatterns]. *)
Record CodeGenDAGPatterns : Type := mkCGP {
  getSelectFunc : Record -> string;
  getSDNodeInfo : Record -> SDNodeInfo
}.

(** ** [sanitizeSelectFuncToEnumVal] *)

Definition sanitizeSelectFuncToEnumVal (CP : Record)
    (CGP : CodeGenDAGPatterns) : Res string :=
  let F := getSelectFunc CGP CP in
  if negb (startswith F "select") && negb (startswith F "Select") then
    Fatal ("ComplexPattern func doesn't start with 'select': '" +:+ F +:+ "'.")
  else
    let F := drop_front (String.length "select") F in
    let SF := F in
    match find "<" SF with
    | Some Pos => OK (pop_back (set_at SF Pos "_"))
    | None => OK SF
    end.

(** ** [SemanticsTarget] *)

Record SemanticsTarget : Type := mkSemanticsTarget {
  CGPatterns : CodeGenDAGPatterns;
  (** keyed by the name of the target-specific node *)
  SDNodeEquiv : gmap string Record;
  ConstantIdx : gmap Z Z;
  CurConstantIdx : Z;
  EncounteredPredicates : list Record
}.

Definition set_Constants (T : SemanticsTarget) (m : gmap Z Z) (cur : Z)
    : SemanticsTarget :=
  {| CGPatterns := CGPatterns T; SDNodeEquiv := SDNodeEquiv T;
     ConstantIdx := m; CurConstantIdx := cur;
     EncounteredPredicates := EncounteredPredicates T |}.

(** [SetVector::insert] *)
Definition SetVector_insert (R : Record) (V : list Record) : list Record :=
  if existsb (fun R' => String.eqb (getName R') (getName R)) V
  then V else V ++ [R].

Definition set_EncounteredPredicates (T : SemanticsTarget)
    (V : list Record) : SemanticsTarget :=
  {| CGPatterns := CGPatterns T; SDNodeEquiv := SDNodeEquiv T;
     ConstantIdx := ConstantIdx T; CurConstantIdx := CurConstantIdx T;
     EncounteredPredicates := V |}.

(** The constant uniquing of [flattenLeaf]:
    [[
      uint16_t &Idx = Target.ConstantIdx[OpInt->getValue()];
      if (Idx == 0)
        Idx = ++Target.CurConstantIdx;
    ]]
    [std::map::operator[]] creates a zero entry for an absent key;
    the pre-increment is on a [uint16_t].  Returns the value of [Idx]. *)
Definition internConstant (Value : Z) (T : SemanticsTarget)
    : Z * SemanticsTarget :=
  let Key := wrap64 Value in
  let Idx := default 0 (ConstantIdx T !! Key) in
  if Idx =? 0 then
    let Idx' := wrap16 (CurConstantIdx T + 1) in
    (Idx', set_Constants T (<[Key := Idx']> (ConstantIdx T)) Idx')
  else (Idx, T).

(** The assertion of [SemanticsEmitter::run] before the constant array is
    printed: [assert(CurConstantIdx == ConstantIdx.size())]. *)
Definition ConstantArray_assert (T : SemanticsTarget) : bool :=
  CurConstantIdx T =? Z.of_nat (size (ConstantIdx T)).

(** ** Pattern trees *)

(** The value of a leaf ([Init]). *)
Inductive Init : Type :=
| IntInit (getValue : Z)
| DefInit (getDef : Record)
| OtherInit.

(** A [TreePatternNode] is a leaf holding a value or an operator applied to
    children.  [IntrinsicInfo] and [ComplexPatternInfo] say whether
    [getIntrinsicInfo] and [getComplexPatternInfo] answer non-null for the
    node; both are answers of the pattern database. *)
Inductive TreePatternNode : Type :=
| LeafNode (Types : list SimpleValueType) (Name : string) (Val : Init)
| OpNode (Types : list SimpleValueType) (Name : string) (Operator : Record)
    (PredicateFns : list Record) (Children : list TreePatternNode)
    (IntrinsicInfo ComplexPatternInfo : bool).

Definition getExtTypes (TPN : TreePatternNode) : list SimpleValueType :=
  match TPN with
  | LeafNode Tys _ _ => Tys
  | OpNode Tys _ _ _ _ _ _ => Tys
  end.

Definition getNumTypes (TPN : TreePatternNode) : Z :=
  Z.of_nat (length (getExtTypes TPN)).

Definition getNodeName (TPN : TreePatternNode) : string :=
  match TPN with
  | LeafNode _ N _ => N
  | OpNode _ N _ _ _ _ _ => N
  end.


Definition getChildren (TPN : TreePatternNode) : list TreePatternNode :=
  match TPN with
  | LeafNode _ _ _ => []
  | OpNode _ _ _ _ Cs _ _ => Cs
  end.

Definition getIntrinsicInfo (TPN : TreePatternNode) : bool :=
  match TPN with
  | LeafNode _ _ _ => false
  | OpNode _ _ _ _ _ II _ => II
  end.

Definition getComplexPatternInfo (TPN : TreePatternNode) : bool :=
  match TPN with
  | LeafNode _ _ _ => false
  | OpNode _ _ _ _ _ _ CI => CI
  end.

(** [cast<DefInit>(TPN.getLeafValue())->getDef()] *)
Definition getLeafDef (TPN : TreePatternNode) : Res Record :=
  match TPN with
  | LeafNode _ _ (DefInit R) => OK R
  | LeafNode _ _ _ => Fatal "cast<DefInit>() argument of incompatible type!"
  | OpNode _ _ _ _ _ _ _ => Fatal "getLeafValue: not a leaf"
  end.

(** ** Instructions *)

(** [CGIOperandList::OperandInfo]; [OpName] is its field [Name]. *)
Record OperandInfo : Type := mkOperandInfo {
  Rec : Record;
  OpName : string;
  OperandType : string;
  MIOperandNo : Z
}.

(** [CGI_ImplicitDefs] is the field [ImplicitDefs] of the instruction. *)
Record CodeGenInstruction : Type := mkCGI {
  TheDef : Record;
  Namespace : string;
  Operands : list OperandInfo;
  CGI_ImplicitDefs : list Record;
  isCodeGenOnly : bool
}.

(** ** Linear semantics *)

Record LSResult : Type := mkLSResult { DefNo : Z; VT : SimpleValueType }.

(** The constructor [LSResult(unsigned char DefNo, MVT::SimpleValueType)]:
    the argument is converted to [unsigned char]. *)
Definition LSResult_ (DefNo : Z) (VT : SimpleValueType) : LSResult :=
  mkLSResult (wrap8 DefNo) VT.

Definition LSResults : Type := list LSResult.

(** An operand of an operation.  The C++ code keeps the printed form only
    ([operand_str]); the constructors record what was printed:
    the number of a defined value, another unsigned number (an operand index
    or a constant index), or a name. *)
Inductive Operand : Type :=
| ValueOp (DefNo : Z)
| IndexOp (n : Z)
| NameOp (s : string).

Definition operand_str (Op : Operand) : string :=
  match Op with
  | ValueOp n => utostr n
  | IndexOp n => utostr n
  | NameOp s => s
  end.

(** [NodeTypes] and [NodeOperands] are the fields [Types] and [Operands]. *)
Record LSNode : Type := mkLSNode {
  TPN : TreePatternNode;
  Opcode : string;
  NodeTypes : list SimpleValueType;
  NodeOperands : list Operand
}.

(** [LSNode(const TreePatternNode &TPN)] *)
Definition LSNode_ (TPN : TreePatternNode) : LSNode :=
  mkLSNode TPN "" (getExtTypes TPN) [].

Definition setOpcode (NS : LSNode) (Opc : string) : LSNode :=
  mkLSNode (TPN NS) Opc (NodeTypes NS) (NodeOperands NS).

Definition addOperand (NS : LSNode) (Op : Operand) : LSNode :=
  mkLSNode (TPN NS) (Opcode NS) (NodeTypes NS) (NodeOperands NS ++ [Op]).

Definition setTypes (NS : LSNode) (Tys : list SimpleValueType) : LSNode :=
  mkLSNode (TPN NS) (Opcode NS) Tys (NodeOperands NS).

(** The operands as the generated table prints them. *)
Definition printed_operands (NS : LSNode) : list string :=
  map operand_str (NodeOperands NS).

(** A [TreePattern], as far as the backend looks at it: [getTrees()]. *)
Definition TreePattern : Type := list TreePatternNode.

Record InstSemantics : Type := mkInstSemantics {
  Pattern : option TreePattern;
  Semantics : list LSNode;
  ExplicitDefs : list Record;
  ImplicitDefs : list Record;
  LastDefSemaIdx : Z;
  LastDefNo : Z;
  HasIntrinsic : bool;
  HasComplexPattern : bool
}.

(** A default-constructed [InstSemantics]. *)
Definition InstSemantics_ : InstSemantics :=
  mkInstSemantics None [] [] [] NoIdx NoIdx false false.

Definition set_Pattern (TP : TreePattern) (I : InstSemantics)
    : InstSemantics :=
  mkInstSemantics (Some TP) (Semantics I) (ExplicitDefs I) (ImplicitDefs I)
    (LastDefSemaIdx I) (LastDefNo I) (HasIntrinsic I) (HasComplexPattern I).

(** The mutable state of a [LinearSemantics] object: the target it refers
    to, the instruction semantics [I] it refers to (here [Sema], the name of
    the object in [parseInstSemantics]), and its own two fields. *)
Record LinearSemantics : Type := mkLS {
  Target : SemanticsTarget;
  Sema : InstSemantics;
  OperandByName : gmap string Z;
  CurDefNo : Z
}.

(** [LinearSemantics(Target, CGI, I)] *)
Definition LinearSemantics_ (T : SemanticsTarget) (I : InstSemantics)
    : LinearSemantics :=
  mkLS T I ∅ 0.

(** ** The state and error monad of the linearization *)

Definition M (A : Type) : Type := LinearSemantics -> Res (A * LinearSemantics).

Definition ret {A} (a : A) : M A := fun st => OK (a, st).

Definition bind {A B} (m : M A) (k : A -> M B) : M B :=
  fun st =>
    match m st with
    | OK (a, st') => k a st'
    | Fatal msg => Fatal msg
    end.

Definition fatal {A} (msg : string) : M A := fun _ => Fatal msg.

Definition get : M LinearSemantics := fun st => OK (st, st).

Definition modify (f : LinearSemantics -> LinearSemantics) : M unit :=
  fun st => OK (tt, f st).

(** [assert(Cond && Msg)] *)
Definition assert (Cond : bool) (Msg : string) : M unit :=
  if Cond then ret tt else fatal Msg.

Definition lift {A} (r : Res A) : M A :=
  fun st => match r with OK a => OK (a, st) | Fatal msg => Fatal msg end.

Notation "'let*' x ':=' m 'in' k" := (bind m (fun x => k))
  (at level 10, x name, m at level 100, k at level 200).

(** Updates of the fields. *)
Definition with_Sema (f : InstSemantics -> InstSemantics)
    (st : LinearSemantics) : LinearSemantics :=
  mkLS (Target st) (f (Sema st)) (OperandByName st) (CurDefNo st).

Definition with_Target (f : SemanticsTarget -> SemanticsTarget)
    (st : LinearSemantics) : LinearSemantics :=
  mkLS (f (Target st)) (Sema st) (OperandByName st) (CurDefNo st).

Definition set_OperandByName (m : gmap string Z) (st : LinearSemantics)
    : LinearSemantics :=
  mkLS (Target st) (Sema st) m (CurDefNo st).

Definition set_CurDefNo (n : Z) (st : LinearSemantics) : LinearSemantics :=
  mkLS (Target st) (Sema st) (OperandByName st) n.

Definition set_HasIntrinsic (b : bool) (I : InstSemantics) : InstSemantics :=
  mkInstSemantics (Pattern I) (Semantics I) (ExplicitDefs I) (ImplicitDefs I)
    (LastDefSemaIdx I) (LastDefNo I) b (HasComplexPattern I).

Definition set_HasComplexPattern (b : bool) (I : InstSemantics)
    : InstSemantics :=
  mkInstSemantics (Pattern I) (Semantics I) (ExplicitDefs I) (ImplicitDefs I)
    (LastDefSemaIdx I) (LastDefNo I) (HasIntrinsic I) b.

Definition push_ExplicitDef (R : Record) (I : InstSemantics) : InstSemantics :=
  mkInstSemantics (Pattern I) (Semantics I) (ExplicitDefs I ++ [R]) (ImplicitDefs I)
    (LastDefSemaIdx I) (LastDefNo I) (HasIntrinsic I) (HasComplexPattern I).

Definition push_ImplicitDef (R : Record) (I : InstSemantics) : InstSemantics :=
  mkInstSemantics (Pattern I) (Semantics I) (ExplicitDefs I) (ImplicitDefs I ++ [R])
    (LastDefSemaIdx I) (LastDefNo I) (HasIntrinsic I) (HasComplexPattern I).

Definition set_ImplicitDefs (Rs : list Record) (I : InstSemantics)
    : InstSemantics :=
  mkInstSemantics (Pattern I) (Semantics I) (ExplicitDefs I) Rs
    (LastDefSemaIdx I) (LastDefNo I) (HasIntrinsic I) (HasComplexPattern I).

Definition set_LastDef (Idx No : Z) (I : InstSemantics) : InstSemantics :=
  mkInstSemantics (Pattern I) (Semantics I) (ExplicitDefs I) (ImplicitDefs I)
    Idx No (HasIntrinsic I) (HasComplexPattern I).

Definition push_Semantics (NS : LSNode) (I : InstSemantics) : InstSemantics :=
  mkInstSemantics (Pattern I) (Semantics I ++ [NS]) (ExplicitDefs I) (ImplicitDefs I)
    (LastDefSemaIdx I) (LastDefNo I) (HasIntrinsic I) (HasComplexPattern I).

(** ** [LinearSemantics]: the linearization itself *)

Section Linearization.

Variable CGI : CodeGenInstruction.

(** [getNamedOperand] *)
Definition getNamedOperand (Name : string) : option OperandInfo :=
  if String.eqb Name "" then None
  else List.find (fun Op => String.eqb Name (OpName Op)) (Operands CGI).

(** The loop of [addSemantics] over the types of the operation: the new
    value of [CurDefNo] and whether an [Untyped] result was seen. *)
Fixpoint countDefs (Tys : list SimpleValueType) (Cur : Z) (Intr : bool)
    : Z * bool :=
  match Tys with
  | [] => (Cur, Intr)
  | Ty :: Tys' =>
      let Cur' := if negb (VT_eqb Ty isVoid) then wrap32 (Cur + 1) else Cur in
      let Intr' := if VT_eqb Ty Untyped then true else Intr in
      countDefs Tys' Cur' Intr'
  end.

Definition addSemantics_st (NS : LSNode) (st : LinearSemantics)
    : LinearSemantics :=
  let FirstDefNo := CurDefNo st in
  let '(Cur, Intr) :=
    countDefs (NodeTypes NS) (CurDefNo st) (HasIntrinsic (Sema st)) in
  let I1 := set_HasIntrinsic Intr (Sema st) in
  let I2 :=
    if negb (FirstDefNo =? Cur)
    then set_LastDef (wrap32 (Z.of_nat (length (Semantics I1)))) FirstDefNo I1
    else I1 in
  mkLS (Target st) (push_Semantics NS I2) (OperandByName st) Cur.

(** [addSemantics] *)
Definition addSemantics (NS : LSNode) : M unit := modify (addSemantics_st NS).

(** [Op.Types[0]], after [assert(TPN.getExtTypes().size() == 1)]. *)
Definition soleType (NS : LSNode) : M SimpleValueType :=
  match NodeTypes NS with
  | [Ty] => ret Ty
  | _ => fatal "TPN.getExtTypes().size() == 1"
  end.

(** [flattenOperand] *)
Definition flattenOperand (TPN : TreePatternNode) (OpInfo : OperandInfo)
    : M LSResult :=
  let OpRec := Rec OpInfo in
  let Op := LSNode_ TPN in
  let* Ty0 := soleType Op in
  let* OpRec :=
    (if isSubClassOf OpRec "RegisterOperand"
     then lift (getValueAsDef_RegClass OpRec) else ret OpRec) in
  let finish (Op : LSNode) : M LSResult :=
    let* st := get in
    let R := LSResult_ (CurDefNo st) Ty0 in
    let Op := addOperand Op (IndexOp (MIOperandNo OpInfo)) in
    let* _ := addSemantics Op in
    ret R in
  if isSubClassOf OpRec "Operand" then
    if String.eqb (OperandType OpInfo) "OPERAND_IMMEDIATE" then
      finish (setOpcode Op "DCINS::GET_IMMEDIATE")
    else
      let Op := setOpcode Op "DCINS::CUSTOM_OP" in
      let Op :=
        addOperand Op
          (NameOp (Namespace CGI +:+ "::OpTypes::" +:+ getName OpRec)) in
      let* st := get in
      match OperandByName st !! OpName OpInfo with
      | None =>
          let* _ :=
            modify (set_OperandByName
                      (<[OpName OpInfo := CurDefNo st]> (OperandByName st))) in
          finish Op
      | Some It => ret (LSResult_ It Ty0)
      end
  else if isSubClassOf OpRec "RegisterClass" then
    finish (setOpcode Op "DCINS::GET_RC")
  else fatal "Unknown operand type".

(** [flattenLeaf]; the node is a leaf with value [LeafValue]. *)
Definition flattenLeaf (TPN : TreePatternNode) (LeafValue : Init)
    : M LSResult :=
  let Op := LSNode_ TPN in
  let* Ty0 := soleType Op in
  match LeafValue with
  | DefInit OpRec =>
      if isSubClassOf OpRec "Register" then
        let Op := setOpcode Op "DCINS::GET_REG" in
        let Op :=
          addOperand Op (NameOp (Namespace CGI +:+ "::" +:+ getName OpRec)) in
        let* st := get in
        let R := LSResult_ (CurDefNo st) Ty0 in
        let* _ := addSemantics Op in
        ret R
      else fatal "Unknown operand type"
  | IntInit Value =>
      let Op := setOpcode Op "DCINS::GET_CONSTANT" in
      let* st := get in
      let '(Idx, T') := internConstant Value (Target st) in
      let* _ := modify (with_Target (fun _ => T')) in
      let Op := addOperand Op (IndexOp (wrap64 (Idx - 1))) in
      let* st := get in
      let R := LSResult_ (CurDefNo st) Ty0 in
      let* _ := addSemantics Op in
      ret R
  | OtherInit => fatal "cast<IntInit>() argument of incompatible type!"
  end.

(** The loop producing the results of an operation:
    [[
      for (unsigned i = 0, e = NS.Types.size(); i != e; ++i) {
        MVT::SimpleValueType ResVT = NS.Types[i];
        assert(ResVT < MVT::Any);
        if (ResVT != MVT::isVoid)
          R.emplace_back(CurDefNo + i, ResVT);
        if (ResVT == MVT::Untyped)     // complex patterns only
          I.HasIntrinsic = true;
      }
    ]]
    [i] is the index of the type, [Cur] the value of [CurDefNo]. *)
Fixpoint produceResults (MarkUntyped : bool) (Tys : list SimpleValueType)
    (i : Z) (Cur : Z) : M LSResults :=
  match Tys with
  | [] => ret []
  | ResVT :: Tys' =>
      let* _ := assert (below_Any ResVT) "ResVT < MVT::Any" in
      let* _ :=
        (if MarkUntyped && VT_eqb ResVT Untyped
         then modify (with_Sema (set_HasIntrinsic true)) else ret tt) in
      let* R := produceResults MarkUntyped Tys' (i + 1) Cur in
      ret (if negb (VT_eqb ResVT isVoid)
           then LSResult_ (wrap32 (Cur + i)) ResVT :: R else R)
  end.

Section SDNode.

(** The recursive call of [flattenSDNode] into [flattenSubtree]. *)
Variable flattenSubtree : TreePatternNode -> M LSResults.

(** The loop over the children:
    [[
      LSResults ChildRes = flattenSubtree(Child);
      assert(!ChildRes.empty() && "Subtree didn't defined anything?");
      NS.addOperand(utostr(ChildRes.front().DefNo));
    ]] *)
Fixpoint flattenChildren (Cs : list TreePatternNode) (NS : LSNode)
    : M LSNode :=
  match Cs with
  | [] => ret NS
  | C :: Cs' =>
      let* ChildRes := flattenSubtree C in
      match ChildRes with
      | [] => fatal "Subtree didn't defined anything?"
      | Front :: _ => flattenChildren Cs' (addOperand NS (ValueOp (DefNo Front)))
      end
  end.

(** [flattenSDNode] on an operator node. *)
Definition flattenSDNode_on (TPN : TreePatternNode) (Operator : Record)
    (Preds : list Record) (Cs : list TreePatternNode) : M LSResults :=
  let NS := LSNode_ TPN in
  if isSubClassOf Operator "ComplexPattern" then
    let* _ :=
      (if getIntrinsicInfo TPN
       then modify (with_Sema (set_HasIntrinsic true)) else ret tt) in
    let* _ := modify (with_Sema (set_HasComplexPattern false)) in
    let NS := setOpcode NS "DCINS::COMPLEX_PATTERN" in
    let* st := get in
    let* Kind :=
      lift (sanitizeSelectFuncToEnumVal Operator (CGPatterns (Target st))) in
    let NS :=
      addOperand NS
        (NameOp (Namespace CGI +:+ "::ComplexPattern::" +:+ Kind)) in
    let* NS := flattenChildren Cs NS in
    let* st := get in
    let* R := produceResults true (NodeTypes NS) 0 (CurDefNo st) in
    let* _ := addSemantics NS in
    ret R
  else if negb (isSubClassOf Operator "SDNode") then
    fatal "Unable to handle operator."
  else
    let* _ :=
      (if getIntrinsicInfo TPN
       then modify (with_Sema (set_HasIntrinsic true)) else ret tt) in
    let* _ :=
      (if getComplexPatternInfo TPN
       then modify (with_Sema (set_HasComplexPattern true)) else ret tt) in
    let* st := get in
    let SDNI := getSDNodeInfo (CGPatterns (Target st)) Operator in
    let NS := setOpcode NS (getEnumName SDNI) in
    let* NS :=
      match SDNodeEquiv (Target st) !! getName Operator with
      | Some EquivNode =>
          let EquivSDNI := getSDNodeInfo (CGPatterns (Target st)) EquivNode in
          let NS := setOpcode NS (getEnumName EquivSDNI) in
          let Dropped := wrap32 (getNumTypes TPN - getNumResults EquivSDNI) in
          let* _ :=
            assert (0 <? Dropped)
              "(TPN.getNumTypes() - EquivSDNI.getNumResults()) > 0" in
          let NewSize := Z.of_nat (length (NodeTypes NS)) - Dropped in
          let* _ := assert (0 <=? NewSize) "vector::resize" in
          ret (setTypes NS (take (Z.to_nat NewSize) (NodeTypes NS)))
      | None => ret NS
      end in
    let* NS :=
      match last Preds with
      | Some PredRec =>
          let NS := setOpcode NS "DCINS::PREDICATE" in
          let NS :=
            addOperand NS
              (NameOp ("TargetOpcode::Predicate::" +:+ getName PredRec)) in
          let* _ :=
            modify (with_Target (fun T =>
              set_EncounteredPredicates T
                (SetVector_insert PredRec (EncounteredPredicates T)))) in
          ret NS
      | None => ret NS
      end in
    let* NS := flattenChildren Cs NS in
    let* st := get in
    let* R := produceResults false (NodeTypes NS) 0 (CurDefNo st) in
    let* _ := addSemantics NS in
    ret R.

End SDNode.

(** [flattenSubtree] *)
Fixpoint flattenSubtree (TPN : TreePatternNode) : M LSResults :=
  match getNamedOperand (getNodeName TPN) with
  | Some OpInfo =>
      let* R := flattenOperand TPN OpInfo in ret [R]
  | None =>
      match TPN with
      | LeafNode _ _ LeafValue =>
          let* R := flattenLeaf TPN LeafValue in ret [R]
      | OpNode _ _ Operator Preds Cs _ _ =>
          flattenSDNode_on flattenSubtree TPN Operator Preds Cs
      end
  end.

(** [flattenSDNode]; [TPN.getOperator()] fails on a leaf. *)
Definition flattenSDNode (TPN : TreePatternNode) : M LSResults :=
  match TPN with
  | LeafNode _ _ _ => fatal "getOperator: leaf"
  | OpNode _ _ Operator Preds Cs _ _ =>
      flattenSDNode_on flattenSubtree TPN Operator Preds Cs
  end.

(** One iteration of the loop of [flattenSet]: the defined value [Child],
    which is child [i] of the "set" node [TPN]; [continue] and the end of
    the body are [ret tt]. *)
Definition flattenSetDef (TPN : TreePatternNode) (ChildResults : LSResults)
    (Child : TreePatternNode) (i : nat) : M unit :=
  let NumOps := length ChildResults in
  let* OpRec := lift (getLeafDef Child) in
  if (NumOps <=? i)%nat then
    let* _ :=
      assert (isSubClassOf OpRec "Register")
        "Dropped implicit-def wasn't an explicit register set?" in
    modify (with_Sema (push_ImplicitDef OpRec))
  else
    let NS := LSNode_ TPN in
    let* OpRec :=
      (if isSubClassOf OpRec "RegisterOperand"
       then lift (getValueAsDef_RegClass OpRec) else ret OpRec) in
    let* NS :=
      (if isSubClassOf OpRec "RegisterClass" then
         match getNamedOperand (getNodeName Child) with
         | Some OpInfo =>
             let NS := setOpcode NS "DCINS::PUT_RC" in
             ret (addOperand NS (IndexOp (MIOperandNo OpInfo)))
         | None => fatal "'set' output operand not found in instruction?"
         end
       else if isSubClassOf OpRec "Register" then
         let NS := setOpcode NS "DCINS::PUT_REG" in
         let NS :=
           addOperand NS (NameOp (Namespace CGI +:+ "::" +:+ getName OpRec)) in
         let* _ := modify (with_Sema (push_ExplicitDef OpRec)) in
         ret NS
       else fatal "SET operator should only set registers!") in
    match ChildResults !! i with
    | Some Op =>
        let NS := addOperand NS (ValueOp (DefNo Op)) in
        addSemantics NS
    | None => fatal "vector subscript out of range"
    end.

(** The loop of [flattenSet] over the defined values [Defs], from index
    [i]. *)
Fixpoint flattenSetDefs (TPN : TreePatternNode) (ChildResults : LSResults)
    (Defs : list TreePatternNode) (i : nat) : M unit :=
  match Defs with
  | [] => ret tt
  | Child :: Defs' =>
      let* _ := flattenSetDef TPN ChildResults Child i in
      flattenSetDefs TPN ChildResults Defs' (S i)
  end.

(** [flattenSet] *)
Definition flattenSet (TPN : TreePatternNode) : M unit :=
  let Cs := getChildren TPN in
  match last Cs with
  | None => fatal "getChild: no such child"
  | Some LastChild =>
      let NumDefs := (length Cs - 1)%nat in
      let* _ :=
        assert (Z.of_nat NumDefs <=? getNumTypes LastChild)
          "Invalid 'set': last child needs to define all the others." in
      let* ChildResults := flattenSubtree LastChild in
      flattenSetDefs TPN ChildResults (take NumDefs Cs) 0
  end.

(** One [CodeGenRegister] exists per register record; it is identified by
    the name of the record. *)
Definition getReg (R : Record) : string := getName R.

(** The last loop of [computeImplicitDefs]. *)
Fixpoint uniqueImplicitDefs (ExplicitDefs : gset string)
    (AllImplicitDefs : list Record) (ImplicitDefs : gset string)
    : list Record :=
  match AllImplicitDefs with
  | [] => []
  | R :: Rs =>
      let CGR := getReg R in
      if bool_decide (CGR ∉ ExplicitDefs) && bool_decide (CGR ∉ ImplicitDefs)
      then R :: uniqueImplicitDefs ExplicitDefs Rs ({[CGR]} ∪ ImplicitDefs)
      else uniqueImplicitDefs ExplicitDefs Rs ImplicitDefs
  end.

Definition computeImplicitDefs_I (I : InstSemantics) : InstSemantics :=
  let ExplicitDefs : gset string :=
    list_to_set (map getReg (ExplicitDefs I)) in
  let AllImplicitDefs := CGI_ImplicitDefs CGI ++ ImplicitDefs I in
  set_ImplicitDefs (uniqueImplicitDefs ExplicitDefs AllImplicitDefs ∅) I.

(** [computeImplicitDefs] *)
Definition computeImplicitDefs : M unit :=
  modify (with_Sema computeImplicitDefs_I).

(** [flatten] *)
Definition flatten (TPN : TreePatternNode) : M unit :=
  match TPN with
  | LeafNode _ _ _ => fatal "getOperator: leaf"
  | OpNode _ _ Operator _ _ _ _ =>
      if String.eqb (getName Operator) "implicit" then ret tt
      else if String.eqb (getName Operator) "set" then flattenSet TPN
      else
        let* R := flattenSDNode TPN in
        assert (bool_decide (R = [])) "Top-level SDNodes can't produce results!"
  end.

(** The loop of [parseInstSemantics] calling [flatten] on every tree of
    the pattern. *)
Fixpoint flattenTrees (Trees : list TreePatternNode) : M unit :=
  match Trees with
  | [] => ret tt
  | TPN :: Trees' => let* _ := flatten TPN in flattenTrees Trees'
  end.

End Linearization.

(** ** [SemanticsEmitter]: collecting the semantics of all instructions *)

Record SemanticsEmitter : Type := mkSemanticsEmitter {
  InstSemas : list InstSemantics;
  InstIdx : list Z;
  SemaTarget : SemanticsTarget
}.

(** The rejection tests of [parseInstSemantics]. *)
Definition rejected (Sema : InstSemantics) : bool :=
  (HasIntrinsic Sema || HasComplexPattern Sema)
  || (1 <? length (ImplicitDefs Sema))%nat
  || (negb (bool_decide (ImplicitDefs Sema = [])) && (LastDefNo Sema =? NoIdx)).

(** [parseInstSemantics].  The [SemanticsTarget] is shared with the
    [LinearSemantics] object, so what the walk did to it stays. *)
Definition parseInstSemantics (InstEnumValue : nat)
    (CGI : CodeGenInstruction) (TP : TreePattern) (E : SemanticsEmitter)
    : Res SemanticsEmitter :=
  let Sema0 := set_Pattern TP InstSemantics_ in
  let Flat := LinearSemantics_ (SemaTarget E) Sema0 in
  match (let* _ := flattenTrees CGI TP in computeImplicitDefs CGI) Flat with
  | Fatal msg => Fatal msg
  | OK (_, Flat') =>
      if rejected (Sema Flat') then
        OK (mkSemanticsEmitter (InstSemas E) (InstIdx E) (Target Flat'))
      else
        OK (mkSemanticsEmitter
              (InstSemas E ++ [Sema Flat'])
              (<[InstEnumValue := wrap32 (Z.of_nat (length (InstSemas E)))]>
                 (InstIdx E))
              (Target Flat'))
  end.

(** A record derived from [Semantics], after its pattern was parsed: the
    enum value of the instruction it names and the pattern. *)
Record SemanticsDef : Type := mkSemanticsDef {
  Inst : nat;
  SemaPattern : TreePattern
}.

(** An entry of [getInstructionsByEnumValue()], with the pattern the pattern
    database has for the instruction, if any. *)
Record InstructionEntry : Type := mkInstructionEntry {
  EntryCGI : CodeGenInstruction;
  DIPattern : option TreePattern
}.

(** [ParseSemantics] *)
Fixpoint ParseSemantics (CGIByEnum : list InstructionEntry)
    (Instrs : list SemanticsDef) (E : SemanticsEmitter)
    : Res SemanticsEmitter :=
  match Instrs with
  | [] => OK E
  | SD :: Instrs' =>
      match CGIByEnum !! Inst SD with
      | None => Fatal "It != CGIByEnum.end() && *It == &CGI"
      | Some Entry =>
          match
            parseInstSemantics (Inst SD) (EntryCGI Entry) (SemaPattern SD) E
          with
          | OK E' => ParseSemantics CGIByEnum Instrs' E'
          | Fatal msg => Fatal msg
          end
      end
  end.

(** The loop of the constructor over the instructions, from enum value
    [i]. *)
Fixpoint parsePatterns (Entries : list InstructionEntry) (i : nat)
    (E : SemanticsEmitter) : Res SemanticsEmitter :=
  match Entries with
  | [] => OK E
  | Entry :: Entries' =>
      let CGI := EntryCGI Entry in
      if negb (default NoIdx (InstIdx E !! i) =? NoIdx) then
        parsePatterns Entries' (S i) E
      else
        match DIPattern Entry with
        | Some TP =>
            if negb (isCodeGenOnly CGI) then
              match parseInstSemantics i CGI TP E with
              | OK E' => parsePatterns Entries' (S i) E'
              | Fatal msg => Fatal msg
              end
            else parsePatterns Entries' (S i) E
        | None => parsePatterns Entries' (S i) E
        end
  end.

(** [SemanticsTarget::SemanticsTarget]; [Equivs] are the [SDNodeEquiv]
    records as pairs (TargetSpecific, TargetIndependent). *)
Definition SemanticsTarget_ (CGP : CodeGenDAGPatterns)
    (Equivs : list (Record * Record)) : SemanticsTarget :=
  mkSemanticsTarget CGP
    (foldl (fun m E => <[getName (fst E) := snd E]> m) ∅ Equivs) ∅ 0 [].

(** [SemanticsEmitter::SemanticsEmitter] *)
Definition SemanticsEmitter_ (CGP : CodeGenDAGPatterns)
    (Equivs : list (Record * Record)) (Instrs : list SemanticsDef)
    (CGIByEnum : list InstructionEntry) : Res SemanticsEmitter :=
  let E :=
    mkSemanticsEmitter [] (replicate (length CGIByEnum) NoIdx)
      (SemanticsTarget_ CGP Equivs) in
  match ParseSemantics CGIByEnum Instrs E with
  | OK E' => parsePatterns CGIByEnum 0 E'
  | Fatal msg => Fatal msg
  end.

(** ** [SemanticsEmitter::run]: the constant array *)

(** The loop
    [[
      for (auto &CI : SemaTarget.ConstantIdx)
        Constants[CI.second - 1] = CI.first;
    ]]
    over the entries [CIs] of the map; an index outside of the vector stops
    the generator. *)
Fixpoint storeConstants (CIs : list (Z * Z)) (Constants : list Z)
    : Res (list Z) :=
  match CIs with
  | [] => OK Constants
  | CI :: CIs' =>
      let i := snd CI - 1 in
      if (0 <=? i) && (i <? Z.of_nat (length Constants))
      then storeConstants CIs' (<[Z.to_nat i := fst CI]> Constants)
      else Fatal "Constants[CI.second - 1]: index out of range"
  end.

(** The entries of a [std::map], in the order of its iteration: by
    ascending key. *)
Definition key_le (a b : Z * Z) : Prop := fst a <= fst b.

#[global] Instance key_le_dec : RelDecision key_le.
Proof. intros a b. unfold key_le. apply _. Defined.

Definition entries (m : gmap Z Z) : list (Z * Z) :=
  merge_sort key_le (map_to_list m).

(** The values of [ConstantArray[]]:
    [[
      assert(SemaTarget.CurConstantIdx == SemaTarget.ConstantIdx.size());
      std::vector<uint64_t> Constants(SemaTarget.CurConstantIdx);
    ]]
    followed by the loop above. *)
Definition ConstantArray (T : SemanticsTarget) : Res (list Z) :=
  if negb (ConstantArray_assert T) then
    Fatal "SemaTarget.CurConstantIdx == SemaTarget.ConstantIdx.size()"
  else
    storeConstants (entries (ConstantIdx T))
      (replicate (Z.to_nat (CurConstantIdx T)) 0).

(** ** [SemanticsEmitter::run]: the semantics table *)

(** The state of the loop that prints [InstSemantics[]]: the list
    [InstIdx], whose entries the loop replaces by offsets, the offset
    [CurSemaOffset], and the elements of the array written so far (the
    comments that [run] prints between them are left out). *)
Record TableState : Type := mkTableState {
  TInstIdx : list Z;
  CurSemaOffset : Z;
  TableOS : list string
}.

Definition END_OF_INSTRUCTION : string := "DCINS::END_OF_INSTRUCTION".

(** [std::unique] *)
Fixpoint unique (l : list string) : list string :=
  match l with
  | [] => []
  | a :: l' =>
      match l' with
      | b :: _ => if String.eqb a b then unique l' else a :: unique l'
      | [] => [a]
      end
  end.

(** [operator<=] on [std::string]. *)
Definition string_le (a b : string) : Prop := String.leb a b = true.

#[global] Instance string_le_dec : RelDecision string_le.
Proof. intros a b. unfold string_le. apply _. Defined.

(** The loop calling [sanitizeSelectFuncToEnumVal] on every complex
    pattern. *)
Fixpoint sanitizeAll (CPs : list Record) (CGP : CodeGenDAGPatterns)
    : Res (list string) :=
  match CPs with
  | [] => OK []
  | CP :: CPs' =>
      match sanitizeSelectFuncToEnumVal CP CGP with
      | Fatal msg => Fatal msg
      | OK K =>
          match sanitizeAll CPs' CGP with
          | Fatal msg => Fatal msg
          | OK Ks => OK (K :: Ks)
          end
      end
  end.

(** [CPKinds], after [std::stable_sort] and [std::unique]. *)
Definition CPKinds (CPs : list Record) (CGP : CodeGenDAGPatterns)
    : Res (list string) :=
  match sanitizeAll CPs CGP with
  | Fatal msg => Fatal msg
  | OK Ks => OK (unique (merge_sort string_le Ks))
  end.

Section Run.

(** The name of the target and [llvm::getEnumName] on value types. *)
Variable TGName : string.
Variable VT_getEnumName : SimpleValueType -> string.

(** The elements printed for one operation: the opcode, the number of
    results and operands, the types, the operands. *)
Definition emitNode (NS : LSNode) : list string :=
  [Opcode NS;
   "(" +:+ utostr (Z.of_nat (length (NodeTypes NS))) +:+ "<<8)|"
       +:+ utostr (Z.of_nat (length (NodeOperands NS)))]
  ++ map VT_getEnumName (NodeTypes NS) ++ printed_operands NS.

(** The loop over [Sema.Semantics], from the operation of index [I]: the
    elements printed, [CurSemaOffset] and [LastDefSemaOffset] afterwards. *)
Fixpoint emitNodes (Prog : list LSNode) (I LastDefSemaIdx : Z)
    (Cur LastDefSemaOffset : Z) : list string * (Z * Z) :=
  match Prog with
  | [] => ([], (Cur, LastDefSemaOffset))
  | NS :: Prog' =>
      let LastDefSemaOffset :=
        if I =? LastDefSemaIdx then Cur else LastDefSemaOffset in
      let Cur := wrap32 (Cur + 1) in
      let Cur := wrap32 (Cur + 1) in
      let Cur := wrap32 (Cur + Z.of_nat (length (NodeTypes NS))) in
      let Cur := wrap32 (Cur + Z.of_nat (length (NodeOperands NS))) in
      let '(Out, r) :=
        emitNodes Prog' (I + 1) LastDefSemaIdx Cur LastDefSemaOffset in
      (emitNode NS ++ Out, r)
  end.

(** The elements printed for the implicit definition, after the two
    assertions on it. *)
Definition emitImplicit (Sema : InstSemantics) : Res (list string) :=
  if negb (length (ImplicitDefs Sema) <=? 1)%nat then
    Fatal "Can't handle multiple IMPLICITs yet!"
  else
    match ImplicitDefs Sema with
    | [] => OK []
    | R :: _ =>
        if LastDefNo Sema =? NoIdx then
          Fatal "Can't handle IMPLICIT without any other def!"
        else OK ["DCINS::IMPLICIT"%string; "0"%string;
                 TGName +:+ "::" +:+ getReg R]
    end.

(** The body of the loop over the instructions, for the instruction of enum
    value [I]. *)
Definition emitInst (InstSemas : list InstSemantics) (I : Z)
    (st : TableState) : Res TableState :=
  match TInstIdx st !! Z.to_nat I with
  | None => Fatal "InstIdx[I]: index out of range"
  | Some Idx =>
      if Idx =? NoIdx then OK st
      else
        match InstSemas !! Z.to_nat Idx with
        | None => Fatal "InstSemas[InstIdx[I]]: index out of range"
        | Some Sema =>
            let InstIdx' := <[Z.to_nat I := CurSemaOffset st]> (TInstIdx st) in
            let Cur := wrap32 (CurSemaOffset st + 1) in
            let E := wrap32 (Z.of_nat (length (Semantics Sema))) in
            let '(Out, (Cur, _)) :=
              emitNodes (take (Z.to_nat E) (Semantics Sema)) 0
                (LastDefSemaIdx Sema) Cur NoIdx in
            match emitImplicit Sema with
            | Fatal msg => Fatal msg
            | OK Imp =>
                let Cur :=
                  if bool_decide (ImplicitDefs Sema = []) then Cur
                  else wrap32 (Cur + 3) in
                OK (mkTableState InstIdx' Cur
                      (TableOS st ++ Out ++ Imp ++ [END_OF_INSTRUCTION]))
            end
        end
  end.

Fixpoint emitInsts (InstSemas : list InstSemantics) (Is : list Z)
    (st : TableState) : Res TableState :=
  match Is with
  | [] => OK st
  | I0 :: Is' =>
      match emitInst InstSemas I0 st with
      | Fatal msg => Fatal msg
      | OK st' => emitInsts InstSemas Is' st'
      end
  end.

(** The loop [for (unsigned I = 1, E = InstIdx.size(); I != E; ++I)]: when
    [E] is 0 the counter runs up to [~0U]. *)
Definition emitInstSemantics (E : SemanticsEmitter) : Res TableState :=
  let E_ := wrap32 (Z.of_nat (length (InstIdx E))) in
  emitInsts (InstSemas E)
    (seqZ 1 ((if E_ =? 0 then 2 ^ 32 else E_) - 1))
    (mkTableState (InstIdx E) 1 [END_OF_INSTRUCTION]).

(** The elements of [OpcodeToSemaIdx[]]. *)
Definition emitOpcodeToSemaIdx (InstIdx : list Z) : list string :=
  map (fun Idx => if Idx =? NoIdx then "~0U"%string else utostr Idx)
    (take (Z.to_nat (wrap32 (Z.of_nat (length InstIdx)))) InstIdx).

(** What [run] prints from the collected semantics: the enumerators of
    [ComplexPattern], the elements of [InstSemantics[]], [OpcodeToSemaIdx[]]
    and [ConstantArray[]], and the names of the predicates.  The other
    tables that [run] prints hold what other parts of TableGen computed. *)
Record Tables : Type := mkTables {
  ComplexPatternEnum : list string;
  InstSemanticsArray : list string;
  OpcodeToSemaIdx : list string;
  ConstantArrayValues : list Z;
  PredicateNames : list string
}.

(** [SemanticsEmitter::run]; [CPs] are the records derived from
    [ComplexPattern]. *)
Definition run (CGIByEnum : list InstructionEntry) (CPs : list Record)
    (E : SemanticsEmitter) : Res Tables :=
  if negb (length CGIByEnum =? length (InstIdx E))%nat then
    Fatal "CGIByEnum.size() == InstIdx.size()"
  else
    match CPKinds CPs (CGPatterns (SemaTarget E)) with
    | Fatal msg => Fatal msg
    | OK Kinds =>
        match emitInstSemantics E with
        | Fatal msg => Fatal msg
        | OK st =>
            match ConstantArray (SemaTarget E) with
            | Fatal msg => Fatal msg
            | OK Constants =>
                OK (mkTables Kinds (TableOS st)
                      (emitOpcodeToSemaIdx (TInstIdx st)) Constants
                      (map getName (EncounteredPredicates (SemaTarget E))))
            end
        end
    end.

End Run.

(** * Vocabulary of the statements *)

(** ** Selector names as the specification words them *)

(** The part of [S] before the first closing bracket. *)
Fixpoint upto_closing (S : string) : string :=
  match S with
  | EmptyString => EmptyString
  | String a S' =>
      if Ascii.eqb a ">" then EmptyString else String a (upto_closing S')
  end.

(** [S] with its first ['<'] turned into ['_'] and cut at the closing
    bracket that follows. *)
Fixpoint cut_generic (S : string) : string :=
  match S with
  | EmptyString => EmptyString
  | String a S' =>
      if Ascii.eqb a "<" then String "_" (upto_closing S')
      else String a (cut_generic S')
  end.

(** The sanitization in the words of the specification: the prefix is
    stripped, the delimiter becomes an underscore, the closing bracket and
    all that follows it are dropped. *)
Definition sanitize_spec (F : string) : Res string :=
  if startswith F "select" || startswith F "Select"
  then OK (cut_generic (drop_front 6 F))
  else Fatal "selector name lacks the prefix".

(** ** Runs of the constant pool *)

(** Uniquing the constants [Values] one after the other: the indices handed
    out and the target afterwards. *)
Fixpoint internAll (Values : list Z) (T : SemanticsTarget)
    : list Z * SemanticsTarget :=
  match Values with
  | [] => ([], T)
  | V :: Values' =>
      let '(Idx, T1) := internConstant V T in
      let '(Idxs, T2) := internAll Values' T1 in
      (Idx :: Idxs, T2)
  end.

(** The distinct keys of [Keys] in the order of their first occurrence,
    after those of [Seen]. *)
Fixpoint firstSeen (Seen Keys : list Z) : list Z :=
  match Keys with
  | [] => Seen
  | K :: Keys' =>
      if bool_decide (K ∈ Seen) then firstSeen Seen Keys'
      else firstSeen (Seen ++ [K]) Keys'
  end.

(** The pool of [T] holds exactly the keys [D]; the key at position [i] has
    index [i + 1]. *)
Definition pool_rep (T : SemanticsTarget) (D : list Z) : Prop :=
  CurConstantIdx T = Z.of_nat (length D) /\ NoDup D /\
  forall k idx, ConstantIdx T !! k = Some idx <->
                exists i : nat, D !! i = Some k /\ idx = Z.of_nat i + 1.

(** [idx] is the one-based position of the constant [v] in [D]. *)
Definition nth_index (D : list Z) (v idx : Z) : Prop :=
  exists i : nat, D !! i = Some (wrap64 v) /\ idx = Z.of_nat i + 1.

(** The operation a constant leaf emits when its constant has index [Idx]
    in the pool. *)
Definition GET_CONSTANT_node (TPN : TreePatternNode) (Ty : SimpleValueType)
    (Idx : Z) : LSNode :=
  mkLSNode TPN "DCINS::GET_CONSTANT" [Ty] [IndexOp (wrap64 (Idx - 1))].

(** ** Example data *)

Definition CP_example : Record :=
  mkRecord "addr" ["ComplexPattern"%string] None.

Definition CGP_example (F : string) : CodeGenDAGPatterns :=
  mkCGP (fun _ => F) (fun R => mkSDNodeInfo ("ISD::" +:+ getName R) 1).

Definition CGI_example : CodeGenInstruction :=
  mkCGI (mkRecord "INST" ["Instruction"%string] None) "X86" [] [] false.

Definition Target_example : SemanticsTarget :=
  SemanticsTarget_ (CGP_example "SelectAddr") [].

(** ** Invariants of the linearization *)

(** [m] keeps [P]: whenever [m] runs to completion from a state where [P]
    holds, [P] holds afterwards. *)
Definition preserves {A} (P : LinearSemantics -> Prop) (m : M A) : Prop :=
  forall st a st', P st -> m st = OK (a, st') -> P st'.

(** A node on which [flattenSDNode] raises [HasComplexPattern]. *)
Definition raisesComplexPattern (TPN : TreePatternNode) : bool :=
  match TPN with
  | LeafNode _ _ _ => false
  | OpNode _ _ Operator _ _ _ CI =>
      negb (isSubClassOf Operator "ComplexPattern") && CI
  end.

(** No node of the tree raises [HasComplexPattern]. *)
Fixpoint noComplexPatternUse (TPN : TreePatternNode) : bool :=
  negb (raisesComplexPattern TPN) &&
  match TPN with
  | LeafNode _ _ _ => true
  | OpNode _ _ _ _ Cs _ _ => forallb noComplexPatternUse Cs
  end.

(** [P] is kept by every elementary update the linearization makes, except
    possibly raising [HasComplexPattern]. *)
Record Stable (P : LinearSemantics -> Prop) : Prop := mkStable {
  stable_add : forall NS st, P st -> P (addSemantics_st NS st);
  stable_intrinsic : forall st, P st -> P (with_Sema (set_HasIntrinsic true) st);
  stable_nocp : forall st, P st -> P (with_Sema (set_HasComplexPattern false) st);
  stable_impdef : forall R st, P st -> P (with_Sema (push_ImplicitDef R) st);
  stable_expdef : forall R st, P st -> P (with_Sema (push_ExplicitDef R) st);
  stable_target : forall f st, P st -> P (with_Target f st);
  stable_memo : forall k st,
    OperandByName st !! k = None -> P st ->
    P (set_OperandByName (<[k := CurDefNo st]> (OperandByName st)) st)
}.

(** Raising [HasComplexPattern] is harmless for [P], or the tree never
    does it. *)
Definition cp_ok (P : LinearSemantics -> Prop) (TPN : TreePatternNode)
    : Prop :=
  (forall st, P st -> P (with_Sema (set_HasComplexPattern true) st)) \/
  noComplexPatternUse TPN = true.


(** ** Accepted programs *)

(** The operation defines at least one value. *)
Definition producesResult (NS : LSNode) : Prop :=
  exists Ty, Ty ∈ NodeTypes NS /\ Ty <> isVoid.

(** What the output promises of the semantics of an instruction. *)
Definition acceptable (I : InstSemantics) : Prop :=
  HasIntrinsic I = false /\ HasComplexPattern I = false /\
  (length (ImplicitDefs I) <= 1)%nat /\
  (ImplicitDefs I <> [] -> exists NS, NS ∈ Semantics I /\ producesResult NS).

(** [LastDefNo] is set only when an operation defined a value, and every
    operation that defines a value sets it unless the counter came back to
    where it was. *)
Definition lastDef_inv (st : LinearSemantics) : Prop :=
  LastDefNo (Sema st) <> NoIdx ->
  exists NS, NS ∈ Semantics (Sema st) /\ producesResult NS.

(** The walk of [parseInstSemantics] over the pattern of an instruction. *)
Definition linearize (CGI : CodeGenInstruction) (TP : TreePattern)
    (T : SemanticsTarget) : Res (unit * LinearSemantics) :=
  (let* _ := flattenTrees CGI TP in computeImplicitDefs CGI)
    (LinearSemantics_ T (set_Pattern TP InstSemantics_)).

(** ** An example instruction: [(set GPR:$dst, (add GPR:$a, GPR:$b))] *)

Definition GPR : Record := mkRecord "GPR" ["RegisterClass"%string] None.
Definition add_node : Record := mkRecord "add" ["SDNode"%string] None.
Definition set_node : Record := mkRecord "set" [] None.

Definition CGI_ADD : CodeGenInstruction :=
  mkCGI (mkRecord "ADD" ["Instruction"%string] None) "X86"
    [mkOperandInfo GPR "dst" "OPERAND_REGISTER" 0;
     mkOperandInfo GPR "a" "OPERAND_REGISTER" 1;
     mkOperandInfo GPR "b" "OPERAND_REGISTER" 2] [] false.

Definition ADD_pattern : TreePattern :=
  [OpNode [] "" set_node []
     [LeafNode [i32] "dst" (DefInit GPR);
      OpNode [i32] "" add_node []
        [LeafNode [i32] "a" (DefInit GPR); LeafNode [i32] "b" (DefInit GPR)]
        false false]
     false false].

(** ** Operand reads *)




(** The name [OpInfo] is memoized with value number [n]. *)
Definition memoized (OpInfo : OperandInfo) (n : Z) (st : LinearSemantics)
    : Prop :=
  OperandByName st !! OpName OpInfo = Some n.

(** An example: an instruction with a custom operand [$imm]. *)
Definition i32imm : Record := mkRecord "i32imm" ["Operand"%string] None.
Definition imm_info : OperandInfo :=
  mkOperandInfo i32imm "imm" "OPERAND_MEMORY" 3.
Definition CGI_IMM : CodeGenInstruction :=
  mkCGI (mkRecord "LEA" ["Instruction"%string] None) "X86" [imm_info] []
    false.



(** ** The targets of a "set" *)

(** [Child] is a leaf naming the explicit register [R]. *)
Definition isRegisterLeaf (Child : TreePatternNode) (R : Record) : Prop :=
  getLeafDef Child = OK R /\ isSubClassOf R "Register" = true.

(** The record a target of a "set" stands for: the definition the leaf
    names or, when that is a [RegisterOperand], its register class. *)
Definition targetRecord (Child : TreePatternNode) (R : Record) : Prop :=
  exists R0, getLeafDef Child = OK R0 /\
    if isSubClassOf R0 "RegisterOperand"
    then getValueAsDef_RegClass R0 = OK R else R = R0.

(** A write: the operation and the registers it adds to the explicit
    defs. *)
Definition Write : Type := LSNode * list Record.

(** [W] is the write of the value [Res] to the target [Child] of the "set"
    node [TPN].  A target that stands for a register class is an operand of
    the instruction, found by the name of the target, and is written by a
    [PUT_RC] on the index of the operand; no explicit def is recorded.  A
    target that stands for a register is written by a [PUT_REG] on the name
    of that register, which becomes an explicit def. *)
Definition isWrite (CGI : CodeGenInstruction) (TPN Child : TreePatternNode)
    (Res : LSResult) (W : Write) : Prop :=
  exists R, targetRecord Child R /\
    ((isSubClassOf R "RegisterClass" = true /\
      exists OpInfo,
        getNamedOperand CGI (getNodeName Child) = Some OpInfo /\
        W = (mkLSNode TPN "DCINS::PUT_RC" (getExtTypes TPN)
               [IndexOp (MIOperandNo OpInfo); ValueOp (DefNo Res)], [])) \/
     (isSubClassOf R "RegisterClass" = false /\
      isSubClassOf R "Register" = true /\
      W = (mkLSNode TPN "DCINS::PUT_REG" (getExtTypes TPN)
             [NameOp (Namespace CGI +:+ "::" +:+ getName R);
              ValueOp (DefNo Res)], [R]))).

(** The state after a write, and after a list of writes. *)
Definition write_st (W : Write) (st : LinearSemantics) : LinearSemantics :=
  addSemantics_st (fst W)
    (foldl (fun s R => with_Sema (push_ExplicitDef R) s) st (snd W)).

Definition do_writes (Ws : list Write) (st : LinearSemantics)
    : LinearSemantics :=
  foldl (fun s W => write_st W s) st Ws.

(** The implicit defs [Rs] are appended, nothing else changes. *)
Definition add_ImplicitDefs (Rs : list Record) (st : LinearSemantics)
    : LinearSemantics :=
  with_Sema (fun I => set_ImplicitDefs (ImplicitDefs I ++ Rs) I) st.

(** An example: [(set EAX, EFLAGS, (X86add_flag GPR:$a, GPR:$b))], where
    [X86add_flag] defines two values and is equivalent to [add], which
    defines one. *)
Definition EAX : Record := mkRecord "EAX" ["Register"%string] None.
Definition EFLAGS : Record := mkRecord "EFLAGS" ["Register"%string] None.
Definition X86add_flag : Record :=
  mkRecord "X86add_flag" ["SDNode"%string] None.

Definition CGI_ADDF : CodeGenInstruction :=
  mkCGI (mkRecord "ADD32rr" ["Instruction"%string] None) "X86"
    [mkOperandInfo GPR "a" "OPERAND_REGISTER" 1;
     mkOperandInfo GPR "b" "OPERAND_REGISTER" 2] [] false.

Definition ADDF_value : TreePatternNode :=
  OpNode [i32; i32] "" X86add_flag []
    [LeafNode [i32] "a" (DefInit GPR); LeafNode [i32] "b" (DefInit GPR)]
    false false.

Definition ADDF_targets : list TreePatternNode :=
  [LeafNode [i32] "" (DefInit EAX); LeafNode [i32] "" (DefInit EFLAGS)].

Definition ADDF_set : TreePatternNode :=
  OpNode [] "" set_node [] (ADDF_targets ++ [ADDF_value]) false false.

Definition Target_ADDF : SemanticsTarget :=
  SemanticsTarget_ (CGP_example "SelectAddr") [(X86add_flag, add_node)].

(** ** Value numbers *)

(** The numbers the counter of [addSemantics] gives to the values of an
    operation with result types [Tys], starting from [Cur]: one per
    non-void type. *)
Fixpoint assignedNumbers (Tys : list SimpleValueType) (Cur : Z) : list Z :=
  match Tys with
  | [] => []
  | Ty :: Tys' =>
      if VT_eqb Ty isVoid then assignedNumbers Tys' Cur
      else Cur :: assignedNumbers Tys' (wrap32 (Cur + 1))
  end.

(** The number of values an operation defines. *)
Definition numDefs (NS : LSNode) : Z :=
  Z.of_nat (length (assignedNumbers (NodeTypes NS) 0)).

(** Every value operand of [NS] is below [Bound]. *)
Definition valueOpsBelow (Bound : Z) (NS : LSNode) : bool :=
  forallb (fun Op => match Op with
                     | ValueOp n => n <? Bound
                     | _ => true
                     end) (NodeOperands NS).

(** Every value operand of every operation of [Prog] names a value defined
    by an operation before it; [Defined] values exist at the start. *)
Fixpoint refsEarlier (Prog : list LSNode) (Defined : Z) : bool :=
  match Prog with
  | [] => true
  | NS :: Prog' =>
      valueOpsBelow Defined NS && refsEarlier Prog' (Defined + numDefs NS)
  end.

(** Examples: an operation whose first result type is void, and a
    top-level operation using it. *)
Definition probe_node : Record := mkRecord "probe" ["SDNode"%string] None.
Definition store_node : Record := mkRecord "store" ["SDNode"%string] None.

Definition void_then_value : TreePatternNode :=
  OpNode [isVoid; i32] "" probe_node [] [] false false.

Definition store_of_probe : TreePatternNode :=
  OpNode [] "" store_node [] [void_then_value] false false.

(** A complex-pattern matcher over an operation that carries a
    complex-pattern annotation. *)
Definition matcher_over_annotated : TreePatternNode :=
  OpNode [i32] "" CP_example []
    [OpNode [i32] "" add_node [] [] false true] false false.

(** A complex-pattern matcher that carries an intrinsic annotation, over a
    register operand. *)
Definition matcher_with_intrinsic : TreePatternNode :=
  OpNode [i32] "" CP_example [] [LeafNode [i32] "a" (DefInit GPR)] true false.

(** ** Programs as the generated table shows them *)

(** The opcode, the result types and the printed operands of every
    operation. *)
Definition listing (I : InstSemantics)
    : list (string * list SimpleValueType * list string) :=
  map (fun NS => (Opcode NS, NodeTypes NS, printed_operands NS))
    (Semantics I).

(** The semantics [linearize] computes, when it succeeds. *)
Definition linearized (CGI : CodeGenInstruction) (TP : TreePattern)
    (T : SemanticsTarget) : option InstSemantics :=
  match linearize CGI TP T with
  | OK (_, Flat) => Some (Sema Flat)
  | Fatal _ => None
  end.

(** [(store $imm, $imm)] with the custom operand [$imm], and
    [(store 5, 5)]. *)
Definition store_imm_imm : TreePatternNode :=
  OpNode [] "" store_node []
    [LeafNode [i32] "imm" (DefInit i32imm);
     LeafNode [i32] "imm" (DefInit i32imm)] false false.

Definition store_5_5 : TreePatternNode :=
  OpNode [] "" store_node []
    [LeafNode [i32] "" (IntInit 5); LeafNode [i64] "" (IntInit 5)]
    false false.


(** [(store 65535, 65535)]. *)
Definition store_65535_twice : TreePatternNode :=
  OpNode [] "" store_node []
    [LeafNode [i32] "" (IntInit 65535); LeafNode [i32] "" (IntInit 65535)]
    false false.

(** The pool of a run that has uniqued the constants 0 .. 65534. *)
Definition full_pool : SemanticsTarget :=
  snd (internAll (seqZ 0 65535) Target_example).

(** ** Programs whose value numbers are in order *)

(** The number of values the operations of [Prog] define. *)
Definition totalDefs (Prog : list LSNode) : Z :=
  foldr (fun NS n => numDefs NS + n) 0 Prog.

(** No result type is void. *)
Definition noVoidTypes (Tys : list SimpleValueType) : bool :=
  forallb (fun Ty => negb (VT_eqb Ty isVoid)) Tys.

(** No node of the tree has a void result type. *)
Fixpoint noVoidTree (TPN : TreePatternNode) : bool :=
  noVoidTypes (getExtTypes TPN) &&
  match TPN with
  | LeafNode _ _ _ => true
  | OpNode _ _ _ _ Cs _ _ => forallb noVoidTree Cs
  end.

(** The counter is the number of values defined so far, every value operand
    emitted so far names an earlier value, and so does every memoized
    number. *)
Definition numbered (st : LinearSemantics) : Prop :=
  CurDefNo st = totalDefs (Semantics (Sema st)) /\
  refsEarlier (Semantics (Sema st)) 0 = true /\
  forall k n, OperandByName st !! k = Some n -> 0 <= n < CurDefNo st.

(** At most 256 values are defined: the numbers fit an [unsigned char]. *)
Definition bounded (st : LinearSemantics) : Prop :=
  totalDefs (Semantics (Sema st)) <= 256.

(** The results name values that are defined. *)
Definition resultsBelow (R : LSResults) (st : LinearSemantics) : Prop :=
  forall r, r ∈ R -> 0 <= DefNo r < CurDefNo st.

(** Linearizing the tree keeps the numbering, and its results name defined
    values. *)
Definition subtree_numbered (CGI : CodeGenInstruction)
    (TPN : TreePatternNode) : Prop :=
  forall st R st',
    numbered st -> flattenSubtree CGI TPN st = OK (R, st') -> bounded st' ->
    numbered st' /\ resultsBelow R st'.

(** The two states agree on what the numbering looks at. *)
Definition sameNumbering (st st' : LinearSemantics) : Prop :=
  CurDefNo st' = CurDefNo st /\
  Semantics (Sema st') = Semantics (Sema st) /\
  OperandByName st' = OperandByName st.

(** No node of any tree of the pattern has a void result type. *)
Definition noVoidPattern (TP : TreePattern) : bool := forallb noVoidTree TP.

(** A semantics that defines at most 256 values names, in every value
    operand, a value that an earlier operation defined. *)
Definition inOrder (S : InstSemantics) : Prop :=
  totalDefs (Semantics S) <= 256 -> refsEarlier (Semantics S) 0 = true.

(** The results [R] are the values of the last operation of the program:
    they carry its types and the numbers the counter gave them. *)
Definition recordsAssigned (R : LSResults) (st : LinearSemantics) : Prop :=
  exists Prog NS,
    Semantics (Sema st) = Prog ++ [NS] /\
    map VT R = NodeTypes NS /\
    map DefNo R = assignedNumbers (NodeTypes NS) (totalDefs Prog).

(** The value of the example pattern: [(add GPR:$a, GPR:$b)]. *)
Definition ADD_value : TreePatternNode :=
  OpNode [i32] "" add_node []
    [LeafNode [i32] "a" (DefInit GPR); LeafNode [i32] "b" (DefInit GPR)]
    false false.

(** ** Implicit definitions *)

(** The registers of a list of records. *)
Definition regsOf (Rs : list Record) : list string := map getReg Rs.


(** ** What a walk leaves in place *)

(** No operation of the semantics has an [Untyped] result. *)
Definition noUntyped (S : InstSemantics) : Prop :=
  Forall (fun NS => Untyped ∉ NodeTypes NS) (Semantics S).

(** The state [st] continues [st0]: the operations, the explicit and the
    implicit definitions of [st0] are the first ones of [st], every memoized
    operand is still memoized with its number, and [HasIntrinsic] was not
    cleared. *)
Definition extends (st0 st : LinearSemantics) : Prop :=
  Semantics (Sema st0) `prefix_of` Semantics (Sema st) /\
  ExplicitDefs (Sema st0) `prefix_of` ExplicitDefs (Sema st) /\
  ImplicitDefs (Sema st0) `prefix_of` ImplicitDefs (Sema st) /\
  OperandByName st0 ⊆ OperandByName st /\
  (HasIntrinsic (Sema st0) = true -> HasIntrinsic (Sema st) = true).

(** ** The last defining operation *)

(** The last operation of [Prog] that defines a value, as its index and the
    number of values defined before it; [i] and [d] are the index of the
    first operation of [Prog] and the number of values defined before it,
    [acc] the answer for the operations before [Prog]. *)
Fixpoint lastDefFrom (Prog : list LSNode) (i d : Z) (acc : option (Z * Z))
    : option (Z * Z) :=
  match Prog with
  | [] => acc
  | NS :: Prog' =>
      lastDefFrom Prog' (i + 1) (d + numDefs NS)
        (if 0 <? numDefs NS then Some (i, d) else acc)
  end.

(** [LastDefSemaIdx] and [LastDefNo] name the last operation that defines a
    value and its first value; both are [~0U] when there is none. *)
Definition lastDef_recorded (S : InstSemantics) : Prop :=
  match lastDefFrom (Semantics S) 0 0 None with
  | Some (i, d) => LastDefSemaIdx S = i /\ LastDefNo S = d
  | None => LastDefSemaIdx S = NoIdx /\ LastDefNo S = NoIdx
  end.

(** The tables of the semantics are small enough for [unsigned]. *)
Definition fitsUnsigned (S : InstSemantics) : Prop :=
  Z.of_nat (length (Semantics S)) < 2 ^ 32 /\
  totalDefs (Semantics S) < 2 ^ 32.

(** ** The operation of a node *)

(** [NS] is an operation for the node [N] with [Children] children: its
    result types are the first result types of the node, and its operands are
    at most one name followed by one value per child. *)
Definition operationOf (N : TreePatternNode) (NS : LSNode) : Prop :=
  TPN NS = N /\
  NodeTypes NS `prefix_of` getExtTypes N /\
  exists Head Fronts,
    NodeOperands NS = Head ++ map ValueOp Fronts /\
    length Fronts = length (getChildren N) /\
    (length Head <= 1)%nat /\
    Forall (fun Op => match Op with NameOp _ => True | _ => False end) Head.

(** ** Invariants of the target *)

(** The constant pool is in order, or it holds more constants than an index
    can number. *)
Definition pool_inv (T : SemanticsTarget) : Prop :=
  (exists D, pool_rep T D) \/ 65536 <= Z.of_nat (size (ConstantIdx T)).

(** The predicates seen so far are those of [V0] followed by others, each
    once. *)
Definition predicates_inv (V0 : list Record) (T : SemanticsTarget) : Prop :=
  V0 `prefix_of` EncounteredPredicates T /\
  NoDup (map getName (EncounteredPredicates T)).


(** [(store<<P:isTrunc>> 5)], a top-level operation with a predicate. *)
Definition isTrunc : Record := mkRecord "isTrunc" ["PatFrag"%string] None.

Definition store_if_trunc : TreePatternNode :=
  OpNode [] "" store_node [isTrunc] [LeafNode [i32] "" (IntInit 5)]
    false false.

(** ** The layout of the semantics table *)

(** The elements of [InstSemantics[]] that describe one instruction. *)
Definition semaElements (TGName : string)
    (VT_getEnumName : SimpleValueType -> string) (Sema : InstSemantics)
    : list string :=
  concat (map (emitNode VT_getEnumName) (Semantics Sema)) ++
  match ImplicitDefs Sema with
  | [] => []
  | R :: _ => ["DCINS::IMPLICIT"%string; "0"%string;
               TGName +:+ "::" +:+ getReg R]
  end ++ [END_OF_INSTRUCTION].

(** Every index of [InstIdx] that is not [~0U] is one of [InstSemas]. *)
Definition indices_valid (E : SemanticsEmitter) : Prop :=
  forall (i : nat) k, InstIdx E !! i = Some k ->
    k = NoIdx \/ 0 <= k < Z.of_nat (length (InstSemas E)).


(** No index is shared by two instructions. *)
Definition indices_distinct (E : SemanticsEmitter) : Prop :=
  forall (i j : nat) k,
    InstIdx E !! i = Some k -> InstIdx E !! j = Some k -> k <> NoIdx -> i = j.

(** What the constructor establishes for [run]. *)
Definition collected_inv (E : SemanticsEmitter) : Prop :=
  indices_valid E /\
  Forall (fun S => rejected S = false) (InstSemas E) /\
  (Z.of_nat (length (InstSemas E)) < 2 ^ 32 -> indices_distinct E).

(** The elements of the table from offset [off] on are those of [Sema],
    and the element before them ends the instruction before. *)
Definition listed (TGName : string)
    (VT_getEnumName : SimpleValueType -> string) (Table : list string)
    (off : Z) (Sema : InstSemantics) : Prop :=
  1 <= off /\
  Table !! Z.to_nat (off - 1) = Some END_OF_INSTRUCTION /\
  take (length (semaElements TGName VT_getEnumName Sema))
       (drop (Z.to_nat off) Table)
    = semaElements TGName VT_getEnumName Sema.

(** The entry of instruction [i] in the rewritten list [Idx'] is right:
    [~0U] when the instruction has no semantics, and otherwise the offset in
    [Table] where its semantics are listed. *)
Definition entry_listed (TGName : string)
    (VT_getEnumName : SimpleValueType -> string) (E : SemanticsEmitter)
    (Idx' : list Z) (Table : list string) (i : nat) : Prop :=
  match InstIdx E !! i with
  | None => True
  | Some k =>
      if k =? NoIdx then Idx' !! i = Some NoIdx
      else exists Sema off,
          InstSemas E !! Z.to_nat k = Some Sema /\
          Idx' !! i = Some off /\
          listed TGName VT_getEnumName Table off Sema
  end.

(** The state of the loop of [run] over the instructions before the one of
    enum value [a]. *)
Definition table_inv (TGName : string)
    (VT_getEnumName : SimpleValueType -> string) (E : SemanticsEmitter)
    (a : Z) (st : TableState) : Prop :=
  length (TInstIdx st) = length (InstIdx E) /\
  CurSemaOffset st = Z.of_nat (length (TableOS st)) /\
  last (TableOS st) = Some END_OF_INSTRUCTION /\
  (forall i : nat, i = 0%nat \/ a <= Z.of_nat i ->
                   TInstIdx st !! i = InstIdx E !! i) /\
  (forall i : nat, 1 <= Z.of_nat i < a ->
     entry_listed TGName VT_getEnumName E (TInstIdx st) (TableOS st) i).

(** ** An example target with two instructions *)

(** The names of some value types, as [llvm::getEnumName] gives them. *)
Definition VT_names (Ty : SimpleValueType) : string :=
  match Ty with
  | i1 => "MVT::i1" | i8 => "MVT::i8" | i16 => "MVT::i16"
  | i32 => "MVT::i32" | i64 => "MVT::i64"
  | f32 => "MVT::f32" | f64 => "MVT::f64"
  | Other => "MVT::Other" | Glue => "MVT::Glue"
  | isVoid => "MVT::isVoid" | Untyped => "MVT::Untyped" | Any => "MVT::Any"
  end.

(** An instruction without a pattern, followed by [ADD]. *)
Definition two_instructions : list InstructionEntry :=
  [mkInstructionEntry CGI_example None;
   mkInstructionEntry CGI_ADD (Some ADD_pattern)].

(** ** Equivalent nodes *)

(** The opcode of the operation of an [SDNode] node with the predicates
    [Preds] whose operator has the equivalent node [EquivNode]. *)
Definition equivOpcode (CGP : CodeGenDAGPatterns) (EquivNode : Record)
    (Preds : list Record) : string :=
  match Preds with
  | [] => getEnumName (getSDNodeInfo CGP EquivNode)
  | _ :: _ => "DCINS::PREDICATE"
  end.

(** * Properties *)

(** ** Selector names *)

Lemma append_nil (B : string) : "" +:+ B = B.
Proof. reflexivity. Qed.

Lemma append_cons a (A B : string) : String a A +:+ B = String a (A +:+ B).
Proof. reflexivity. Qed.

Lemma find_app_fresh c A B :
  find c A = None -> find c (A +:+ String c B) = Some (String.length A).
Proof.
  induction A as [|a A IH]; rewrite ?append_nil, ?append_cons; simpl.
  - intros _. now rewrite Ascii.eqb_refl.
  - destruct (Ascii.eqb a c); [discriminate|].
    destruct (find c A); [discriminate|]. intros _. now rewrite IH.
Qed.

Lemma set_at_app A x B c :
  set_at (A +:+ String x B) (String.length A) c = A +:+ String c B.
Proof.
  induction A as [|a A IH]; rewrite ?append_nil, ?append_cons; simpl;
    [reflexivity | now rewrite IH].
Qed.

Lemma pop_back_snoc S0 c : pop_back (S0 +:+ String c EmptyString) = S0.
Proof.
  induction S0 as [|a S0 IH]; rewrite ?append_nil, ?append_cons; simpl;
    [reflexivity|].
  rewrite IH. destruct S0; reflexivity.
Qed.

Lemma string_app_assoc (A B C : string) : (A +:+ B) +:+ C = A +:+ (B +:+ C).
Proof.
  induction A; rewrite ?append_nil, ?append_cons; [reflexivity | congruence].
Qed.

Lemma sanitize_stripped CP CGP Pre Rest :
  Pre = "select"%string \/ Pre = "Select"%string ->
  getSelectFunc CGP CP = Pre +:+ Rest ->
  sanitizeSelectFuncToEnumVal CP CGP =
    match find "<" Rest with
    | Some Pos => OK (pop_back (set_at Rest Pos "_"))
    | None => OK Rest
    end.
Proof.
  intros HPre HF. unfold sanitizeSelectFuncToEnumVal. rewrite HF.
  destruct HPre as [-> | ->]; reflexivity.
Qed.

(** C10, as amended: for a selector name that begins with "select" or
    "Select" the result is the name without that prefix; when the rest holds
    a ['<'], the first one becomes an underscore and the last character of
    the name, whatever it is, is dropped (so a name ending in the closing
    bracket loses exactly that bracket).  A name without the prefix stops
    the generator. *)
Theorem sanitizeSelectFunc_amended CP CGP :
  (forall Pre Rest,
      Pre = "select"%string \/ Pre = "Select"%string ->
      getSelectFunc CGP CP = Pre +:+ Rest ->
      (find "<" Rest = None -> sanitizeSelectFuncToEnumVal CP CGP = OK Rest) /\
      (forall A B, find "<" A = None -> Rest = A +:+ String "<" B ->
         sanitizeSelectFuncToEnumVal CP CGP
           = OK (pop_back (A +:+ String "_" B)) /\
         forall Mid c, B = Mid +:+ String c EmptyString ->
           sanitizeSelectFuncToEnumVal CP CGP = OK (A +:+ String "_" Mid))) /\
  (startswith (getSelectFunc CGP CP) "select" = false ->
   startswith (getSelectFunc CGP CP) "Select" = false ->
   isOK (sanitizeSelectFuncToEnumVal CP CGP) = false).
Proof.
  split.
  - intros Pre Rest HPre HF. rewrite (sanitize_stripped _ _ _ _ HPre HF).
    split; [intros ->; reflexivity|].
    intros A B HA ->. rewrite (find_app_fresh _ _ _ HA), set_at_app.
    split; [reflexivity|]. intros Mid c ->.
    change (A +:+ String "_" (Mid +:+ String c ""))
      with (A +:+ (String "_" Mid +:+ String c "")).
    now rewrite <- string_app_assoc, pop_back_snoc.
  - intros H1 H2. unfold sanitizeSelectFuncToEnumVal. now rewrite H1, H2.
Qed.

(** The selector "SelectAddrModeIndexed<8>" becomes "AddrModeIndexed_8". *)
Lemma sanitizeSelectFunc_amended_witness :
  sanitizeSelectFuncToEnumVal CP_example
    (CGP_example "SelectAddrModeIndexed<8>") = OK "AddrModeIndexed_8"%string.
Proof.
  apply (proj2 (proj2 (proj1
           (sanitizeSelectFunc_amended CP_example
              (CGP_example "SelectAddrModeIndexed<8>"))
           "Select"%string "AddrModeIndexed<8>"%string
           (or_intror eq_refl) eq_refl)
           "AddrModeIndexed"%string "8>"%string eq_refl eq_refl)
         "8"%string ">"%char eq_refl).
Defined.

(** C10 fails as stated: on "SelectAddrMode<8>::select" the closing bracket
    and most of what follows it stay, where the specification cuts the name
    at the bracket. *)
Lemma sanitize_keeps_closing_bracket :
  sanitizeSelectFuncToEnumVal CP_example (CGP_example "SelectAddrMode<8>::select")
    = OK "AddrMode_8>::selec"%string /\
  sanitize_spec "SelectAddrMode<8>::select" = OK "AddrMode_8"%string /\
  sanitizeSelectFuncToEnumVal CP_example (CGP_example "SelectAddrMode<8>::select")
    <> sanitize_spec "SelectAddrMode<8>::select".
Proof. repeat split; try reflexivity. discriminate. Qed.

(** ** The constant pool *)

Lemma pool_rep_empty T :
  ConstantIdx T = ∅ -> CurConstantIdx T = 0 -> pool_rep T [].
Proof.
  intros Hm Hc. repeat split.
  - now rewrite Hc.
  - constructor.
  - rewrite Hm, lookup_empty. discriminate.
  - intros (i & Hi & _). now rewrite lookup_nil in Hi.
Qed.

Lemma intern_seen T D v (i : nat) :
  pool_rep T D -> D !! i = Some (wrap64 v) ->
  internConstant v T = (Z.of_nat i + 1, T).
Proof.
  intros (_ & _ & Hrep) Hi. unfold internConstant.
  assert (Hl : ConstantIdx T !! wrap64 v = Some (Z.of_nat i + 1))
    by (apply Hrep; eauto).
  rewrite Hl. simpl.
  destruct (Z.eqb_spec (Z.of_nat i + 1) 0); [lia | reflexivity].
Qed.

Lemma pool_rep_absent T D k :
  pool_rep T D -> k ∉ D -> ConstantIdx T !! k = None.
Proof.
  intros (_ & _ & Hrep) Hk.
  destruct (ConstantIdx T !! k) as [idx|] eqn:E; [|reflexivity].
  apply Hrep in E as (i & Hi & _). exfalso. apply Hk.
  eapply list_elem_of_lookup_2; eauto.
Qed.

Lemma intern_fresh T D v :
  pool_rep T D -> wrap64 v ∉ D -> Z.of_nat (length D) < 65535 ->
  exists T',
    internConstant v T = (Z.of_nat (length D) + 1, T') /\
    pool_rep T' (D ++ [wrap64 v]).
Proof.
  intros HT Hk Hlen. pose proof (pool_rep_absent _ _ _ HT Hk) as Hnone.
  destruct HT as (Hcur & Hnd & Hrep).
  unfold internConstant. rewrite Hnone. simpl.
  assert (Hw : wrap16 (CurConstantIdx T + 1) = Z.of_nat (length D) + 1).
  { unfold wrap16. rewrite Hcur. apply Z.mod_small.
    change (2 ^ 16) with 65536. lia. }
  rewrite Hw. eexists; split; [reflexivity|].
  repeat split; simpl.
  - rewrite length_app. simpl. lia.
  - apply NoDup_app. repeat split; auto.
    + intros x Hx Hx'. apply list_elem_of_singleton in Hx'. now subst.
    + apply NoDup_singleton.
  - intros Hl. destruct (decide (wrap64 v = k)) as [<-|Hne].
    + rewrite lookup_insert_eq in Hl. injection Hl as <-.
      exists (length D). split; [|reflexivity].
      rewrite lookup_app_r by lia. now rewrite Nat.sub_diag.
    + rewrite lookup_insert_ne in Hl by done.
      apply Hrep in Hl as (i & Hi & ->). exists i. split; [|reflexivity].
      apply lookup_app_l_Some. exact Hi.
  - intros (i & Hi & ->). apply lookup_app_Some in Hi as [Hi | [Hge Hi]].
    + assert (wrap64 v <> k).
      { intros <-. apply Hk. eapply list_elem_of_lookup_2; eauto. }
      rewrite lookup_insert_ne by done. apply Hrep. eauto.
    + apply list_lookup_singleton_Some in Hi as [Hi <-].
      rewrite lookup_insert_eq. f_equal. lia.
Qed.

Lemma firstSeen_prefix Ks : forall D, D `prefix_of` firstSeen D Ks.
Proof.
  induction Ks as [|K Ks IH]; intros D; simpl; [reflexivity|].
  case_bool_decide; [apply IH|].
  etransitivity; [|apply IH]. now apply prefix_app_r.
Qed.

Lemma internAll_rep Vs : forall T D,
  pool_rep T D ->
  Z.of_nat (length (firstSeen D (map wrap64 Vs))) <= 65535 ->
  pool_rep (snd (internAll Vs T)) (firstSeen D (map wrap64 Vs)) /\
  Forall2 (nth_index (firstSeen D (map wrap64 Vs))) Vs (fst (internAll Vs T)).
Proof.
  induction Vs as [|v Vs IH]; intros T D HT Hlen; simpl in *.
  - split; [exact HT | constructor].
  - case_bool_decide as Hin.
    + apply list_elem_of_lookup_1 in Hin as [i Hi].
      rewrite (intern_seen _ _ _ _ HT Hi).
      destruct (IH T D HT Hlen) as [H1 H2].
      destruct (internAll Vs T) as [Idxs T2]; simpl in *.
      split; [exact H1|]. constructor; [|exact H2].
      exists i. split; [|reflexivity].
      eapply prefix_lookup_Some; [exact Hi | apply firstSeen_prefix].
    + pose proof (prefix_length _ _
                    (firstSeen_prefix (map wrap64 Vs) (D ++ [wrap64 v]))) as Hp.
      rewrite length_app in Hp. simpl in Hp.
      destruct (intern_fresh T D v HT Hin) as (T' & HT' & Hrep'); [lia|].
      rewrite HT'.
      destruct (IH T' _ Hrep' Hlen) as [H1 H2].
      destruct (internAll Vs T') as [Idxs T2]; simpl in *.
      split; [exact H1|]. constructor; [|exact H2].
      exists (length D). split; [|reflexivity].
      eapply prefix_lookup_Some; [|apply firstSeen_prefix].
      rewrite lookup_app_r by lia. now rewrite Nat.sub_diag.
Qed.

Lemma firstSeen_NoDup Ks : forall D, NoDup (D ++ Ks) -> firstSeen D Ks = D ++ Ks.
Proof.
  induction Ks as [|K Ks IH]; intros D Hnd; simpl.
  - now rewrite app_nil_r.
  - apply NoDup_app in Hnd as Hnd'. destruct Hnd' as (_ & Hdisj & _).
    case_bool_decide as Hin.
    + exfalso. apply (Hdisj K Hin). now left.
    + rewrite IH; rewrite <- app_assoc; [reflexivity | exact Hnd].
Qed.

Lemma wrap64_seqZ (n : Z) :
  n <= 2 ^ 64 -> map wrap64 (seqZ 0 n) = seqZ 0 n.
Proof.
  intros Hn. rewrite <- (map_id (seqZ 0 n)) at 2.
  apply map_ext_in. intros k Hk. apply list_elem_of_In, elem_of_seqZ in Hk.
  unfold wrap64. apply Z.mod_small. lia.
Qed.

Lemma pool_rep_seqZ T0 (n : Z) :
  ConstantIdx T0 = ∅ -> CurConstantIdx T0 = 0 -> 0 <= n <= 65535 ->
  pool_rep (snd (internAll (seqZ 0 n) T0)) (seqZ 0 n) /\
  fst (internAll (seqZ 0 n) T0) = seqZ 1 n.
Proof.
  intros Hm Hc Hn.
  pose proof (internAll_rep (seqZ 0 n) T0 [] (pool_rep_empty _ Hm Hc)) as H.
  rewrite wrap64_seqZ in H by lia.
  rewrite firstSeen_NoDup in H by apply NoDup_seqZ. simpl in H.
  destruct H as [H1 H2]; [rewrite length_seqZ; lia|]. split; [exact H1|].
  apply list_eq. intros i. pose proof (Forall2_length _ _ _ H2) as Hlen.
  rewrite length_seqZ in Hlen.
  destruct (fst (internAll (seqZ 0 n) T0) !! i) as [idx|] eqn:E.
  - destruct (Forall2_lookup_r _ _ _ _ _ H2 E) as (v & Hv & j & Hj & ->).
    apply lookup_seqZ in Hv as [-> Hi]. unfold wrap64 in Hj.
    rewrite Z.mod_small in Hj by lia. apply lookup_seqZ in Hj as [Hj _].
    symmetry. apply lookup_seqZ. lia.
  - symmetry. apply lookup_ge_None. rewrite length_seqZ.
    apply lookup_ge_None in E. lia.
Qed.

Section Overflow.

Variable T0 : SemanticsTarget.
Hypothesis T0_map : ConstantIdx T0 = ∅.
Hypothesis T0_cur : CurConstantIdx T0 = 0.

Let T1 := snd (internAll (seqZ 0 65535) T0).

Lemma full_pool_cur : CurConstantIdx T1 = 65535.
Proof.
  destruct (pool_rep_seqZ T0 65535 T0_map T0_cur) as [(Hc & _) _]; [lia|].
  subst T1. rewrite Hc, length_seqZ. lia.
Qed.

Lemma full_pool_lookup (k : Z) :
  0 <= k < 65535 -> ConstantIdx T1 !! k = Some (k + 1).
Proof.
  intros Hk.
  destruct (pool_rep_seqZ T0 65535 T0_map T0_cur) as [(_ & _ & Hrep) _]; [lia|].
  apply Hrep. exists (Z.to_nat k). split; [|lia].
  apply lookup_seqZ. lia.
Qed.

Lemma full_pool_absent : ConstantIdx T1 !! 65535 = None.
Proof.
  destruct (pool_rep_seqZ T0 65535 T0_map T0_cur) as [Hrep _]; [lia|].
  eapply pool_rep_absent; [exact Hrep|]. rewrite elem_of_seqZ. lia.
Qed.

Lemma intern_wraps :
  internConstant 65535 T1 =
    (0, set_Constants T1 (<[65535 := 0]> (ConstantIdx T1)) 0).
Proof.
  unfold internConstant. change (wrap64 65535) with 65535.
  rewrite full_pool_absent, full_pool_cur. reflexivity.
Qed.

Lemma intern_after_wrap :
  let T2 := snd (internConstant 65535 T1) in
  fst (internConstant 65535 T2) = 1 /\ fst (internConstant 0 T2) = 1 /\
  ConstantArray_assert T2 = false.
Proof.
  rewrite intern_wraps. cbn [fst snd]. repeat split.
  - unfold internConstant. change (wrap64 65535) with 65535.
    cbn [ConstantIdx CurConstantIdx set_Constants].
    rewrite lookup_insert_eq. reflexivity.
  - unfold internConstant. change (wrap64 0) with 0.
    cbn [ConstantIdx CurConstantIdx set_Constants].
    rewrite lookup_insert_ne by lia. rewrite full_pool_lookup by lia.
    reflexivity.
  - unfold ConstantArray_assert.
    cbn [ConstantIdx CurConstantIdx set_Constants].
    rewrite map_size_insert_None by apply full_pool_absent.
    apply Z.eqb_neq. lia.
Qed.

End Overflow.

Lemma addSemantics_Semantics NS st :
  Semantics (Sema (addSemantics_st NS st)) = Semantics (Sema st) ++ [NS].
Proof.
  unfold addSemantics_st. destruct (countDefs _ _ _) as [Cur Intr].
  destruct (negb _); reflexivity.
Qed.

Lemma addSemantics_Target NS st : Target (addSemantics_st NS st) = Target st.
Proof.
  unfold addSemantics_st. destruct (countDefs _ _ _) as [Cur Intr]. reflexivity.
Qed.

Lemma flattenLeaf_IntInit CGI Ty N v st :
  let TPN := LeafNode [Ty] N (IntInit v) in
  flattenLeaf CGI TPN (IntInit v) st =
    OK (LSResult_ (CurDefNo st) Ty,
        addSemantics_st
          (GET_CONSTANT_node TPN Ty (fst (internConstant v (Target st))))
          (with_Target (fun _ => snd (internConstant v (Target st))) st)).
Proof.
  unfold flattenLeaf, bind, soleType, get, ret, modify, addSemantics. simpl.
  destruct (internConstant v (Target st)) as [Idx T']. reflexivity.
Qed.



Lemma internAll_lookup Vs : forall T (i : nat) v,
  Vs !! i = Some v ->
  fst (internAll Vs T) !! i
    = Some (fst (internConstant v (snd (internAll (take i Vs) T)))).
Proof.
  induction Vs as [|w Vs IH]; intros T i v Hi; [now rewrite lookup_nil in Hi|].
  destruct i as [|i]; simpl in *.
  - injection Hi as ->. destruct (internConstant v T) as [Idx T1].
    destruct (internAll Vs T1). reflexivity.
  - destruct (internConstant w T) as [Idx T1].
    specialize (IH T1 i v Hi).
    destruct (internAll Vs T1) as [Idxs T2].
    destruct (internAll (take i Vs) T1) as [Idxs' T2']. exact IH.
Qed.

Lemma nth_index_inj D v w idx1 idx2 :
  NoDup D -> nth_index D v idx1 -> nth_index D w idx2 ->
  (idx1 = idx2 <-> wrap64 v = wrap64 w).
Proof.
  intros Hnd (i & Hi & ->) (j & Hj & ->). split.
  - intros E. assert (i = j) as -> by lia. congruence.
  - intros E. rewrite E in Hi.
    now rewrite (NoDup_lookup _ _ _ _ Hnd Hi Hj).
Qed.

(** Up to the limit of the index type the pool behaves as a pool: in a run
    from the empty pool that uniques at most 65535 distinct constants,
    every constant gets its one-based position in the order of first
    occurrence, so two uniquings return the same index exactly when the
    constants are the same, and two constant leaves of the same literal
    emit operations with the same operand. *)
Lemma intern_idempotent_sequential (T0 : SemanticsTarget) (Vs : list Z) :
  ConstantIdx T0 = ∅ -> CurConstantIdx T0 = 0 ->
  Z.of_nat (length (firstSeen [] (map wrap64 Vs))) <= 65535 ->
  let D := firstSeen [] (map wrap64 Vs) in
  let Idxs := fst (internAll Vs T0) in
  (NoDup D /\ Forall2 (nth_index D) Vs Idxs) /\
  (forall (i j : nat) v w idx1 idx2,
      Vs !! i = Some v -> Vs !! j = Some w ->
      Idxs !! i = Some idx1 -> Idxs !! j = Some idx2 ->
      (idx1 = idx2 <-> wrap64 v = wrap64 w)) /\
  (forall CGI (i j : nat) v Ty1 Ty2 N1 N2 st1 st2,
      Vs !! i = Some v -> Vs !! j = Some v ->
      Target st1 = snd (internAll (take i Vs) T0) ->
      Target st2 = snd (internAll (take j Vs) T0) ->
      exists idx R1 R2 st1' st2',
        nth_index D v idx /\
        flattenLeaf CGI (LeafNode [Ty1] N1 (IntInit v)) (IntInit v) st1
          = OK (R1, st1') /\
        flattenLeaf CGI (LeafNode [Ty2] N2 (IntInit v)) (IntInit v) st2
          = OK (R2, st2') /\
        Semantics (Sema st1') = Semantics (Sema st1) ++
          [GET_CONSTANT_node (LeafNode [Ty1] N1 (IntInit v)) Ty1 idx] /\
        Semantics (Sema st2') = Semantics (Sema st2) ++
          [GET_CONSTANT_node (LeafNode [Ty2] N2 (IntInit v)) Ty2 idx]).
Proof.
  intros Hm Hc Hlen D Idxs.
  destruct (internAll_rep Vs T0 [] (pool_rep_empty _ Hm Hc) Hlen)
    as [(_ & Hnd & _) HF].
  fold D in Hnd, HF. fold Idxs in HF.
  assert (Hsame : forall (i : nat) v idx,
             Vs !! i = Some v -> Idxs !! i = Some idx -> nth_index D v idx).
  { intros i v idx Hv Hidx.
    destruct (Forall2_lookup_l _ _ _ _ _ HF Hv) as (idx' & Hidx' & Hn).
    congruence. }
  split; [split; assumption|]. split.
  - intros i j v w idx1 idx2 Hv Hw H1 H2.
    eapply nth_index_inj; eauto.
  - intros CGI i j v Ty1 Ty2 N1 N2 st1 st2 Hi Hj Ht1 Ht2.
    pose proof (internAll_lookup Vs T0 i v Hi) as Li.
    pose proof (internAll_lookup Vs T0 j v Hj) as Lj.
    fold Idxs in Li, Lj. rewrite <- Ht1 in Li. rewrite <- Ht2 in Lj.
    pose proof (Hsame _ _ _ Hi Li) as Ni.
    pose proof (Hsame _ _ _ Hj Lj) as Nj.
    assert (E : fst (internConstant v (Target st2))
                = fst (internConstant v (Target st1))).
    { eapply nth_index_inj; eauto. }
    eexists _, _, _, _, _. split; [exact Ni|].
    split; [apply flattenLeaf_IntInit|].
    split; [apply flattenLeaf_IntInit|].
    rewrite !addSemantics_Semantics, E. split; reflexivity.
Qed.

(** The run 5, 7, 5 hands out the positions of 5 and 7 in [[5; 7]]. *)
Lemma intern_idempotent_sequential_witness :
  Forall2 (nth_index [5; 7]) [5; 7; 5] (fst (internAll [5; 7; 5] Target_example)).
Proof.
  apply (intern_idempotent_sequential Target_example [5; 7; 5]);
    [reflexivity | reflexivity | vm_compute; discriminate].
Defined.

Lemma intern_overflows T0 :
  ConstantIdx T0 = ∅ -> CurConstantIdx T0 = 0 ->
  let T1 := snd (internAll (seqZ 0 65535) T0) in
  let T2 := snd (internConstant 65535 T1) in
  fst (internAll (seqZ 0 65535) T0) = seqZ 1 65535 /\
  fst (internConstant 65535 T1) = 0 /\
  fst (internConstant 65535 T2) = 1 /\
  fst (internConstant 0 T2) = 1 /\
  ConstantArray_assert T2 = false.
Proof.
  intros Hm Hc T1 T2.
  pose proof (intern_wraps T0 Hm Hc) as H1.
  pose proof (intern_after_wrap T0 Hm Hc) as (H2 & H3 & H4).
  destruct (pool_rep_seqZ T0 65535 Hm Hc) as [_ H5]; [lia|].
  fold T1 in H1. cbv zeta in H2, H3, H4. fold T1 in H2, H3, H4.
  fold T2 in H2, H3, H4. rewrite H1. cbn [fst]. repeat split; assumption.
Qed.

Lemma internConstant_CGPatterns v T :
  CGPatterns (snd (internConstant v T)) = CGPatterns T /\
  SDNodeEquiv (snd (internConstant v T)) = SDNodeEquiv T.
Proof.
  unfold internConstant.
  destruct (_ =? _); split; reflexivity.
Qed.

Lemma internAll_CGPatterns Vs : forall T,
  CGPatterns (snd (internAll Vs T)) = CGPatterns T /\
  SDNodeEquiv (snd (internAll Vs T)) = SDNodeEquiv T.
Proof.
  induction Vs as [|v Vs IH]; intros T; [split; reflexivity|].
  simpl. destruct (internConstant v T) as [Idx T1] eqn:E.
  specialize (IH T1). destruct (internAll Vs T1) as [Idxs T2]. simpl in *.
  pose proof (internConstant_CGPatterns v T) as H. rewrite E in H. simpl in H.
  destruct IH as [-> ->]. exact H.
Qed.

Lemma store_literal_twice (T : SemanticsTarget) (v : Z) :
  SDNodeEquiv T !! "store"%string = None ->
  let Leaf := LeafNode [i32] "" (IntInit v) in
  let TPN := OpNode [] "" store_node [] [Leaf; Leaf] false false in
  let T2 := snd (internConstant v T) in
  exists st',
    flattenSubtree CGI_example TPN (LinearSemantics_ T InstSemantics_)
      = OK ([], st') /\
    Semantics (Sema st') =
      [GET_CONSTANT_node Leaf i32 (fst (internConstant v T));
       GET_CONSTANT_node Leaf i32 (fst (internConstant v T2));
       addOperand (addOperand
         (setOpcode (LSNode_ TPN)
            (getEnumName (getSDNodeInfo (CGPatterns T) store_node)))
         (ValueOp 0)) (ValueOp 1)] /\
    Target st' = snd (internConstant v T2).
Proof.
  intros HE Leaf TPN T2. subst T2.
  destruct (internConstant v T) as [i1 T2] eqn:E1.
  destruct (internConstant v T2) as [i2 T3] eqn:E2.
  subst TPN.
  unfold flattenSubtree, flattenSDNode_on, flattenLeaf, bind, get, ret,
    modify, lift, addSemantics, soleType, assert.
  cbn -[internConstant lookup]. rewrite HE.
  unfold bind, ret, fatal.
  cbv beta iota zeta
    delta [Target Sema CurDefNo LinearSemantics_ InstSemantics_].
  rewrite E1.
  cbv beta iota zeta
    delta [Target Sema CurDefNo LinearSemantics_ InstSemantics_].
  rewrite E2.
  cbn -[internConstant lookup].
  eexists. split; [reflexivity|]. split; reflexivity.
Qed.

(** C3: the pool does not keep its promise once the 16-bit index wraps.
    After the 65535 constants 0 .. 65534 got the indices 1 .. 65535, the
    literal 65535 used twice in [(store 65535, 65535)] is uniqued twice
    with two different indices, 0 and then 1: the two [GET_CONSTANT]
    operations of the tree carry different operands, and the pool ends
    with the index 1 for both 65535 and 0. *)
Theorem same_literal_two_indices :
  fst (internAll (seqZ 0 65535) Target_example) = seqZ 1 65535 /\
  fst (internConstant 65535 full_pool) = 0 /\
  fst (internConstant 65535 (snd (internConstant 65535 full_pool))) = 1 /\
  (exists st',
     flatten CGI_example store_65535_twice
       (LinearSemantics_ full_pool InstSemantics_) = OK (tt, st') /\
     listing (Sema st') =
       [("DCINS::GET_CONSTANT", [i32], ["18446744073709551615"]);
        ("DCINS::GET_CONSTANT", [i32], ["0"]);
        ("ISD::store", [], ["0"; "1"])]%string /\
     ConstantIdx (Target st') !! 65535 = Some 1 /\
     ConstantIdx (Target st') !! 0 = Some 1).
Proof.
  pose proof (intern_overflows Target_example eq_refl eq_refl)
    as (H0 & H1 & H2 & _). cbv zeta in H1, H2. fold full_pool in H1, H2.
  split; [exact H0|]. split; [exact H1|]. split; [exact H2|].
  destruct (internAll_CGPatterns (seqZ 0 65535) Target_example) as [HP HE].
  fold full_pool in HP, HE.
  destruct (store_literal_twice full_pool 65535) as (st' & Hrun & Hsem & HT).
  { rewrite HE. reflexivity. }
  fold store_65535_twice in Hrun.
  rewrite H1, H2, HP in Hsem.
  exists st'. split; [|split].
  - unfold flatten, store_65535_twice.
    change (flattenSDNode CGI_example ?T) with (flattenSubtree CGI_example T).
    fold store_65535_twice.
    cbn [getName store_node String.eqb Ascii.eqb Bool.eqb].
    unfold bind. rewrite Hrun. reflexivity.
  - unfold listing. rewrite Hsem. vm_compute. reflexivity.
  - rewrite HT. unfold full_pool.
    rewrite (intern_wraps Target_example eq_refl eq_refl). cbn [snd].
    unfold internConstant. change (wrap64 65535) with 65535.
    cbn [ConstantIdx CurConstantIdx set_Constants].
    rewrite lookup_insert_eq. cbn [default]. change (id 0 =? 0) with true.
    cbv iota. cbn [snd ConstantIdx set_Constants].
    change (wrap16 (0 + 1)) with 1.
    rewrite lookup_insert_eq, !lookup_insert_ne by lia.
    rewrite (full_pool_lookup Target_example eq_refl eq_refl) by lia.
    split; reflexivity.
Qed.

Lemma wrapped_index_operand TPN Ty :
  NodeOperands (GET_CONSTANT_node TPN Ty 0) = [IndexOp (2 ^ 64 - 1)].
Proof. reflexivity. Qed.

(** C4: the uniquing of constants has no overflow check.  A constant
    leaf never stops the generator, whatever the state of the pool.  After
    the 65535 constants 0 .. 65534 got the indices 1 .. 65535, the next new
    constant, 65535, gets the wrapped index 0 (its operation then carries
    the operand 2^64 - 1); read again it gets index 1, which constant 0
    already has.  Only the assertion of [run] on the size of the pool fails
    afterwards. *)
Theorem intern_overflow_unchecked CGP Equivs :
  (forall CGI Ty N v st,
      isOK (flattenLeaf CGI (LeafNode [Ty] N (IntInit v)) (IntInit v) st)
        = true) /\
  (forall TPN Ty,
      NodeOperands (GET_CONSTANT_node TPN Ty 0) = [IndexOp (2 ^ 64 - 1)]) /\
  (let T1 := snd (internAll (seqZ 0 65535) (SemanticsTarget_ CGP Equivs)) in
   let T2 := snd (internConstant 65535 T1) in
   fst (internAll (seqZ 0 65535) (SemanticsTarget_ CGP Equivs))
     = seqZ 1 65535 /\
   fst (internConstant 65535 T1) = 0 /\
   fst (internConstant 65535 T2) = 1 /\
   fst (internConstant 0 T2) = 1 /\
   ConstantArray_assert T2 = false).
Proof.
  split; [intros; now rewrite flattenLeaf_IntInit|].
  split; [exact wrapped_index_operand|].
  exact (intern_overflows (SemanticsTarget_ CGP Equivs) eq_refl eq_refl).
Qed.

(** ** Invariants of the linearization *)

Lemma TreePatternNode_nested_ind (P : TreePatternNode -> Prop) :
  (forall Tys N V, P (LeafNode Tys N V)) ->
  (forall Tys N Op Preds Cs II CI,
      Forall P Cs -> P (OpNode Tys N Op Preds Cs II CI)) ->
  forall TPN, P TPN.
Proof.
  intros HL HO. fix IH 1. intros [Tys N V | Tys N Op Preds Cs II CI].
  - apply HL.
  - apply HO. induction Cs as [|C Cs IHCs]; constructor; [apply IH | exact IHCs].
Qed.

Section Preservation.

Context {A B : Type} (P : LinearSemantics -> Prop).

Lemma preserves_ret (a : A) : preserves P (ret a).
Proof. intros st a' st' HP [= _ <-]. exact HP. Qed.

Lemma preserves_fatal msg : preserves P (@fatal A msg).
Proof. intros st a st' _ [=]. Qed.

Lemma preserves_get : preserves P get.
Proof. intros st a st' HP [= _ <-]. exact HP. Qed.

Lemma preserves_lift (r : Res A) : preserves P (lift r).
Proof. intros st a st' HP. destruct r; intros [= _ <-]. exact HP. Qed.

Lemma preserves_modify f :
  (forall st, P st -> P (f st)) -> preserves P (modify f).
Proof. intros Hf st a st' HP [= _ <-]. auto. Qed.

Lemma preserves_bind (m : M A) (k : A -> M B) :
  preserves P m -> (forall a, preserves P (k a)) -> preserves P (bind m k).
Proof.
  intros Hm Hk st b st' HP. unfold bind.
  destruct (m st) as [[a st1]|] eqn:E; [|discriminate].
  intros Hr. eapply Hk; [|exact Hr]. eapply Hm; eauto.
Qed.

End Preservation.

Lemma preserves_assert P c msg : preserves P (assert c msg).
Proof. destruct c; [apply preserves_ret | apply preserves_fatal]. Qed.

Ltac preserve :=
  repeat first
    [ apply preserves_ret | apply preserves_fatal | apply preserves_get
    | apply preserves_assert | apply preserves_lift
    | apply preserves_bind; [|intros ?]
    | match goal with
      | |- preserves _ (if ?b then _ else _) => destruct b
      | |- preserves _ (match ?x with _ => _ end) => destruct x
      end ].

Section StableInvariants.

Variable CGI : CodeGenInstruction.
Variable P : LinearSemantics -> Prop.
Hypothesis HP : Stable P.

Lemma preserves_addSemantics NS : preserves P (addSemantics NS).
Proof. apply preserves_modify. intros. now apply stable_add. Qed.

Lemma preserves_soleType NS : preserves P (soleType NS).
Proof. unfold soleType. preserve. Qed.

Lemma preserves_flattenOperand TPN OpInfo :
  preserves P (flattenOperand CGI TPN OpInfo).
Proof.
  unfold flattenOperand. apply preserves_bind; [apply preserves_soleType|].
  intros Ty0. apply preserves_bind; [preserve|]. intros OpRec.
  assert (Hfin : forall Op,
    preserves P
      (let* st := get in
       let R := LSResult_ (CurDefNo st) Ty0 in
       let Op0 := addOperand Op (IndexOp (MIOperandNo OpInfo)) in
       let* _ := addSemantics Op0 in ret R)).
  { intros Op. preserve. apply preserves_addSemantics. }
  destruct (isSubClassOf OpRec "Operand").
  - destruct (String.eqb _ _); [apply Hfin|].
    intros st R st' Hst. unfold bind at 1, get at 1.
    destruct (OperandByName st !! OpName OpInfo) eqn:E.
    + intros [= _ <-]. exact Hst.
    + unfold bind at 1, modify at 1. apply Hfin.
      now apply stable_memo.
  - destruct (isSubClassOf OpRec "RegisterClass"); [apply Hfin|].
    apply preserves_fatal.
Qed.

Lemma preserves_flattenLeaf TPN V : preserves P (flattenLeaf CGI TPN V).
Proof.
  unfold flattenLeaf. apply preserves_bind; [apply preserves_soleType|].
  intros Ty0. destruct V as [v | R |].
  - apply preserves_bind; [apply preserves_get|]. intros st.
    destruct (internConstant v (Target st)) as [Idx T'].
    preserve; try apply preserves_addSemantics.
    apply preserves_modify. intros. now apply stable_target.
  - preserve. apply preserves_addSemantics.
  - apply preserves_fatal.
Qed.

Lemma preserves_produceResults b Tys : forall i Cur,
  preserves P (produceResults b Tys i Cur).
Proof.
  induction Tys as [|Ty Tys IH]; intros i Cur; simpl; preserve.
  - apply preserves_modify. intros. now apply stable_intrinsic.
  - apply IH.
Qed.

Lemma preserves_flattenChildren (f : TreePatternNode -> M LSResults) Cs :
  Forall (fun C => preserves P (f C)) Cs ->
  forall NS, preserves P (flattenChildren f Cs NS).
Proof.
  induction 1 as [|C Cs HC _ IH]; intros NS; simpl; preserve.
  - exact HC.
  - apply IH.
Qed.

Lemma preserves_flattenSDNode_on (f : TreePatternNode -> M LSResults)
    TPN Operator Preds Cs :
  ((forall st, P st -> P (with_Sema (set_HasComplexPattern true) st)) \/
   isSubClassOf Operator "ComplexPattern" || negb (getComplexPatternInfo TPN)
     = true) ->
  Forall (fun C => preserves P (f C)) Cs ->
  preserves P (flattenSDNode_on CGI f TPN Operator Preds Cs).
Proof.
  intros Hcp Hf. unfold flattenSDNode_on.
  destruct (isSubClassOf Operator "ComplexPattern") eqn:ECP.
  - preserve; try apply preserves_addSemantics;
      try apply preserves_produceResults;
      try (apply preserves_flattenChildren; exact Hf);
      apply preserves_modify; intros;
      first [now apply stable_intrinsic | now apply stable_nocp].
  - destruct (negb (isSubClassOf Operator "SDNode")); [apply preserves_fatal|].
    apply preserves_bind;
      [preserve; apply preserves_modify; intros; now apply stable_intrinsic|].
    intros _. apply preserves_bind.
    { destruct (getComplexPatternInfo TPN) eqn:ECI; [|apply preserves_ret].
      destruct Hcp as [Hcp | Hcp]; [|discriminate].
      apply preserves_modify. exact Hcp. }
    intros _.
    preserve; try apply preserves_addSemantics;
      try apply preserves_produceResults;
      try (apply preserves_flattenChildren; exact Hf).
    apply preserves_modify. intros. now apply stable_target.
Qed.

Lemma cp_ok_node Tys N Op Preds Cs II CI :
  cp_ok P (OpNode Tys N Op Preds Cs II CI) ->
  ((forall st, P st -> P (with_Sema (set_HasComplexPattern true) st)) \/
   isSubClassOf Op "ComplexPattern" ||
     negb (getComplexPatternInfo (OpNode Tys N Op Preds Cs II CI)) = true) /\
  Forall (cp_ok P) Cs.
Proof.
  intros [H | H]; [split; [now left | apply Forall_forall; intros; now left]|].
  simpl in H. apply andb_prop in H as [H1 H2]. split.
  - right. simpl. destruct (isSubClassOf Op "ComplexPattern"), CI; done.
  - apply Forall_forall. intros C HC. right.
    rewrite forallb_forall in H2. apply H2. now apply list_elem_of_In.
Qed.

Lemma preserves_flattenSubtree TPN :
  cp_ok P TPN -> preserves P (flattenSubtree CGI TPN).
Proof.
  induction TPN as [Tys N V | Tys N Op Preds Cs II CI IH]
    using TreePatternNode_nested_ind; intros Hok.
  - simpl. destruct (getNamedOperand CGI N);
      (apply preserves_bind; [|intros; apply preserves_ret]).
    + apply preserves_flattenOperand.
    + apply preserves_flattenLeaf.
  - apply cp_ok_node in Hok as [Hnode Hcs].
    change (flattenSubtree CGI (OpNode Tys N Op Preds Cs II CI)) with
      (match getNamedOperand CGI N with
       | Some OpInfo =>
           let* R := flattenOperand CGI (OpNode Tys N Op Preds Cs II CI) OpInfo
           in ret [R]
       | None =>
           flattenSDNode_on CGI (flattenSubtree CGI)
             (OpNode Tys N Op Preds Cs II CI) Op Preds Cs
       end).
    destruct (getNamedOperand CGI N).
    + apply preserves_bind; [|intros; apply preserves_ret].
      apply preserves_flattenOperand.
    + apply preserves_flattenSDNode_on; [exact Hnode|].
      apply Forall_forall. intros C HC.
      rewrite Forall_forall in IH, Hcs. auto.
Qed.

Lemma preserves_flattenSDNode TPN :
  cp_ok P TPN -> preserves P (flattenSDNode CGI TPN).
Proof.
  destruct TPN as [Tys N V | Tys N Op Preds Cs II CI]; intros Hok;
    [apply preserves_fatal|].
  apply cp_ok_node in Hok as [Hnode Hcs].
  apply preserves_flattenSDNode_on; [exact Hnode|].
  apply Forall_forall. intros C HC. rewrite Forall_forall in Hcs.
  apply preserves_flattenSubtree. auto.
Qed.

Lemma preserves_flattenSetDef TPN CR Child i :
  preserves P (flattenSetDef CGI TPN CR Child i).
Proof.
  unfold flattenSetDef. preserve; try apply preserves_addSemantics;
    apply preserves_modify; intros;
    first [now apply stable_impdef | now apply stable_expdef].
Qed.

Lemma preserves_flattenSetDefs TPN CR Defs : forall i,
  preserves P (flattenSetDefs CGI TPN CR Defs i).
Proof.
  induction Defs as [|Child Defs IH]; intros i; simpl; [apply preserves_ret|].
  apply preserves_bind; [apply preserves_flattenSetDef | intros; apply IH].
Qed.

Lemma preserves_flattenSet TPN :
  cp_ok P TPN -> preserves P (flattenSet CGI TPN).
Proof.
  intros Hok. unfold flattenSet.
  destruct (last (getChildren TPN)) as [LastChild|] eqn:EL;
    [|apply preserves_fatal].
  apply preserves_bind; [apply preserves_assert|]. intros _.
  apply preserves_bind; [|intros; apply preserves_flattenSetDefs].
  apply preserves_flattenSubtree.
  destruct TPN as [|Tys N Op Preds Cs II CI]; [discriminate|].
  apply cp_ok_node in Hok as [_ Hcs]. rewrite Forall_forall in Hcs.
  apply Hcs. simpl in EL. apply last_Some in EL as [l' ->].
  apply elem_of_app. right. now left.
Qed.

Lemma preserves_flatten TPN : cp_ok P TPN -> preserves P (flatten CGI TPN).
Proof.
  intros Hok. unfold flatten.
  destruct TPN as [|Tys N Op Preds Cs II CI]; [apply preserves_fatal|].
  destruct (String.eqb _ _); [apply preserves_ret|].
  destruct (String.eqb _ _); [now apply preserves_flattenSet|].
  apply preserves_bind; [|intros; apply preserves_assert].
  now apply preserves_flattenSDNode.
Qed.

Lemma preserves_flattenTrees Trees :
  Forall (cp_ok P) Trees -> preserves P (flattenTrees CGI Trees).
Proof.
  induction 1 as [|TPN Trees HT _ IH]; simpl; [apply preserves_ret|].
  apply preserves_bind; [now apply preserves_flatten | intros; exact IH].
Qed.

End StableInvariants.

Lemma countDefs_changed Tys : forall Cur Intr,
  fst (countDefs Tys Cur Intr) <> Cur -> exists Ty, Ty ∈ Tys /\ Ty <> isVoid.
Proof.
  induction Tys as [|Ty Tys IH]; intros Cur Intr; simpl; [congruence|].
  unfold VT_eqb at 1. case_bool_decide as E; simpl.
  - intros H. destruct (IH _ _ H) as (Ty' & Hin & Hne).
    exists Ty'. split; [now right | exact Hne].
  - intros _. exists Ty. split; [now left | exact E].
Qed.

Lemma lastDef_inv_stable : Stable lastDef_inv.
Proof.
  split; try (intros; assumption).
  intros NS st Hst. unfold lastDef_inv, addSemantics_st.
  pose proof (countDefs_changed (NodeTypes NS) (CurDefNo st)
                (HasIntrinsic (Sema st))) as Hc.
  destruct (countDefs _ _ _) as [Cur Intr]. simpl in Hc.
  destruct (Z.eqb_spec (CurDefNo st) Cur) as [E | E]; simpl.
  - intros H. destruct (Hst H) as (NS' & Hin & Hp).
    exists NS'. split; [|exact Hp]. apply elem_of_app. now left.
  - intros _. exists NS. split; [apply elem_of_app; right; now left|].
    apply Hc. congruence.
Qed.

Lemma linearize_lastDef CGI TP T u Flat' :
  linearize CGI TP T = OK (u, Flat') -> lastDef_inv Flat'.
Proof.
  unfold linearize, bind. intros H.
  destruct (flattenTrees CGI TP _) as [[[] st1]|] eqn:E; [|discriminate].
  injection H as _ <-.
  assert (H1 : lastDef_inv st1).
  { eapply (preserves_flattenTrees CGI _ lastDef_inv_stable); [| |exact E].
    - apply Forall_forall. intros. left. intros; assumption.
    - intros Hne. now elim Hne. }
  exact H1.
Qed.

Lemma accepted_acceptable CGI TP T u Flat' :
  linearize CGI TP T = OK (u, Flat') ->
  rejected (Sema Flat') = false -> acceptable (Sema Flat').
Proof.
  intros Hl. pose proof (linearize_lastDef _ _ _ _ _ Hl) as Hinv.
  unfold rejected, acceptable, lastDef_inv in *. set (S := Sema Flat') in *.
  destruct (HasIntrinsic S), (HasComplexPattern S); simpl; try discriminate.
  destruct (Nat.ltb_spec 1 (length (ImplicitDefs S))) as [L | L]; simpl;
    [discriminate|].
  case_bool_decide as E; simpl.
  { intros _. repeat split; [lia | congruence]. }
  destruct (Z.eqb_spec (LastDefNo S) NoIdx) as [N | N]; [discriminate|].
  intros _. repeat split; [lia|]. intros _. apply Hinv. exact N.
Qed.

Lemma parseInstSemantics_cases i CGI TP E E' :
  parseInstSemantics i CGI TP E = OK E' ->
  exists Flat',
    linearize CGI TP (SemaTarget E) = OK (tt, Flat') /\
    SemaTarget E' = Target Flat' /\
    ((rejected (Sema Flat') = true /\
      InstSemas E' = InstSemas E /\ InstIdx E' = InstIdx E) \/
     (rejected (Sema Flat') = false /\
      InstSemas E' = InstSemas E ++ [Sema Flat'] /\
      InstIdx E' =
        <[i := wrap32 (Z.of_nat (length (InstSemas E)))]> (InstIdx E))).
Proof.
  unfold parseInstSemantics. fold (linearize CGI TP (SemaTarget E)).
  destruct (linearize CGI TP (SemaTarget E)) as [[[] Flat']|]; [|discriminate].
  intros H. exists Flat'. split; [reflexivity|].
  destruct (rejected (Sema Flat')); injection H as <-; simpl; auto.
Qed.

Lemma parseInstSemantics_acceptable i CGI TP E E' :
  parseInstSemantics i CGI TP E = OK E' ->
  Forall acceptable (InstSemas E) -> Forall acceptable (InstSemas E').
Proof.
  intros H HE.
  destruct (parseInstSemantics_cases _ _ _ _ _ H)
    as (Flat' & Hl & _ & [(_ & -> & _) | (Hr & -> & _)]); [exact HE|].
  apply Forall_app. split; [exact HE|]. constructor; [|constructor].
  eapply accepted_acceptable; eauto.
Qed.

Lemma ParseSemantics_acceptable CGIByEnum Instrs : forall E E',
  ParseSemantics CGIByEnum Instrs E = OK E' ->
  Forall acceptable (InstSemas E) -> Forall acceptable (InstSemas E').
Proof.
  induction Instrs as [|SD Instrs IH]; intros E E'; simpl.
  - now intros [= <-].
  - destruct (CGIByEnum !! Inst SD) as [Entry|]; [|discriminate].
    destruct (parseInstSemantics _ _ _ E) as [E1|] eqn:E1eq; [|discriminate].
    intros H HE. eapply IH; [exact H|].
    eapply parseInstSemantics_acceptable; eauto.
Qed.

Lemma parsePatterns_acceptable Entries : forall i E E',
  parsePatterns Entries i E = OK E' ->
  Forall acceptable (InstSemas E) -> Forall acceptable (InstSemas E').
Proof.
  induction Entries as [|Entry Entries IH]; intros i E E'; simpl.
  - now intros [= <-].
  - destruct (negb _); [apply IH|].
    destruct (DIPattern Entry) as [TP|]; [|apply IH].
    destruct (negb (isCodeGenOnly _)); [|apply IH].
    destruct (parseInstSemantics _ _ _ E) as [E1|] eqn:E1eq; [|discriminate].
    intros H HE. eapply IH; [exact H|].
    eapply parseInstSemantics_acceptable; eauto.
Qed.

(** C1: every semantics in the collected list uses neither an intrinsic nor
    a complex pattern, has at most one implicit def, and, when it has one,
    holds an operation that defines a value.  [parseInstSemantics] either
    appends the whole linearized semantics, or leaves the list and the index
    of the instruction untouched; the latter whenever the semantics breaks
    one of these conditions. *)
Theorem accepted_semantics_acceptable :
  (forall CGP Equivs Instrs CGIByEnum E,
      SemanticsEmitter_ CGP Equivs Instrs CGIByEnum = OK E ->
      Forall acceptable (InstSemas E)) /\
  (forall i CGI TP E E',
      parseInstSemantics i CGI TP E = OK E' ->
      exists Flat',
        linearize CGI TP (SemaTarget E) = OK (tt, Flat') /\
        ((acceptable (Sema Flat') /\
          InstSemas E' = InstSemas E ++ [Sema Flat'] /\
          InstIdx E' =
            <[i := wrap32 (Z.of_nat (length (InstSemas E)))]> (InstIdx E)) \/
         (InstSemas E' = InstSemas E /\ InstIdx E' = InstIdx E)) /\
        (~ acceptable (Sema Flat') ->
         InstSemas E' = InstSemas E /\ InstIdx E' = InstIdx E)).
Proof.
  split.
  - intros CGP Equivs Instrs CGIByEnum E. unfold SemanticsEmitter_.
    destruct (ParseSemantics _ _ _) as [E1|] eqn:H1; [|discriminate].
    intros H2. eapply parsePatterns_acceptable; [exact H2|].
    eapply ParseSemantics_acceptable; [exact H1|]. constructor.
  - intros i CGI TP E E' H.
    destruct (parseInstSemantics_cases _ _ _ _ _ H)
      as (Flat' & Hl & _ & [(Hr & H1 & H2) | (Hr & H1 & H2)]);
      exists Flat'; (split; [exact Hl|]).
    + split; [right|]; auto.
    + pose proof (accepted_acceptable _ _ _ _ _ Hl Hr) as Hacc.
      split; [left; auto | intros Hn; contradiction].
Qed.

(** The pattern [(set GPR:$dst, (add GPR:$a, GPR:$b))] is collected. *)
Lemma accepted_semantics_acceptable_witness :
  exists E,
    SemanticsEmitter_ (CGP_example "SelectAddr") [] []
      [mkInstructionEntry CGI_ADD (Some ADD_pattern)] = OK E /\
    length (InstSemas E) = 1%nat /\ Forall acceptable (InstSemas E).
Proof.
  eexists. split; [vm_compute; reflexivity|]. split; [reflexivity|].
  apply (proj1 accepted_semantics_acceptable (CGP_example "SelectAddr") [] []
           [mkInstructionEntry CGI_ADD (Some ADD_pattern)]).
  vm_compute. reflexivity.
Defined.


Lemma memoized_cp_ok OpInfo n TPN : cp_ok (memoized OpInfo n) TPN.
Proof. left. intros; assumption. Qed.

Section OperandReads.

Variable CGI : CodeGenInstruction.
Variable OpInfo : OperandInfo.
Variable TPN : TreePatternNode.
Variable Ty : SimpleValueType.
Hypothesis TPN_type : getExtTypes TPN = [Ty].


Lemma addSemantics_OperandByName NS st :
  OperandByName (addSemantics_st NS st) = OperandByName st.
Proof. unfold addSemantics_st. now destruct (countDefs _ _ _). Qed.




End OperandReads.





Section Adequacy.

Variable CGI : CodeGenInstruction.








End Adequacy.

Lemma LSResult_DefNo_small n Ty :
  0 <= n < 256 -> DefNo (LSResult_ n Ty) = n.
Proof. intros H. simpl. unfold wrap8. now apply Z.mod_small. Qed.




Lemma addSemantics_ExplicitDefs NS st :
  ExplicitDefs (Sema (addSemantics_st NS st)) = ExplicitDefs (Sema st).
Proof.
  unfold addSemantics_st. destruct (countDefs _ _ _) as [Cur Intr].
  destruct (negb _); reflexivity.
Qed.

Lemma isWrite_fun CGI TPN Child Res W W' :
  isWrite CGI TPN Child Res W -> isWrite CGI TPN Child Res W' -> W = W'.
Proof.
  intros (R & (R0 & HL & HR) & H) (R' & (R0' & HL' & HR') & H').
  rewrite HL in HL'. injection HL' as <-.
  assert (R' = R) as ->.
  { destruct (isSubClassOf R0 "RegisterOperand"); congruence. }
  destruct H as [(HC & OpInfo & HN & ->) | (HC & HG & ->)];
    destruct H' as [(HC' & OpInfo' & HN' & ->) | (HC' & HG' & ->)];
    congruence.
Qed.

Section SetTargets.

Variable CGI : CodeGenInstruction.
Variable TPN : TreePatternNode.
Variable CR : LSResults.

Lemma flattenSetDefs_app D1 D2 : forall i st,
  flattenSetDefs CGI TPN CR (D1 ++ D2) i st =
    match flattenSetDefs CGI TPN CR D1 i st with
    | OK (_, st1) => flattenSetDefs CGI TPN CR D2 (i + length D1) st1
    | Fatal msg => Fatal msg
    end.
Proof.
  induction D1 as [|C D1 IH]; intros i st; simpl.
  - now rewrite Nat.add_0_r.
  - unfold bind. destruct (flattenSetDef CGI TPN CR C i st) as [[[] st1]|];
      [|reflexivity].
    rewrite IH. now rewrite Nat.add_succ_r.
Qed.

Lemma flattenSetDef_excess Child R i st :
  (length CR <= i)%nat -> isRegisterLeaf Child R ->
  flattenSetDef CGI TPN CR Child i st = OK (tt, add_ImplicitDefs [R] st).
Proof.
  intros Hi [HL HR]. unfold flattenSetDef, bind, lift. rewrite HL.
  apply Nat.leb_le in Hi. rewrite Hi, HR. reflexivity.
Qed.

Lemma flattenSetDef_excess_bad Child i st :
  (length CR <= i)%nat -> (forall R, ~ isRegisterLeaf Child R) ->
  isOK (flattenSetDef CGI TPN CR Child i st) = false.
Proof.
  intros Hi Hbad. unfold flattenSetDef, bind, lift.
  destruct (getLeafDef Child) as [R|] eqn:HL; [|reflexivity].
  apply Nat.leb_le in Hi. rewrite Hi.
  destruct (isSubClassOf R "Register") eqn:HR; [|reflexivity].
  exfalso. apply (Hbad R). now split.
Qed.

Lemma add_ImplicitDefs_nil st : add_ImplicitDefs [] st = st.
Proof.
  destruct st as [T [Pat Sem Ex Im LI LN HI HC] O C].
  unfold add_ImplicitDefs, with_Sema, set_ImplicitDefs. simpl.
  now rewrite app_nil_r.
Qed.

Lemma add_ImplicitDefs_cons R Rs st :
  add_ImplicitDefs Rs (add_ImplicitDefs [R] st) = add_ImplicitDefs (R :: Rs) st.
Proof.
  unfold add_ImplicitDefs, with_Sema, set_ImplicitDefs. simpl.
  now rewrite <- app_assoc.
Qed.

Lemma flattenSetDefs_excess Excess Rs :
  Forall2 isRegisterLeaf Excess Rs ->
  forall i st, (length CR <= i)%nat ->
  flattenSetDefs CGI TPN CR Excess i st = OK (tt, add_ImplicitDefs Rs st).
Proof.
  induction 1 as [|Child R Excess Rs HR _ IH]; intros i st Hi; simpl.
  - now rewrite add_ImplicitDefs_nil.
  - unfold bind. rewrite (flattenSetDef_excess _ _ _ _ Hi HR).
    rewrite IH by lia. now rewrite add_ImplicitDefs_cons.
Qed.

Lemma flattenSetDefs_excess_bad E1 Rs Bad E2 :
  Forall2 isRegisterLeaf E1 Rs -> (forall R, ~ isRegisterLeaf Bad R) ->
  forall i st, (length CR <= i)%nat ->
  isOK (flattenSetDefs CGI TPN CR (E1 ++ Bad :: E2) i st) = false.
Proof.
  induction 1 as [|Child R E1 Rs HR _ IH]; intros Hbad i st Hi; simpl.
  - unfold bind.
    pose proof (flattenSetDef_excess_bad Bad i st Hi Hbad) as H.
    destruct (flattenSetDef CGI TPN CR Bad i st) as [[[] ?]|];
      [discriminate | reflexivity].
  - unfold bind. rewrite (flattenSetDef_excess _ _ _ _ Hi HR).
    apply IH; [exact Hbad | lia].
Qed.

Lemma addSemantics_ImplicitDefs NS st :
  ImplicitDefs (Sema (addSemantics_st NS st)) = ImplicitDefs (Sema st).
Proof.
  unfold addSemantics_st. destruct (countDefs _ _ _) as [Cur Intr].
  destruct (negb _); reflexivity.
Qed.

Lemma flattenSetDef_write Child Res i st st' :
  CR !! i = Some Res ->
  flattenSetDef CGI TPN CR Child i st = OK (tt, st') <->
  exists W, isWrite CGI TPN Child Res W /\ st' = write_st W st.
Proof.
  intros Hi. pose proof (lookup_lt_Some _ _ _ Hi) as Hlt.
  unfold flattenSetDef, bind, lift.
  destruct (Nat.leb_spec (length CR) i) as [Hge|_]; [lia|].
  unfold ret, modify, addSemantics, fatal. rewrite Hi. split.
  - destruct (getLeafDef Child) as [R|] eqn:HL; [|discriminate].
    destruct (isSubClassOf R "RegisterOperand") eqn:HO;
      [destruct (getValueAsDef_RegClass R) as [R'|] eqn:HV; [|discriminate]|];
      cbn beta iota;
      match goal with
      | |- context [isSubClassOf ?r "RegisterClass"] =>
          destruct (isSubClassOf r "RegisterClass") eqn:HC;
          [ destruct (getNamedOperand CGI (getNodeName Child))
              as [OpInfo|] eqn:HN; [|discriminate]
          | destruct (isSubClassOf r "Register") eqn:HR; [|discriminate] ];
          cbn beta iota; intros [= <-]; eexists; (split; [exists r; split;
            [exists R; split; [exact HL|]; rewrite HO; first [exact HV | reflexivity]|]|])
      end;
      first [ left; split; [exact HC|]; exists OpInfo; split; [exact HN|]; reflexivity
            | right; split; [exact HC|]; split; [exact HR|]; reflexivity
            | reflexivity ].
  - intros (W & (R & (R0 & HL & HR0) & H) & ->). rewrite HL.
    assert (E : (if isSubClassOf R0 "RegisterOperand"
                 then lift (getValueAsDef_RegClass R0) else ret R0) st
                = OK (R, st)).
    { destruct (isSubClassOf R0 "RegisterOperand");
        [rewrite HR0 | rewrite <- HR0]; reflexivity. }
    unfold lift, ret in E. rewrite E. cbn beta iota.
    destruct H as [(HC & OpInfo & HN & ->) | (HC & HG & ->)].
    + rewrite HC, HN. reflexivity.
    + rewrite HC, HG. reflexivity.
Qed.

Lemma flattenSetDefs_writes Normal : forall i st st',
  (i + length Normal <= length CR)%nat ->
  flattenSetDefs CGI TPN CR Normal i st = OK (tt, st') <->
  exists Ws,
    Forall2 (fun p W => isWrite CGI TPN (fst p) (snd p) W)
      (zip Normal (drop i CR)) Ws /\
    st' = do_writes Ws st.
Proof.
  induction Normal as [|Child Normal IH]; intros i st st' Hlen; simpl.
  - split.
    + intros [= <-]. exists []. split; [constructor | reflexivity].
    + intros (Ws & HF & ->). apply Forall2_nil_inv_l in HF as ->.
      reflexivity.
  - simpl in Hlen.
    destruct (lookup_lt_is_Some_2 CR i) as [Res Hi]; [lia|].
    rewrite (drop_S _ _ _ Hi). simpl. unfold bind. split.
    + destruct (flattenSetDef CGI TPN CR Child i st) as [[[] st1]|] eqn:E1;
        [|discriminate].
      intros H2.
      apply (flattenSetDef_write _ _ _ _ _ Hi) in E1 as (W & HW & ->).
      apply IH in H2 as (Ws & HF & ->); [|lia].
      exists (W :: Ws). split; [now constructor | reflexivity].
    + intros (Ws & HF & ->).
      apply Forall2_cons_inv_l in HF as (W & Ws' & HW & HF & ->).
      simpl in HW.
      rewrite (proj2 (flattenSetDef_write Child Res i st (write_st W st) Hi))
        by (exists W; split; [exact HW | reflexivity]).
      apply IH; [lia|]. exists Ws'. split; [exact HF | reflexivity].
Qed.

End SetTargets.

Lemma write_st_fields W st :
  Semantics (Sema (write_st W st)) = Semantics (Sema st) ++ [fst W] /\
  ExplicitDefs (Sema (write_st W st)) = ExplicitDefs (Sema st) ++ snd W /\
  ImplicitDefs (Sema (write_st W st)) = ImplicitDefs (Sema st).
Proof.
  unfold write_st.
  rewrite addSemantics_Semantics, addSemantics_ExplicitDefs,
    addSemantics_ImplicitDefs.
  destruct W as [NS Ex]. cbn [fst snd]. revert st.
  induction Ex as [|R Ex IH]; intros st; simpl.
  - now rewrite app_nil_r.
  - destruct (IH (with_Sema (push_ExplicitDef R) st)) as (-> & -> & ->).
    simpl. now rewrite <- app_assoc.
Qed.

Lemma do_writes_fields Ws : forall st,
  Semantics (Sema (do_writes Ws st)) = Semantics (Sema st) ++ map fst Ws /\
  ExplicitDefs (Sema (do_writes Ws st))
    = ExplicitDefs (Sema st) ++ concat (map snd Ws) /\
  ImplicitDefs (Sema (do_writes Ws st)) = ImplicitDefs (Sema st).
Proof.
  induction Ws as [|W Ws IH]; intros st; simpl.
  - now rewrite !app_nil_r.
  - destruct (IH (write_st W st)) as (-> & -> & ->).
    destruct (write_st_fields W st) as (-> & -> & ->).
    now rewrite <- !app_assoc.
Qed.

(** C8: when the value subtree of a "set" defined fewer values than there
    are targets, the first targets each get one write operation, in order,
    that consumes the result of the same index: a [PUT_RC] on the operand
    the target names when the target stands for a register class, a
    [PUT_REG] on the register the target names, which is recorded as
    explicit def, when it stands for a register; the run of the writes
    succeeds exactly when every such target has its write.  The remaining
    targets, when they all name explicit registers, are appended to the
    implicit defs and nothing else changes; when one of them does not name
    an explicit register the generator stops. *)
Theorem flattenSet_excess_targets CGI TPN Targets LastChild CR st st1 :
  getChildren TPN = Targets ++ [LastChild] ->
  Z.of_nat (length Targets) <= getNumTypes LastChild ->
  flattenSubtree CGI LastChild st = OK (CR, st1) ->
  (length CR < length Targets)%nat ->
  let Normal := take (length CR) Targets in
  let Excess := drop (length CR) Targets in
  let areWrites :=
    Forall2 (fun p W => isWrite CGI TPN (fst p) (snd p) W) (zip Normal CR) in
  (forall st2,
      flattenSetDefs CGI TPN CR Normal 0 st1 = OK (tt, st2) <->
      exists Ws, areWrites Ws /\ st2 = do_writes Ws st1) /\
  (forall Ws,
      Semantics (Sema (do_writes Ws st1))
        = Semantics (Sema st1) ++ map fst Ws /\
      ExplicitDefs (Sema (do_writes Ws st1))
        = ExplicitDefs (Sema st1) ++ concat (map snd Ws) /\
      ImplicitDefs (Sema (do_writes Ws st1)) = ImplicitDefs (Sema st1)) /\
  (forall Ws Rs,
      areWrites Ws -> Forall2 isRegisterLeaf Excess Rs ->
      flattenSet CGI TPN st
        = OK (tt, add_ImplicitDefs Rs (do_writes Ws st1))) /\
  (forall Ws E1 Rs Bad E2,
      areWrites Ws ->
      Excess = E1 ++ Bad :: E2 -> Forall2 isRegisterLeaf E1 Rs ->
      (forall R, ~ isRegisterLeaf Bad R) ->
      isOK (flattenSet CGI TPN st) = false).
Proof.
  intros HCs Hassert Hsub Hlt Normal Excess areWrites.
  assert (Hlen : length Normal = length CR).
  { subst Normal. rewrite length_take. lia. }
  assert (Hnormal : forall st2,
             flattenSetDefs CGI TPN CR Normal 0 st1 = OK (tt, st2) <->
             exists Ws, areWrites Ws /\ st2 = do_writes Ws st1).
  { intros st2. apply (flattenSetDefs_writes CGI TPN CR Normal 0 st1 st2).
    lia. }
  assert (Hset : forall Ws, areWrites Ws ->
             flattenSet CGI TPN st =
             flattenSetDefs CGI TPN CR Excess (length CR) (do_writes Ws st1)).
  { intros Ws HWs. unfold flattenSet. rewrite HCs, last_snoc. unfold bind.
    rewrite length_app. simpl. rewrite Nat.add_sub.
    apply Z.leb_le in Hassert. rewrite Hassert. cbn. rewrite Hsub.
    rewrite take_app_length.
    rewrite <- (take_drop (length CR) Targets). fold Normal Excess.
    rewrite flattenSetDefs_app.
    rewrite (proj2 (Hnormal (do_writes Ws st1)))
      by (exists Ws; split; [exact HWs | reflexivity]).
    rewrite Hlen. reflexivity. }
  split; [exact Hnormal|]. split; [intros Ws; apply do_writes_fields|]. split.
  - intros Ws Rs HWs HRs. rewrite (Hset Ws HWs).
    now apply flattenSetDefs_excess.
  - intros Ws E1 Rs Bad E2 HWs -> HE1 Hbad. rewrite (Hset Ws HWs).
    eapply flattenSetDefs_excess_bad; eauto.
Qed.

(** [(set EAX, EFLAGS, (X86add_flag GPR:$a, GPR:$b))]: one value, one
    write to [EAX], which becomes an explicit def, and [EFLAGS] as implicit
    def. *)
Lemma flattenSet_excess_targets_witness :
  let st := LinearSemantics_ Target_ADDF InstSemantics_ in
  let W : Write :=
    (mkLSNode ADDF_set "DCINS::PUT_REG" []
       [NameOp "X86::EAX"; ValueOp 2], [EAX]) in
  exists CR st1,
    flattenSubtree CGI_ADDF ADDF_value st = OK (CR, st1) /\
    length CR = 1%nat /\
    flattenSet CGI_ADDF ADDF_set st
      = OK (tt, add_ImplicitDefs [EFLAGS] (do_writes [W] st1)).
Proof.
  intros st W. eexists _, _.
  split; [vm_compute; reflexivity|]. split; [reflexivity|].
  eapply (flattenSet_excess_targets CGI_ADDF ADDF_set ADDF_targets ADDF_value).
  - reflexivity.
  - vm_compute. discriminate.
  - vm_compute. reflexivity.
  - simpl. lia.
  - repeat constructor. exists EAX. split.
    + exists EAX. split; reflexivity.
    + right. repeat split.
  - repeat constructor.
Defined.

(** C5 fails on the code: for an operation with result types
    [[isVoid; i32]] linearized from the initial state, the counter gives the
    only value the number 0, and the result handed to the parent carries the
    number 1, because the loop of [flattenSDNode] adds the index of the type,
    void types included. *)
Theorem recorded_number_counts_void :
  let st := LinearSemantics_ Target_example InstSemantics_ in
  match flattenSubtree CGI_example void_then_value st with
  | OK (R, st') =>
      map DefNo R = [1] /\
      assignedNumbers (getExtTypes void_then_value) (CurDefNo st) = [0] /\
      CurDefNo st' = 1 /\ LastDefNo (Sema st') = 0
  | Fatal _ => False
  end.
Proof. vm_compute. repeat split. Qed.

(** C6 fails on the code: the pattern [(store (probe))], where [probe] has
    the result types [[isVoid; i32]], is collected with the program
    [probe; store], and the operand of [store] is value number 1 although
    the operations before it define the single value 0. *)
Theorem forward_reference_emitted :
  let E := mkSemanticsEmitter [] [NoIdx] Target_example in
  match parseInstSemantics 0 CGI_example [store_of_probe] E with
  | OK E' =>
      InstIdx E' = [0] /\
      map (fun S => map (fun NS => (Opcode NS, NodeTypes NS, NodeOperands NS))
                      (Semantics S)) (InstSemas E')
        = [[("ISD::probe"%string, [isVoid; i32], []);
            ("ISD::store"%string, [], [ValueOp 1])]] /\
      map (fun S => map numDefs (Semantics S)) (InstSemas E') = [[1; 0]] /\
      map (fun S => refsEarlier (Semantics S) 0) (InstSemas E') = [false]
  | Fatal _ => False
  end.
Proof. vm_compute. repeat split. Qed.

Lemma hasIntrinsic_stable :
  Stable (fun st => HasIntrinsic (Sema st) = true).
Proof.
  split; try (intros; assumption); [|intros; reflexivity].
  intros NS st H. unfold addSemantics_st.
  assert (Hc : forall Tys Cur, snd (countDefs Tys Cur true) = true).
  { induction Tys as [|Ty Tys IH]; intros Cur; simpl; [reflexivity|].
    destruct (VT_eqb Ty Untyped); apply IH. }
  specialize (Hc (NodeTypes NS) (CurDefNo st)). rewrite H.
  destruct (countDefs _ _ _) as [Cur Intr]. simpl in Hc. subst Intr.
  destruct (negb _); reflexivity.
Qed.

Lemma noComplexPattern_stable :
  Stable (fun st => HasComplexPattern (Sema st) = false).
Proof.
  split; try (intros; assumption); [|intros; reflexivity].
  intros NS st H. unfold addSemantics_st.
  destruct (countDefs _ _ _) as [Cur Intr]. destruct (negb _); exact H.
Qed.

Lemma complexPattern_node_restart CGI f TPN Op Preds Cs st :
  isSubClassOf Op "ComplexPattern" = true ->
  flattenSDNode_on CGI f TPN Op Preds Cs st =
    flattenSDNode_on CGI f TPN Op Preds Cs
      (with_Sema (set_HasComplexPattern false) st) /\
  (getIntrinsicInfo TPN = true ->
   flattenSDNode_on CGI f TPN Op Preds Cs st =
     flattenSDNode_on CGI f TPN Op Preds Cs
       (with_Sema (set_HasIntrinsic true) st)).
Proof.
  intros ECP. unfold flattenSDNode_on. rewrite ECP. unfold bind, modify.
  split; [destruct (getIntrinsicInfo TPN); reflexivity|].
  intros ->. reflexivity.
Qed.

(** C2, as amended: linearizing a node whose operator is a complex-pattern
    matcher raises [HasIntrinsic] when the node carries an intrinsic
    annotation, and clears [HasComplexPattern] before the children are
    linearized; after the node the flag is false provided no operation below
    it raises it again.  The semantics of a pattern in which no ordinary
    operation carries a complex-pattern annotation never has the flag set. *)
Theorem complexPattern_node_flags :
  (forall CGI Tys N Op Preds Cs II CI st R st',
      isSubClassOf Op "ComplexPattern" = true ->
      flattenSDNode CGI (OpNode Tys N Op Preds Cs II CI) st = OK (R, st') ->
      (II = true -> HasIntrinsic (Sema st') = true) /\
      (forallb noComplexPatternUse Cs = true ->
       HasComplexPattern (Sema st') = false)) /\
  (forall CGI TP T u Flat',
      forallb noComplexPatternUse TP = true ->
      linearize CGI TP T = OK (u, Flat') ->
      HasComplexPattern (Sema Flat') = false).
Proof.
  split.
  - intros CGI Tys N Op Preds Cs II CI st R st' ECP Hrun.
    set (TPN := OpNode Tys N Op Preds Cs II CI) in *.
    change (flattenSDNode CGI TPN st)
      with (flattenSDNode_on CGI (flattenSubtree CGI) TPN Op Preds Cs st)
      in Hrun.
    destruct (complexPattern_node_restart CGI (flattenSubtree CGI) TPN Op
                Preds Cs st ECP) as [H1 H2].
    split.
    + intros ->. rewrite (H2 eq_refl) in Hrun.
      eapply (preserves_flattenSDNode_on CGI _ hasIntrinsic_stable);
        [| | |exact Hrun].
      * left. intros; assumption.
      * apply Forall_forall. intros C _.
        apply (preserves_flattenSubtree CGI _ hasIntrinsic_stable).
        left. intros; assumption.
      * reflexivity.
    + intros HCs. rewrite H1 in Hrun.
      eapply (preserves_flattenSDNode_on CGI _ noComplexPattern_stable);
        [| | |exact Hrun].
      * right. now rewrite ECP.
      * apply Forall_forall. intros C HC.
        apply (preserves_flattenSubtree CGI _ noComplexPattern_stable).
        right. rewrite forallb_forall in HCs. apply HCs.
        now apply list_elem_of_In.
      * reflexivity.
  - intros CGI TP T u Flat' HTP. unfold linearize, bind.
    destruct (flattenTrees CGI TP _) as [[[] st1]|] eqn:E; [|discriminate].
    intros [= _ <-]. simpl.
    eapply (preserves_flattenTrees CGI _ noComplexPattern_stable);
      [| |exact E]; [|reflexivity].
    apply Forall_forall. intros C HC. right.
    rewrite forallb_forall in HTP. apply HTP. now apply list_elem_of_In.
Qed.

(** C2 fails as stated: a matcher node over an operation that carries a
    complex-pattern annotation leaves [HasComplexPattern] set. *)
Lemma complexPattern_flag_raised_by_child :
  let st := LinearSemantics_ Target_example InstSemantics_ in
  match flattenSDNode CGI_example matcher_over_annotated st with
  | OK (_, st') => HasComplexPattern (Sema st') = true
  | Fatal _ => False
  end.
Proof. vm_compute. reflexivity. Qed.

(** A matcher node with an intrinsic annotation, linearized from a state
    where [HasComplexPattern] is set. *)
Lemma complexPattern_node_flags_witness :
  let st :=
    with_Sema (set_HasComplexPattern true)
      (LinearSemantics_ Target_example InstSemantics_) in
  exists R st',
    flattenSDNode CGI_ADD matcher_with_intrinsic st = OK (R, st') /\
    HasIntrinsic (Sema st') = true /\ HasComplexPattern (Sema st') = false.
Proof.
  intros st.
  destruct (flattenSDNode CGI_ADD matcher_with_intrinsic st)
    as [[R st']|] eqn:Hrun; [|vm_compute in Hrun; discriminate].
  exists R, st'. split; [reflexivity|].
  destruct (proj1 complexPattern_node_flags CGI_ADD [i32] "" CP_example []
              [LeafNode [i32] "a" (DefInit GPR)] true false st R st'
              eq_refl Hrun) as [H1 H2].
  split; [apply H1 | apply H2]; reflexivity.
Defined.

(** ** Scenarios *)

Example ADD_listing :
  listing <$> linearized CGI_ADD ADD_pattern Target_example =
  Some [("DCINS::GET_RC", [i32], ["1"]);
        ("DCINS::GET_RC", [i32], ["2"]);
        ("ISD::add", [i32], ["0"; "1"]);
        ("DCINS::PUT_RC", [], ["0"; "2"])]%string.
Proof. vm_compute. reflexivity. Qed.

Example custom_operand_read_twice :
  listing <$> linearized CGI_IMM [store_imm_imm] Target_example =
  Some [("DCINS::CUSTOM_OP", [i32], ["X86::OpTypes::i32imm"; "3"]);
        ("ISD::store", [], ["0"; "0"])]%string.
Proof. vm_compute. reflexivity. Qed.

Example constant_read_twice :
  listing <$> linearized CGI_example [store_5_5] Target_example =
  Some [("DCINS::GET_CONSTANT", [i32], ["0"]);
        ("DCINS::GET_CONSTANT", [i64], ["0"]);
        ("ISD::store", [], ["0"; "1"])]%string.
Proof. vm_compute. reflexivity. Qed.

Example ADDF_listing :
  (fun I => (listing I, map getName (ExplicitDefs I),
             map getName (ImplicitDefs I)))
    <$> linearized CGI_ADDF [ADDF_set] Target_ADDF =
  Some ([("DCINS::GET_RC", [i32], ["1"]);
         ("DCINS::GET_RC", [i32], ["2"]);
         ("ISD::add", [i32], ["0"; "1"]);
         ("DCINS::PUT_REG", [], ["X86::EAX"; "2"])],
        ["EAX"], ["EFLAGS"])%string.
Proof. vm_compute. reflexivity. Qed.

(** ** Value numbers without void types *)

Lemma numDefs_nonneg NS : 0 <= numDefs NS.
Proof. unfold numDefs. lia. Qed.

Lemma totalDefs_nonneg Prog : 0 <= totalDefs Prog.
Proof.
  induction Prog as [|NS Prog IH]; simpl; [lia|].
  pose proof (numDefs_nonneg NS). lia.
Qed.

Lemma totalDefs_app Prog NS :
  totalDefs (Prog ++ [NS]) = totalDefs Prog + numDefs NS.
Proof. induction Prog as [|NS' Prog IH]; simpl; lia. Qed.

Lemma refsEarlier_app Prog NS : forall D,
  refsEarlier (Prog ++ [NS]) D =
    refsEarlier Prog D && valueOpsBelow (D + totalDefs Prog) NS.
Proof.
  induction Prog as [|NS' Prog IH]; intros D; simpl.
  - now rewrite Z.add_0_r, andb_true_r.
  - rewrite IH, <- andb_assoc. do 3 f_equal. lia.
Qed.

Lemma assignedNumbers_noVoid Tys : forall Cur,
  noVoidTypes Tys = true ->
  length (assignedNumbers Tys Cur) = length Tys.
Proof.
  induction Tys as [|Ty Tys IH]; intros Cur; simpl; [reflexivity|].
  intros H. apply andb_prop in H as [H1 H2].
  destruct (VT_eqb Ty isVoid); [discriminate|]. simpl. now rewrite IH.
Qed.

Lemma numDefs_noVoid NS :
  noVoidTypes (NodeTypes NS) = true ->
  numDefs NS = Z.of_nat (length (NodeTypes NS)).
Proof. intros H. unfold numDefs. now rewrite assignedNumbers_noVoid. Qed.

Lemma countDefs_noVoid Tys : forall Cur Intr,
  noVoidTypes Tys = true -> 0 <= Cur ->
  Cur + Z.of_nat (length Tys) < 2 ^ 32 ->
  fst (countDefs Tys Cur Intr) = Cur + Z.of_nat (length Tys).
Proof.
  induction Tys as [|Ty Tys IH]; intros Cur Intr; simpl; [lia|].
  intros H H0 Hb. apply andb_prop in H as [H1 H2]. rewrite H1.
  unfold wrap32. rewrite Z.mod_small by lia. rewrite IH by (auto; lia). lia.
Qed.

Lemma totalDefs_add NS st :
  totalDefs (Semantics (Sema (addSemantics_st NS st)))
    = totalDefs (Semantics (Sema st)) + numDefs NS.
Proof. now rewrite addSemantics_Semantics, totalDefs_app. Qed.

Lemma valueOpsBelow_mono NS (a b : Z) :
  a <= b -> valueOpsBelow a NS = true -> valueOpsBelow b NS = true.
Proof.
  intros Hab. unfold valueOpsBelow. rewrite !forallb_forall.
  intros H Op HOp. specialize (H Op HOp). destruct Op; auto.
  apply Z.ltb_lt in H. apply Z.ltb_lt. lia.
Qed.

Lemma addSemantics_CurDefNo NS st :
  CurDefNo (addSemantics_st NS st)
    = fst (countDefs (NodeTypes NS) (CurDefNo st) (HasIntrinsic (Sema st))).
Proof. unfold addSemantics_st. now destruct (countDefs _ _ _). Qed.

Lemma addSemantics_numbered NS st :
  numbered st -> noVoidTypes (NodeTypes NS) = true ->
  valueOpsBelow (CurDefNo st) NS = true ->
  bounded (addSemantics_st NS st) ->
  numbered (addSemantics_st NS st) /\
  CurDefNo (addSemantics_st NS st)
    = CurDefNo st + Z.of_nat (length (NodeTypes NS)).
Proof.
  intros (HC & HR & HM) HV HO HB. unfold bounded in HB.
  rewrite totalDefs_add, (numDefs_noVoid _ HV) in HB.
  pose proof (totalDefs_nonneg (Semantics (Sema st))) as H0.
  assert (HCur : CurDefNo (addSemantics_st NS st)
                 = CurDefNo st + Z.of_nat (length (NodeTypes NS))).
  { rewrite addSemantics_CurDefNo. apply countDefs_noVoid; [exact HV|lia..]. }
  split; [|exact HCur]. split; [|split].
  - rewrite HCur, totalDefs_add, (numDefs_noVoid _ HV). lia.
  - rewrite addSemantics_Semantics, refsEarlier_app, HR. simpl.
    now rewrite <- HC.
  - intros k n. rewrite addSemantics_OperandByName, HCur. intros Hk.
    specialize (HM k n Hk). lia.
Qed.

(** *** Running the monad backwards *)

Lemma bind_OK {A B} (m : M A) (k : A -> M B) st b st' :
  bind m k st = OK (b, st') ->
  exists a st1, m st = OK (a, st1) /\ k a st1 = OK (b, st').
Proof.
  unfold bind. destruct (m st) as [[a st1]|]; [|discriminate]. eauto.
Qed.

Lemma ret_OK {A} (a b : A) st st' :
  ret a st = OK (b, st') -> b = a /\ st' = st.
Proof. now intros [= <- <-]. Qed.

Lemma get_OK st s st' : get st = OK (s, st') -> s = st /\ st' = st.
Proof. now intros [= <- <-]. Qed.

Lemma modify_OK f st u st' : modify f st = OK (u, st') -> st' = f st.
Proof. now intros [= <-]. Qed.

Lemma assert_OK c msg st u st' :
  assert c msg st = OK (u, st') -> c = true /\ st' = st.
Proof. destruct c; [now intros [= <-] | discriminate]. Qed.

Lemma lift_OK {A} (r : Res A) st a st' :
  lift r st = OK (a, st') -> r = OK a /\ st' = st.
Proof. destruct r; [now intros [= <- <-] | discriminate]. Qed.

Lemma addSemantics_run NS st u st' :
  addSemantics NS st = OK (u, st') -> st' = addSemantics_st NS st.
Proof. apply modify_OK. Qed.

(** Splits a successful run [H : m st = OK (r, st')] into the runs of its
    steps. *)
Ltac monad_inv H :=
  cbv beta zeta in H;
  match type of H with
  | bind _ _ _ = OK _ =>
      let a := fresh "a" in let st1 := fresh "st" in
      let H1 := fresh "Hrun" in let H2 := fresh "Hrun" in
      apply bind_OK in H as (a & st1 & H1 & H2);
      monad_inv H1; monad_inv H2
  | ret _ _ = OK _ => apply ret_OK in H as [? ?]; subst
  | get _ = OK _ => apply get_OK in H as [? ?]; subst
  | modify _ _ = OK _ => apply modify_OK in H; subst
  | assert _ _ _ = OK _ => apply assert_OK in H as [H ?]; subst
  | lift _ _ = OK _ => apply lift_OK in H as [H ?]; subst
  | addSemantics _ _ = OK _ => apply addSemantics_run in H; subst
  | fatal _ _ = OK _ => discriminate H
  | (match ?x with _ => _ end) _ = OK _ =>
      let E := fresh "Hcase" in destruct x eqn:E; monad_inv H
  | _ => idtac
  end.

(** *** The number of values only grows *)

Lemma atLeast_stable (b : Z) :
  Stable (fun st => b <= totalDefs (Semantics (Sema st))).
Proof.
  split; try (intros; assumption).
  intros NS st H. rewrite totalDefs_add. pose proof (numDefs_nonneg NS). lia.
Qed.

Lemma atLeast_cp_ok (b : Z) TPN :
  cp_ok (fun st => b <= totalDefs (Semantics (Sema st))) TPN.
Proof. left. intros; assumption. Qed.

Section Growth.

Variable CGI : CodeGenInstruction.

Lemma flattenSubtree_grows TPN st R st' :
  flattenSubtree CGI TPN st = OK (R, st') ->
  totalDefs (Semantics (Sema st)) <= totalDefs (Semantics (Sema st')).
Proof.
  intros H.
  eapply (preserves_flattenSubtree CGI _ (atLeast_stable _)
            TPN (atLeast_cp_ok _ _)); [|exact H].
  simpl. lia.
Qed.

Lemma flattenChildren_grows Cs NS st NS' st' :
  flattenChildren (flattenSubtree CGI) Cs NS st = OK (NS', st') ->
  totalDefs (Semantics (Sema st)) <= totalDefs (Semantics (Sema st')).
Proof.
  intros H.
  eapply (preserves_flattenChildren
            (fun s => totalDefs (Semantics (Sema st))
                      <= totalDefs (Semantics (Sema s))));
    [| |exact H]; [|simpl; lia].
  apply Forall_forall. intros C _.
  apply (preserves_flattenSubtree CGI _ (atLeast_stable _)).
  apply atLeast_cp_ok.
Qed.

Lemma flattenSetDefs_grows TPN CR Defs i st u st' :
  flattenSetDefs CGI TPN CR Defs i st = OK (u, st') ->
  totalDefs (Semantics (Sema st)) <= totalDefs (Semantics (Sema st')).
Proof.
  intros H.
  eapply (preserves_flattenSetDefs CGI _ (atLeast_stable _)); [|exact H].
  simpl. lia.
Qed.

Lemma flattenTrees_grows Trees st u st' :
  flattenTrees CGI Trees st = OK (u, st') ->
  totalDefs (Semantics (Sema st)) <= totalDefs (Semantics (Sema st')).
Proof.
  intros H.
  eapply (preserves_flattenTrees CGI _ (atLeast_stable _)); [| |exact H];
    [|simpl; lia].
  apply Forall_forall. intros. apply atLeast_cp_ok.
Qed.

End Growth.

Lemma numbered_small st :
  numbered st -> bounded st -> 0 <= CurDefNo st <= 256.
Proof.
  intros (HC & _) HB. unfold bounded in HB. rewrite HC.
  pose proof (totalDefs_nonneg (Semantics (Sema st))). lia.
Qed.

Lemma DefNo_small n Ty : 0 <= n < 256 -> DefNo (LSResult_ n Ty) = n.
Proof. intros H. simpl. unfold wrap8. now apply Z.mod_small. Qed.

Lemma resultsBelow_single n Ty st :
  0 <= n < CurDefNo st -> CurDefNo st <= 256 ->
  resultsBelow [LSResult_ n Ty] st.
Proof.
  intros H1 H2 r Hr. apply list_elem_of_singleton in Hr as ->.
  rewrite DefNo_small by lia. exact H1.
Qed.

(** The state after reading an operand or a leaf: one operation with one
    non-void result and no value operand was added, possibly after the
    current number was memoized. *)
Lemma read_numbered NS st0 st Ty :
  CurDefNo st0 = CurDefNo st -> Semantics (Sema st0) = Semantics (Sema st) ->
  (forall k n, OperandByName st0 !! k = Some n -> 0 <= n <= CurDefNo st) ->
  numbered st -> NodeTypes NS = [Ty] -> Ty <> isVoid ->
  valueOpsBelow (CurDefNo st) NS = true ->
  bounded (addSemantics_st NS st0) ->
  numbered (addSemantics_st NS st0) /\
  resultsBelow [LSResult_ (CurDefNo st) Ty] (addSemantics_st NS st0).
Proof.
  intros HC HS HM (HC' & HR & _) HTy HV HO HB.
  assert (HNV : noVoidTypes (NodeTypes NS) = true).
  { rewrite HTy. simpl. unfold VT_eqb. now rewrite bool_decide_eq_false_2. }
  assert (Hnum0 : CurDefNo st0 = totalDefs (Semantics (Sema st0)) /\
                  refsEarlier (Semantics (Sema st0)) 0 = true).
  { rewrite HC, HS. now split. }
  unfold bounded in HB. rewrite totalDefs_add, (numDefs_noVoid _ HNV) in HB.
  rewrite HTy, HS, <- HC' in HB. simpl in HB.
  pose proof (totalDefs_nonneg (Semantics (Sema st))) as H0.
  rewrite <- HC' in H0.
  assert (HCur : CurDefNo (addSemantics_st NS st0) = CurDefNo st + 1).
  { rewrite addSemantics_CurDefNo, countDefs_noVoid; [| exact HNV | |].
    - rewrite HTy, HC. simpl. lia.
    - lia.
    - rewrite HTy, HC. simpl. lia. }
  split; [split; [|split]|].
  - rewrite HCur, totalDefs_add, (numDefs_noVoid _ HNV), HTy, HS.
    simpl. lia.
  - rewrite addSemantics_Semantics, refsEarlier_app, HS, HR. simpl.
    now rewrite <- HC'.
  - intros k n. rewrite addSemantics_OperandByName, HCur. intros Hk.
    specialize (HM k n Hk). lia.
  - apply resultsBelow_single; rewrite HCur; lia.
Qed.

Section Numbering.

Variable CGI : CodeGenInstruction.

Lemma soleType_OK NS Ty st st' :
  soleType NS st = OK (Ty, st') -> NodeTypes NS = [Ty] /\ st' = st.
Proof.
  unfold soleType. destruct (NodeTypes NS) as [|Ty' [|]]; try discriminate.
  now intros [= <- <-].
Qed.

Lemma noVoid_single Ty : noVoidTypes [Ty] = true -> Ty <> isVoid.
Proof.
  simpl. unfold VT_eqb. case_bool_decide; [discriminate | auto].
Qed.

Lemma flattenOperand_numbered TPN OpInfo st R st' :
  noVoidTypes (getExtTypes TPN) = true -> numbered st ->
  flattenOperand CGI TPN OpInfo st = OK (R, st') -> bounded st' ->
  numbered st' /\ resultsBelow [R] st'.
Proof.
  intros HV Hnum Hrun HB. unfold flattenOperand in Hrun.
  apply bind_OK in Hrun as (Ty & st1 & Hsole & Hrun).
  apply soleType_OK in Hsole as [HTy ->]. simpl in HTy.
  rewrite HTy in HV. apply noVoid_single in HV.
  apply bind_OK in Hrun as (OpRec & st1 & Hrec & Hrun).
  assert (st1 = st) as -> by (monad_inv Hrec; reflexivity).
  clear Hrec. pose proof Hnum as (HC & HR & HM).
  assert (HM' : forall k n, OperandByName st !! k = Some n ->
                            0 <= n <= CurDefNo st).
  { intros k n Hk. specialize (HM k n Hk). lia. }
  monad_inv Hrun;
    try (apply (read_numbered _ st st Ty); auto; reflexivity).
  - split; [exact Hnum|].
    pose proof (numbered_small _ Hnum HB).
    apply resultsBelow_single; [eapply HM; eauto | lia].
  - apply (read_numbered _ _ st Ty); auto; try reflexivity.
    intros k n. simpl. destruct (decide (OpName OpInfo = k)) as [<-|Hne].
    + rewrite lookup_insert_eq. intros [= <-].
      pose proof (totalDefs_nonneg (Semantics (Sema st))). lia.
    + rewrite lookup_insert_ne by done. apply HM'.
Qed.

Lemma flattenLeaf_numbered TPN V st R st' :
  noVoidTypes (getExtTypes TPN) = true -> numbered st ->
  flattenLeaf CGI TPN V st = OK (R, st') -> bounded st' ->
  numbered st' /\ resultsBelow [R] st'.
Proof.
  intros HV Hnum Hrun HB. unfold flattenLeaf in Hrun.
  apply bind_OK in Hrun as (Ty & st1 & Hsole & Hrun).
  apply soleType_OK in Hsole as [HTy ->]. simpl in HTy.
  rewrite HTy in HV. apply noVoid_single in HV.
  pose proof Hnum as (HC & HR & HM).
  assert (HM' : forall k n, OperandByName st !! k = Some n ->
                            0 <= n <= CurDefNo st).
  { intros k n Hk. specialize (HM k n Hk). lia. }
  destruct V as [v | OpRec |]; [| |discriminate].
  - apply bind_OK in Hrun as (s & st1 & Hget & Hrun).
    apply get_OK in Hget as [-> ->]. cbv beta in Hrun.
    destruct (internConstant v (Target st)) as [Idx T'].
    monad_inv Hrun. apply (read_numbered _ _ st Ty); auto; reflexivity.
  - monad_inv Hrun. apply (read_numbered _ st st Ty); auto; reflexivity.
Qed.

Lemma sameNumbering_numbered st st' :
  sameNumbering st st' -> numbered st -> numbered st'.
Proof. intros (H1 & H2 & H3). unfold numbered. now rewrite H1, H2, H3. Qed.

Lemma produceResults_OK b Tys : forall i Cur st R st',
  noVoidTypes Tys = true ->
  produceResults b Tys i Cur st = OK (R, st') ->
  sameNumbering st st' /\
  map DefNo R
    = map (fun j => wrap8 (wrap32 (Cur + j))) (seqZ i (Z.of_nat (length Tys))).
Proof.
  induction Tys as [|Ty Tys IH]; intros i Cur st R st' HV Hrun.
  - simpl in Hrun. monad_inv Hrun. repeat split.
  - simpl in HV. apply andb_prop in HV as [HV1 HV2].
    cbn [produceResults] in Hrun. rewrite HV1 in Hrun.
    apply bind_OK in Hrun as (u & st1 & H1 & Hrun).
    apply assert_OK in H1 as [_ ->].
    apply bind_OK in Hrun as (u' & st2 & H2 & Hrun).
    apply bind_OK in Hrun as (R' & st3 & H3 & Hrun).
    apply ret_OK in Hrun as [-> ->].
    destruct (IH _ _ _ _ _ HV2 H3) as [(S1 & S2 & S3) HR].
    assert (HS : sameNumbering st st2).
    { destruct (b && VT_eqb Ty Untyped); monad_inv H2; repeat split. }
    destruct HS as (S1' & S2' & S3'). split.
    + repeat split; congruence.
    + cbn [length]. rewrite Nat2Z.inj_succ, seqZ_cons by lia.
      cbn [map]. rewrite HR.
      do 3 f_equal; lia.
Qed.

Lemma produceResults_VT b Tys : forall i Cur st R st',
  noVoidTypes Tys = true ->
  produceResults b Tys i Cur st = OK (R, st') -> map VT R = Tys.
Proof.
  induction Tys as [|Ty Tys IH]; intros i Cur st R st' HV Hrun.
  - simpl in Hrun. now monad_inv Hrun.
  - simpl in HV. apply andb_prop in HV as [HV1 HV2].
    cbn [produceResults] in Hrun. rewrite HV1 in Hrun.
    apply bind_OK in Hrun as (u & st1 & H1 & Hrun).
    apply bind_OK in Hrun as (u' & st2 & H2 & Hrun).
    apply bind_OK in Hrun as (R' & st3 & H3 & Hrun).
    apply ret_OK in Hrun as [-> ->]. simpl. f_equal. eapply IH; eauto.
Qed.

Lemma assignedNumbers_wrap Tys Cur : forall i,
  noVoidTypes Tys = true -> 0 <= Cur -> 0 <= i ->
  Cur + i + Z.of_nat (length Tys) <= 256 ->
  map (fun j => wrap8 (wrap32 (Cur + j))) (seqZ i (Z.of_nat (length Tys)))
    = assignedNumbers Tys (Cur + i).
Proof.
  induction Tys as [|Ty Tys IH]; intros i HV HC Hi Hle; [reflexivity|].
  simpl in HV. apply andb_prop in HV as [HV1 HV2].
  cbn [length] in *. rewrite Nat2Z.inj_succ in *. rewrite seqZ_cons by lia.
  cbn [map assignedNumbers].
  destruct (VT_eqb Ty isVoid); [discriminate|].
  rewrite Z.pred_succ, IH by (auto; lia).
  unfold wrap8, wrap32. rewrite !(Z.mod_small (Cur + i)) by lia.
  rewrite (Z.mod_small (Cur + i + 1)) by lia.
  f_equal. f_equal. lia.
Qed.

Lemma valueOpsBelow_addOperand B NS Op :
  valueOpsBelow B (addOperand NS Op) =
    valueOpsBelow B NS &&
    match Op with ValueOp n => n <? B | _ => true end.
Proof.
  unfold valueOpsBelow. simpl. rewrite forallb_app. simpl.
  now rewrite andb_true_r.
Qed.

Lemma flattenChildren_numbered Cs :
  Forall (subtree_numbered CGI) Cs ->
  forall NS st NS' st',
    numbered st -> valueOpsBelow (CurDefNo st) NS = true ->
    flattenChildren (flattenSubtree CGI) Cs NS st = OK (NS', st') ->
    bounded st' ->
    numbered st' /\ valueOpsBelow (CurDefNo st') NS' = true /\
    NodeTypes NS' = NodeTypes NS.
Proof.
  induction 1 as [|C Cs HC _ IH]; intros NS st NS' st' Hnum HO Hrun HB.
  - simpl in Hrun. monad_inv Hrun. auto.
  - cbn [flattenChildren] in Hrun.
    apply bind_OK in Hrun as (ChildRes & st1 & H1 & Hrun). cbv beta in Hrun.
    destruct ChildRes as [|Front Rest]; [discriminate|].
    assert (HB1 : bounded st1).
    { pose proof (flattenChildren_grows CGI _ _ _ _ _ Hrun). unfold bounded in *.
      lia. }
    destruct (HC _ _ _ Hnum H1 HB1) as [Hnum1 HR1].
    assert (Hle : CurDefNo st <= CurDefNo st1).
    { destruct Hnum as (-> & _), Hnum1 as (-> & _).
      eapply flattenSubtree_grows; eauto. }
    assert (HO1 : valueOpsBelow (CurDefNo st1)
                    (addOperand NS (ValueOp (DefNo Front))) = true).
    { rewrite valueOpsBelow_addOperand.
      rewrite (valueOpsBelow_mono _ _ _ Hle HO). simpl.
      apply Z.ltb_lt. apply HR1. now left. }
    destruct (IH _ _ _ _ Hnum1 HO1 Hrun HB) as (IH1 & IH2 & IH3). auto.
Qed.

Lemma noVoidTypes_take n Tys :
  noVoidTypes Tys = true -> noVoidTypes (take n Tys) = true.
Proof.
  unfold noVoidTypes. revert n. induction Tys as [|Ty Tys IH]; intros [|n] H;
    simpl in *; try reflexivity.
  apply andb_true_iff in H as [H1 H2]. rewrite H1. simpl. apply IH, H2.
Qed.

Lemma flattenChildren_NodeTypes {f} Cs : forall NS st NS' st',
  flattenChildren f Cs NS st = OK (NS', st') -> NodeTypes NS' = NodeTypes NS.
Proof.
  induction Cs as [|C Cs IH]; intros NS st NS' st' Hch; simpl in Hch.
  - now monad_inv Hch.
  - apply bind_OK in Hch as (CR & st1 & _ & Hch). cbv beta in Hch.
    destruct CR; [discriminate|]. now rewrite (IH _ _ _ _ Hch).
Qed.

(** The end of [flattenSDNode], common to its two branches: the children,
    the results, the operation itself. *)
Lemma node_tail_results b Cs NS0 st0 R st' :
  Forall (subtree_numbered CGI) Cs -> numbered st0 ->
  valueOpsBelow (CurDefNo st0) NS0 = true ->
  noVoidTypes (NodeTypes NS0) = true ->
  (let* NS := flattenChildren (flattenSubtree CGI) Cs NS0 in
   let* st := get in
   let* R := produceResults b (NodeTypes NS) 0 (CurDefNo st) in
   let* _ := addSemantics NS in ret R) st0 = OK (R, st') ->
  bounded st' ->
  numbered st' /\ resultsBelow R st' /\ recordsAssigned R st'.
Proof.
  intros HCs Hnum HO HV Hrun HB.
  apply bind_OK in Hrun as (NS & st1 & Hch & Hrun).
  apply bind_OK in Hrun as (s & st1' & Hget & Hrun).
  apply get_OK in Hget as [-> ->].
  apply bind_OK in Hrun as (R' & st2 & Hpr & Hrun).
  apply bind_OK in Hrun as (u & st3 & Hadd & Hrun).
  apply addSemantics_run in Hadd as ->. apply ret_OK in Hrun as [-> ->].
  assert (HVN : noVoidTypes (NodeTypes NS) = true)
    by (now rewrite (flattenChildren_NodeTypes _ _ _ _ _ Hch)).
  destruct (produceResults_OK _ _ _ _ _ _ _ HVN Hpr)
    as [(S1 & S2 & S3) HR].
  assert (HT : totalDefs (Semantics (Sema (addSemantics_st NS st2)))
               = totalDefs (Semantics (Sema st1))
                 + Z.of_nat (length (NodeTypes NS))).
  { rewrite totalDefs_add, S2, (numDefs_noVoid _ HVN). reflexivity. }
  assert (HB1 : bounded st1).
  { unfold bounded in *. rewrite HT in HB. lia. }
  destruct (flattenChildren_numbered Cs HCs _ _ _ _ Hnum HO Hch HB1)
    as (Hnum1 & HO1 & _).
  assert (Hnum2 : numbered st2).
  { apply (sameNumbering_numbered st1); [repeat split; assumption|].
    exact Hnum1. }
  destruct (addSemantics_numbered NS st2 Hnum2 HVN) as [Hnum' HCur];
    [now rewrite S1 | exact HB |].
  split; [exact Hnum'|].
  pose proof (numbered_small _ Hnum1 HB1) as Hs1.
  pose proof (numbered_small _ Hnum' HB) as Hs'.
  split.
  - intros r Hr.
    assert (HD : DefNo r ∈ map DefNo R')
      by (apply list_elem_of_fmap_2; exact Hr).
    rewrite HR in HD. apply list_elem_of_fmap in HD as (j & -> & Hj).
    apply elem_of_seqZ in Hj. rewrite HCur, S1 in *.
    unfold wrap8, wrap32.
    rewrite (Z.mod_small (CurDefNo st1 + j) (2 ^ 32)) by lia.
    rewrite Z.mod_small by lia. lia.
  - exists (Semantics (Sema st2)), NS.
    split; [apply addSemantics_Semantics|].
    split; [eapply produceResults_VT; eauto|].
    rewrite HR, S2. destruct Hnum1 as (<- & _). rewrite HCur, S1 in Hs'.
    rewrite assignedNumbers_wrap by (auto; lia). f_equal. lia.
Qed.

Lemma flattenSDNode_on_results TPN Op Preds Cs st R st' :
  noVoidTypes (getExtTypes TPN) = true ->
  Forall (subtree_numbered CGI) Cs -> numbered st ->
  flattenSDNode_on CGI (flattenSubtree CGI) TPN Op Preds Cs st = OK (R, st') ->
  bounded st' ->
  numbered st' /\ resultsBelow R st' /\ recordsAssigned R st'.
Proof.
  intros HV HCs Hnum Hrun HB. unfold flattenSDNode_on in Hrun.
  destruct (isSubClassOf Op "ComplexPattern").
  - apply bind_OK in Hrun as (u1 & st1 & H1 & Hrun).
    apply bind_OK in Hrun as (u2 & st2 & H2 & Hrun).
    apply bind_OK in Hrun as (s & st3 & H3 & Hrun).
    apply bind_OK in Hrun as (Kind & st4 & H4 & Hrun).
    monad_inv H1; monad_inv H2; monad_inv H3; monad_inv H4;
      (eapply node_tail_results; [exact HCs| | | |exact Hrun|exact HB];
       [exact Hnum | reflexivity | exact HV]).
  - destruct (negb (isSubClassOf Op "SDNode")); [discriminate|].
    apply bind_OK in Hrun as (u1 & st1 & H1 & Hrun).
    apply bind_OK in Hrun as (u2 & st2 & H2 & Hrun).
    apply bind_OK in Hrun as (s & st3 & H3 & Hrun).
    apply bind_OK in Hrun as (NS1 & st4 & H4 & Hrun).
    apply bind_OK in Hrun as (NS2 & st5 & H5 & Hrun).
    monad_inv H1; monad_inv H2; monad_inv H3; monad_inv H4; monad_inv H5;
      (eapply node_tail_results; [exact HCs| | | |exact Hrun|exact HB];
       [exact Hnum | reflexivity
       | first [exact HV | apply noVoidTypes_take; exact HV]]).
Qed.

Lemma flattenSDNode_on_numbered TPN Op Preds Cs st R st' :
  noVoidTypes (getExtTypes TPN) = true ->
  Forall (subtree_numbered CGI) Cs -> numbered st ->
  flattenSDNode_on CGI (flattenSubtree CGI) TPN Op Preds Cs st = OK (R, st') ->
  bounded st' ->
  numbered st' /\ resultsBelow R st'.
Proof.
  intros HV HCs Hnum Hrun HB.
  destruct (flattenSDNode_on_results _ _ _ _ _ _ _ HV HCs Hnum Hrun HB)
    as (H1 & H2 & _). auto.
Qed.

Lemma noVoidTree_node TPN :
  noVoidTree TPN = true ->
  noVoidTypes (getExtTypes TPN) = true /\
  Forall (fun C => noVoidTree C = true) (getChildren TPN).
Proof.
  destruct TPN as [Tys N V | Tys N Op Preds Cs II CI]; simpl;
    intros H; apply andb_true_iff in H as [H1 H2]; split; auto.
  apply Forall_forall. intros C HC. rewrite forallb_forall in H2.
  apply H2. now apply list_elem_of_In.
Qed.

Lemma flattenSubtree_numbered TPN :
  noVoidTree TPN = true -> subtree_numbered CGI TPN.
Proof.
  induction TPN as [Tys N V | Tys N Op Preds Cs II CI IH]
    using TreePatternNode_nested_ind; intros HV st R st' Hnum Hrun HB;
    apply noVoidTree_node in HV as [HV HCs].
  - simpl in Hrun. destruct (getNamedOperand CGI N) as [OpInfo|];
      apply bind_OK in Hrun as (R1 & st1 & Hrun & Hret);
      apply ret_OK in Hret as [-> ->].
    + eapply flattenOperand_numbered; eauto.
    + eapply flattenLeaf_numbered; eauto.
  - change (flattenSubtree CGI (OpNode Tys N Op Preds Cs II CI)) with
      (match getNamedOperand CGI N with
       | Some OpInfo =>
           let* R := flattenOperand CGI (OpNode Tys N Op Preds Cs II CI) OpInfo
           in ret [R]
       | None =>
           flattenSDNode_on CGI (flattenSubtree CGI)
             (OpNode Tys N Op Preds Cs II CI) Op Preds Cs
       end) in Hrun.
    destruct (getNamedOperand CGI N) as [OpInfo|].
    + apply bind_OK in Hrun as (R1 & st1 & Hrun & Hret).
      apply ret_OK in Hret as [-> ->].
      eapply flattenOperand_numbered; eauto.
    + eapply flattenSDNode_on_numbered; [exact HV| |exact Hnum|exact Hrun|exact HB].
      simpl in HCs. rewrite Forall_forall in IH, HCs. apply Forall_forall. auto.
Qed.

Lemma resultsBelow_mono R st st' :
  CurDefNo st <= CurDefNo st' -> resultsBelow R st -> resultsBelow R st'.
Proof. intros Hle H r Hr. specialize (H r Hr). lia. Qed.

Lemma flattenSetDef_numbered TPN CR Child i st u st' :
  noVoidTypes (getExtTypes TPN) = true -> numbered st -> resultsBelow CR st ->
  flattenSetDef CGI TPN CR Child i st = OK (u, st') -> bounded st' ->
  numbered st' /\ CurDefNo st <= CurDefNo st'.
Proof.
  intros HV Hnum HCR Hrun HB. unfold flattenSetDef in Hrun.
  apply bind_OK in Hrun as (OpRec & st1 & Hrec & Hrun).
  apply lift_OK in Hrec as [Hrec ->].
  destruct (length CR <=? i)%nat.
  { monad_inv Hrun. split; [|simpl; lia].
    eapply sameNumbering_numbered; [|exact Hnum]. repeat split. }
  apply bind_OK in Hrun as (OpRec' & st1 & Hrec' & Hrun).
  assert (st1 = st) as ->
    by (destruct (isSubClassOf OpRec "RegisterOperand"); now monad_inv Hrec').
  apply bind_OK in Hrun as (NS & st2 & HNS & Hrun).
  destruct (CR !! i) as [Op|] eqn:HOp; [|discriminate].
  apply addSemantics_run in Hrun as ->.
  assert (HOpB : 0 <= DefNo Op < CurDefNo st).
  { apply HCR. eapply list_elem_of_lookup_2. exact HOp. }
  assert (H2 : sameNumbering st st2 /\ valueOpsBelow (CurDefNo st) NS = true /\
               NodeTypes NS = getExtTypes TPN).
  { destruct (isSubClassOf OpRec' "RegisterClass").
    - destruct (getNamedOperand CGI (getNodeName Child)); monad_inv HNS.
      repeat split.
    - destruct (isSubClassOf OpRec' "Register"); monad_inv HNS. repeat split. }
  destruct H2 as (HS & HO & HTy).
  pose proof (sameNumbering_numbered _ _ HS Hnum) as Hnum2.
  destruct HS as (S1 & _).
  destruct (addSemantics_numbered (addOperand NS (ValueOp (DefNo Op))) st2)
    as [Hnum' HCur]; [exact Hnum2 | simpl; now rewrite HTy | | exact HB |].
  { rewrite valueOpsBelow_addOperand, S1, HO. simpl. apply Z.ltb_lt. lia. }
  split; [exact Hnum'|]. rewrite HCur, S1. lia.
Qed.

Lemma flattenSetDefs_numbered TPN CR Defs : forall i st u st',
  noVoidTypes (getExtTypes TPN) = true -> numbered st -> resultsBelow CR st ->
  flattenSetDefs CGI TPN CR Defs i st = OK (u, st') -> bounded st' ->
  numbered st'.
Proof.
  induction Defs as [|Child Defs IH]; intros i st u st' HV Hnum HCR Hrun HB;
    simpl in Hrun.
  - now monad_inv Hrun.
  - apply bind_OK in Hrun as (u1 & st1 & H1 & Hrun).
    assert (HB1 : bounded st1).
    { pose proof (flattenSetDefs_grows CGI _ _ _ _ _ _ _ Hrun).
      unfold bounded in *. lia. }
    destruct (flattenSetDef_numbered _ _ _ _ _ _ _ HV Hnum HCR H1 HB1)
      as [Hnum1 Hle].
    eapply IH; [exact HV | exact Hnum1 | | exact Hrun | exact HB].
    eapply resultsBelow_mono; eauto.
Qed.

Lemma flattenSet_numbered TPN st u st' :
  noVoidTree TPN = true -> numbered st ->
  flattenSet CGI TPN st = OK (u, st') -> bounded st' -> numbered st'.
Proof.
  intros HV Hnum Hrun HB. apply noVoidTree_node in HV as [HV HCs].
  unfold flattenSet in Hrun.
  destruct (last (getChildren TPN)) as [LastChild|] eqn:HL; [|discriminate].
  apply bind_OK in Hrun as (u1 & st1 & H1 & Hrun).
  apply assert_OK in H1 as [_ ->].
  apply bind_OK in Hrun as (CR & st1 & H1 & Hrun).
  assert (HB1 : bounded st1).
  { pose proof (flattenSetDefs_grows CGI _ _ _ _ _ _ _ Hrun).
    unfold bounded in *. lia. }
  assert (HLV : noVoidTree LastChild = true).
  { rewrite Forall_forall in HCs. apply HCs.
    apply last_Some in HL as [l1 ->]. set_solver. }
  destruct (flattenSubtree_numbered _ HLV _ _ _ Hnum H1 HB1) as [Hnum1 HCR].
  eapply flattenSetDefs_numbered; eauto.
Qed.

Lemma flatten_numbered TPN st u st' :
  noVoidTree TPN = true -> numbered st ->
  flatten CGI TPN st = OK (u, st') -> bounded st' -> numbered st'.
Proof.
  intros HV Hnum Hrun HB.
  destruct TPN as [Tys N V | Tys N Op Preds Cs II CI]; [discriminate|].
  unfold flatten in Hrun.
  destruct (String.eqb (getName Op) "implicit").
  { now monad_inv Hrun. }
  destruct (String.eqb (getName Op) "set").
  { eapply flattenSet_numbered; eauto. }
  apply bind_OK in Hrun as (R & st1 & H1 & Hrun).
  apply assert_OK in Hrun as [_ ->]. simpl in H1.
  pose proof (noVoidTree_node _ HV) as [HV1 HCs].
  eapply flattenSDNode_on_numbered; [exact HV1| |exact Hnum|exact H1|exact HB].
  simpl in HCs. rewrite Forall_forall in HCs. apply Forall_forall.
  intros C HC. apply flattenSubtree_numbered. auto.
Qed.

Lemma flattenTrees_numbered Trees : forall st u st',
  forallb noVoidTree Trees = true -> numbered st ->
  flattenTrees CGI Trees st = OK (u, st') -> bounded st' -> numbered st'.
Proof.
  induction Trees as [|TPN Trees IH]; intros st u st' HV Hnum Hrun HB;
    simpl in Hrun.
  - now monad_inv Hrun.
  - simpl in HV. apply andb_true_iff in HV as [HV1 HV2].
    apply bind_OK in Hrun as (u1 & st1 & H1 & Hrun).
    assert (HB1 : bounded st1).
    { pose proof (flattenTrees_grows CGI _ _ _ _ Hrun).
      unfold bounded in *. lia. }
    eapply IH; [exact HV2 | | exact Hrun | exact HB].
    eapply flatten_numbered; eauto.
Qed.

(** X1: when no node of the tree has a void result type and at most 256
    values are defined, the results [flattenSDNode] hands to its caller are
    the values of the operation it emitted last: they carry its types and the
    numbers the counter assigned to them, all of them defined. *)
Theorem flattenSDNode_records_assigned TPN st R st' :
  noVoidTree TPN = true -> numbered st ->
  flattenSDNode CGI TPN st = OK (R, st') -> bounded st' ->
  recordsAssigned R st' /\ resultsBelow R st' /\ numbered st'.
Proof.
  intros HV Hnum Hrun HB.
  destruct TPN as [Tys N V | Tys N Op Preds Cs II CI]; [discriminate|].
  simpl in Hrun. pose proof (noVoidTree_node _ HV) as [HV1 HCs].
  assert (HCs' : Forall (subtree_numbered CGI) Cs).
  { simpl in HCs. rewrite Forall_forall in HCs. apply Forall_forall.
    intros C HC. apply flattenSubtree_numbered. auto. }
  destruct (flattenSDNode_on_results _ _ _ _ _ _ _ HV1 HCs' Hnum Hrun HB)
    as (H1 & H2 & H3). auto.
Qed.

End Numbering.

Lemma linearize_numbered CGI TP T u Flat :
  noVoidPattern TP = true -> linearize CGI TP T = OK (u, Flat) ->
  bounded Flat -> numbered Flat.
Proof.
  intros HV Hrun HB. unfold linearize in Hrun.
  apply bind_OK in Hrun as (u1 & st1 & H1 & Hrun).
  apply modify_OK in Hrun as ->.
  eapply (sameNumbering_numbered st1); [repeat split|].
  eapply flattenTrees_numbered; [exact HV| |exact H1|exact HB].
  split; [reflexivity|split; [reflexivity|]].
  intros k n Hk. simpl in Hk. now rewrite lookup_empty in Hk.
Qed.

Lemma parseInstSemantics_inOrder i CGI TP E E' :
  noVoidPattern TP = true -> parseInstSemantics i CGI TP E = OK E' ->
  Forall inOrder (InstSemas E) -> Forall inOrder (InstSemas E').
Proof.
  intros HV H HE.
  destruct (parseInstSemantics_cases _ _ _ _ _ H)
    as (Flat' & Hl & _ & [(_ & -> & _) | (Hr & -> & _)]); [exact HE|].
  apply Forall_app. split; [exact HE|]. constructor; [|constructor].
  intros HB. eapply linearize_numbered; eauto.
Qed.

Lemma ParseSemantics_inOrder CGIByEnum Instrs : forall E E',
  Forall (fun SD => noVoidPattern (SemaPattern SD) = true) Instrs ->
  ParseSemantics CGIByEnum Instrs E = OK E' ->
  Forall inOrder (InstSemas E) -> Forall inOrder (InstSemas E').
Proof.
  induction Instrs as [|SD Instrs IH]; intros E E' HV; simpl.
  - now intros [= <-].
  - apply Forall_cons in HV as [HV1 HV2].
    destruct (CGIByEnum !! Inst SD) as [Entry|]; [|discriminate].
    destruct (parseInstSemantics _ _ _ E) as [E1|] eqn:E1eq; [|discriminate].
    intros H HE. eapply IH; [exact HV2|exact H|].
    eapply parseInstSemantics_inOrder; eauto.
Qed.

Lemma parsePatterns_inOrder Entries : forall i E E',
  Forall (fun Entry => forall TP, DIPattern Entry = Some TP ->
                                  noVoidPattern TP = true) Entries ->
  parsePatterns Entries i E = OK E' ->
  Forall inOrder (InstSemas E) -> Forall inOrder (InstSemas E').
Proof.
  induction Entries as [|Entry Entries IH]; intros i E E' HV; simpl.
  - now intros [= <-].
  - apply Forall_cons in HV as [HV1 HV2].
    destruct (negb _); [now apply IH|].
    destruct (DIPattern Entry) as [TP|]; [|now apply IH].
    destruct (negb (isCodeGenOnly _)); [|now apply IH].
    destruct (parseInstSemantics _ _ _ E) as [E1|] eqn:E1eq; [|discriminate].
    intros H HE. eapply IH; [exact HV2|exact H|].
    eapply parseInstSemantics_inOrder; eauto.
Qed.

(** X2: when no node of any pattern has a void result type, every semantics
    the constructor collects that defines at most 256 values refers, in
    every value operand of every operation, to a value that an operation
    before it defined. *)
Theorem collected_semantics_inOrder CGP Equivs Instrs CGIByEnum E :
  Forall (fun SD => noVoidPattern (SemaPattern SD) = true) Instrs ->
  Forall (fun Entry => forall TP, DIPattern Entry = Some TP ->
                                  noVoidPattern TP = true) CGIByEnum ->
  SemanticsEmitter_ CGP Equivs Instrs CGIByEnum = OK E ->
  Forall inOrder (InstSemas E).
Proof.
  intros HI HE. unfold SemanticsEmitter_.
  destruct (ParseSemantics _ _ _) as [E1|] eqn:H1; [|discriminate].
  intros H2. eapply parsePatterns_inOrder; [exact HE|exact H2|].
  eapply ParseSemantics_inOrder; [exact HI|exact H1|]. constructor.
Qed.

(** The pattern [(set GPR:$dst, (add GPR:$a, GPR:$b))]. *)
Lemma collected_semantics_inOrder_witness :
  exists E,
    SemanticsEmitter_ (CGP_example "SelectAddr") [] []
      [mkInstructionEntry CGI_ADD (Some ADD_pattern)] = OK E /\
    length (InstSemas E) = 1%nat /\ Forall inOrder (InstSemas E).
Proof.
  eexists. split; [vm_compute; reflexivity|]. split; [reflexivity|].
  apply (collected_semantics_inOrder (CGP_example "SelectAddr") [] []
           [mkInstructionEntry CGI_ADD (Some ADD_pattern)]).
  - constructor.
  - constructor; [|constructor]. intros TP [= <-]. vm_compute. reflexivity.
  - vm_compute. reflexivity.
Defined.

(** The operation [(add GPR:$a, GPR:$b)] of the example, from the initial
    state. *)
Lemma flattenSDNode_records_assigned_witness :
  exists R st',
    flattenSDNode CGI_ADD ADD_value
      (LinearSemantics_ Target_example InstSemantics_) = OK (R, st') /\
    map DefNo R = [2] /\
    recordsAssigned R st' /\ resultsBelow R st' /\ numbered st'.
Proof.
  eexists. eexists. split; [vm_compute; reflexivity|].
  split; [reflexivity|].
  apply (flattenSDNode_records_assigned CGI_ADD ADD_value
           (LinearSemantics_ Target_example InstSemantics_)).
  - vm_compute. reflexivity.
  - split; [reflexivity|split; [reflexivity|]].
    intros k n Hk. simpl in Hk. now rewrite lookup_empty in Hk.
  - vm_compute. reflexivity.
  - vm_compute. discriminate.
Defined.

(** ** [computeImplicitDefs] *)

Lemma uniqueImplicitDefs_sublist E L : forall I,
  sublist (uniqueImplicitDefs E L I) L.
Proof.
  induction L as [|R L IH]; intros I; simpl; [constructor|].
  destruct (andb _ _); [apply sublist_skip | apply sublist_cons]; apply IH.
Qed.

Lemma uniqueImplicitDefs_sound E L : forall I R,
  R ∈ uniqueImplicitDefs E L I -> (getReg R ∉ E) /\ (getReg R ∉ I).
Proof.
  induction L as [|R0 L IH]; intros I R; simpl; [now intros []%elem_of_nil|].
  destruct (bool_decide (getReg R0 ∉ E)) eqn:H1;
    destruct (bool_decide (getReg R0 ∉ I)) eqn:H2; simpl;
    try (intros H; exact (IH _ _ H)).
  apply bool_decide_eq_true in H1, H2.
  intros [-> | H]%elem_of_cons; [auto|].
  destruct (IH _ _ H) as [HE HI]. split; [exact HE | set_solver].
Qed.

Lemma uniqueImplicitDefs_NoDup E L : forall I,
  NoDup (regsOf (uniqueImplicitDefs E L I)).
Proof.
  induction L as [|R0 L IH]; intros I; simpl; [constructor|].
  destruct (andb _ _); [|apply IH].
  unfold regsOf. simpl. constructor; [|apply IH].
  intros (R & HR & Hin)%list_elem_of_fmap.
  apply uniqueImplicitDefs_sound in Hin as [_ Hin]. set_solver.
Qed.

Lemma uniqueImplicitDefs_complete E L : forall I R,
  R ∈ L -> getReg R ∉ E -> getReg R ∉ I ->
  getReg R ∈ regsOf (uniqueImplicitDefs E L I).
Proof.
  induction L as [|R0 L IH]; intros I R; simpl; [now intros []%elem_of_nil|].
  intros [-> | Hin]%elem_of_cons HE HI.
  - rewrite !bool_decide_eq_true_2 by assumption. simpl. left.
  - destruct (bool_decide (getReg R0 ∉ E)) eqn:H1;
      destruct (bool_decide (getReg R0 ∉ I)) eqn:H2; simpl;
      try (apply IH; assumption).
    destruct (decide (getReg R = getReg R0)) as [-> | Hne]; [left|].
    right. apply IH; [exact Hin | exact HE | set_solver].
Qed.

(** X3: [computeImplicitDefs] leaves, as the implicit definitions of the
    instruction, the records of the instruction's own implicit definitions
    followed by those met during the walk, in this order, without any whose
    register is explicitly defined and with one record per register; nothing
    else of the semantics changes. *)
Theorem computeImplicitDefs_spec (CGI : CodeGenInstruction)
    (I : InstSemantics) :
  let All := CGI_ImplicitDefs CGI ++ ImplicitDefs I in
  let I' := computeImplicitDefs_I CGI I in
  sublist (ImplicitDefs I') All /\
  NoDup (regsOf (ImplicitDefs I')) /\
  (forall r, r ∈ regsOf (ImplicitDefs I') <->
             r ∈ regsOf All /\ (r ∉ regsOf (ExplicitDefs I))) /\
  Semantics I' = Semantics I /\ ExplicitDefs I' = ExplicitDefs I /\
  LastDefNo I' = LastDefNo I /\ LastDefSemaIdx I' = LastDefSemaIdx I /\
  HasIntrinsic I' = HasIntrinsic I /\
  HasComplexPattern I' = HasComplexPattern I.
Proof.
  cbv zeta. unfold computeImplicitDefs_I. simpl.
  split; [apply uniqueImplicitDefs_sublist|].
  split; [apply uniqueImplicitDefs_NoDup|].
  split; [|repeat split].
  intros r. split.
  - intros (R & -> & HR)%list_elem_of_fmap. split.
    + apply list_elem_of_fmap. exists R. split; [reflexivity|].
      eapply elem_of_sublist; [exact HR|apply uniqueImplicitDefs_sublist].
    + apply uniqueImplicitDefs_sound in HR as [HE _].
      intros Hin. apply HE. apply elem_of_list_to_set. exact Hin.
  - intros [(R & -> & HR)%list_elem_of_fmap HE].
    apply uniqueImplicitDefs_complete; [exact HR| |set_solver].
    intros Hin. apply HE. apply elem_of_list_to_set in Hin. exact Hin.
Qed.

(** ** Properties of every collected semantics *)

Section Collected.

Variable Good : InstSemantics -> Prop.
Hypothesis linearize_Good : forall CGI TP T Flat,
  linearize CGI TP T = OK (tt, Flat) -> rejected (Sema Flat) = false ->
  Good (Sema Flat).

Lemma parseInstSemantics_Forall i CGI TP E E' :
  parseInstSemantics i CGI TP E = OK E' ->
  Forall Good (InstSemas E) -> Forall Good (InstSemas E').
Proof.
  intros H HE.
  destruct (parseInstSemantics_cases _ _ _ _ _ H)
    as (Flat' & Hl & _ & [(_ & -> & _) | (Hr & -> & _)]); [exact HE|].
  apply Forall_app. split; [exact HE|]. constructor; [|constructor].
  eapply linearize_Good; eauto.
Qed.

Lemma ParseSemantics_Forall CGIByEnum Instrs : forall E E',
  ParseSemantics CGIByEnum Instrs E = OK E' ->
  Forall Good (InstSemas E) -> Forall Good (InstSemas E').
Proof.
  induction Instrs as [|SD Instrs IH]; intros E E'; simpl.
  - now intros [= <-].
  - destruct (CGIByEnum !! Inst SD) as [Entry|]; [|discriminate].
    destruct (parseInstSemantics _ _ _ E) as [E1|] eqn:E1eq; [|discriminate].
    intros H HE. eapply IH; [exact H|].
    eapply parseInstSemantics_Forall; eauto.
Qed.

Lemma parsePatterns_Forall Entries : forall i E E',
  parsePatterns Entries i E = OK E' ->
  Forall Good (InstSemas E) -> Forall Good (InstSemas E').
Proof.
  induction Entries as [|Entry Entries IH]; intros i E E'; simpl.
  - now intros [= <-].
  - destruct (negb _); [apply IH|].
    destruct (DIPattern Entry) as [TP|]; [|apply IH].
    destruct (negb (isCodeGenOnly _)); [|apply IH].
    destruct (parseInstSemantics _ _ _ E) as [E1|] eqn:E1eq; [|discriminate].
    intros H HE. eapply IH; [exact H|].
    eapply parseInstSemantics_Forall; eauto.
Qed.

Lemma SemanticsEmitter_Forall CGP Equivs Instrs CGIByEnum E :
  SemanticsEmitter_ CGP Equivs Instrs CGIByEnum = OK E ->
  Forall Good (InstSemas E).
Proof.
  unfold SemanticsEmitter_.
  destruct (ParseSemantics _ _ _) as [E1|] eqn:H1; [|discriminate].
  intros H2. eapply parsePatterns_Forall; [exact H2|].
  eapply ParseSemantics_Forall; [exact H1|]. constructor.
Qed.

End Collected.

(** What holds of the state after the trees were linearized holds of the
    semantics [linearize] returns, when [computeImplicitDefs] keeps it. *)
Lemma linearize_preserved (P : LinearSemantics -> Prop) CGI TP T u Flat :
  Stable P ->
  (forall st, P st -> P (with_Sema (set_HasComplexPattern true) st)) ->
  (forall st, P st -> P (with_Sema (computeImplicitDefs_I CGI) st)) ->
  P (LinearSemantics_ T (set_Pattern TP InstSemantics_)) ->
  linearize CGI TP T = OK (u, Flat) -> P Flat.
Proof.
  intros HS Hcp Himp H0 Hrun. unfold linearize in Hrun.
  apply bind_OK in Hrun as (u1 & st1 & H1 & Hrun).
  apply modify_OK in Hrun as ->. apply Himp.
  eapply (preserves_flattenTrees CGI P HS); [|exact H0|exact H1].
  apply Forall_forall. intros TPN _. left. exact Hcp.
Qed.

(** ** [Untyped] results *)

Lemma countDefs_Intr Tys : forall Cur Intr,
  snd (countDefs Tys Cur Intr) = false ->
  Intr = false /\ Untyped ∉ Tys.
Proof.
  induction Tys as [|Ty Tys IH]; intros Cur Intr; simpl.
  - intros ->. split; [reflexivity | apply not_elem_of_nil].
  - intros H. apply IH in H as [H1 H2]. unfold VT_eqb in H1.
    case_bool_decide as E; [discriminate|]. split; [exact H1|].
    intros [Heq | Hin]%elem_of_cons; [now apply E | now apply H2].
Qed.

Lemma untyped_flagged_stable :
  Stable (fun st => HasIntrinsic (Sema st) = false -> noUntyped (Sema st)).
Proof.
  split; try (intros; discriminate);
    try (unfold noUntyped; simpl; intros; auto; fail).
  intros NS st Hst. unfold noUntyped, addSemantics_st in *.
  pose proof (countDefs_Intr (NodeTypes NS) (CurDefNo st)
                (HasIntrinsic (Sema st))) as Hc.
  destruct (countDefs _ _ _) as [Cur Intr]. simpl in Hc.
  destruct (negb _); simpl; intros ->; destruct (Hc eq_refl) as [H1 H2];
    (apply Forall_app; split; [auto | constructor; [exact H2 | constructor]]).
Qed.

(** X4: no operation of a collected semantics has an [Untyped] result:
    [addSemantics] raises [HasIntrinsic] on such a result, nothing clears the
    flag, and [parseInstSemantics] drops a semantics that has it. *)
Theorem collected_no_untyped CGP Equivs Instrs CGIByEnum E :
  SemanticsEmitter_ CGP Equivs Instrs CGIByEnum = OK E ->
  Forall noUntyped (InstSemas E).
Proof.
  apply SemanticsEmitter_Forall. intros CGI TP T Flat Hl Hr.
  assert (HI : HasIntrinsic (Sema Flat) = false).
  { unfold rejected in Hr. destruct (HasIntrinsic (Sema Flat)); [|reflexivity].
    discriminate. }
  revert HI.
  apply (linearize_preserved
           (fun st => HasIntrinsic (Sema st) = false -> noUntyped (Sema st))
           CGI TP T tt Flat); [apply untyped_flagged_stable| | | |exact Hl].
  - intros st H. exact H.
  - intros st H. exact H.
  - intros _. constructor.
Qed.

(** ** The walk only adds *)

Lemma extends_refl st : extends st st.
Proof. repeat split; try reflexivity. auto. Qed.

Lemma extends_stable st0 : Stable (extends st0).
Proof.
  split.
  - intros NS st (H1 & H2 & H3 & H4 & H5). unfold extends.
    rewrite addSemantics_Semantics. unfold addSemantics_st.
    pose proof (countDefs_Intr (NodeTypes NS) (CurDefNo st)
                  (HasIntrinsic (Sema st))) as Hc.
    destruct (countDefs _ _ _) as [Cur Intr]. simpl in Hc.
    split; [now apply prefix_app_r|].
    destruct (negb _); simpl; repeat split; try assumption;
      (intros H0; specialize (H5 H0); destruct Intr; [reflexivity|];
       destruct (Hc eq_refl); congruence).
  - intros st (H1 & H2 & H3 & H4 & H5). repeat split; auto.
  - intros st (H1 & H2 & H3 & H4 & H5). repeat split; auto.
  - intros R st (H1 & H2 & H3 & H4 & H5). repeat split; auto.
    simpl. now apply prefix_app_r.
  - intros R st (H1 & H2 & H3 & H4 & H5). repeat split; auto.
    simpl. now apply prefix_app_r.
  - intros f st (H1 & H2 & H3 & H4 & H5). repeat split; auto.
  - intros k st Hk (H1 & H2 & H3 & H4 & H5). repeat split; auto.
    simpl. etrans; [exact H4|]. now apply insert_subseteq.
Qed.

Lemma extends_cp_ok st0 TPN : cp_ok (extends st0) TPN.
Proof. left. intros st (H1 & H2 & H3 & H4 & H5). repeat split; auto. Qed.

(** X5: linearizing a subtree, or all the trees of a pattern, only adds to
    the state: the operations emitted before stay the first operations of
    the program, unchanged and in order, and so do the explicit and the
    implicit definitions; an operand memoized before keeps its number; and
    [HasIntrinsic], once raised, is never cleared. *)
Theorem walk_extends (CGI : CodeGenInstruction) :
  (forall TPN st R st',
      flattenSubtree CGI TPN st = OK (R, st') -> extends st st') /\
  (forall Trees st u st',
      flattenTrees CGI Trees st = OK (u, st') -> extends st st').
Proof.
  split.
  - intros TPN st R st' H.
    eapply (preserves_flattenSubtree CGI _ (extends_stable st));
      [apply extends_cp_ok | apply extends_refl | exact H].
  - intros Trees st u st' H.
    eapply (preserves_flattenTrees CGI _ (extends_stable st));
      [|apply extends_refl | exact H].
    apply Forall_forall. intros. apply extends_cp_ok.
Qed.

(** ** [LastDefSemaIdx] and [LastDefNo] *)

Lemma lastDefFrom_app Prog NS : forall i d acc,
  lastDefFrom (Prog ++ [NS]) i d acc =
    if 0 <? numDefs NS
    then Some (i + Z.of_nat (length Prog), d + totalDefs Prog)
    else lastDefFrom Prog i d acc.
Proof.
  induction Prog as [|NS' Prog IH]; intros i d acc; simpl.
  - rewrite !Z.add_0_r. reflexivity.
  - rewrite IH. destruct (0 <? numDefs NS); [|reflexivity].
    do 2 f_equal; lia.
Qed.

Lemma assignedNumbers_length Tys : forall Cur Cur',
  length (assignedNumbers Tys Cur) = length (assignedNumbers Tys Cur').
Proof.
  induction Tys as [|Ty Tys IH]; intros Cur Cur'; simpl; [reflexivity|].
  destruct (VT_eqb Ty isVoid); simpl; [apply IH | f_equal; apply IH].
Qed.

Lemma countDefs_fst Tys : forall Cur Intr,
  0 <= Cur ->
  Cur + Z.of_nat (length (assignedNumbers Tys 0)) < 2 ^ 32 ->
  fst (countDefs Tys Cur Intr)
    = Cur + Z.of_nat (length (assignedNumbers Tys 0)).
Proof.
  induction Tys as [|Ty Tys IH]; intros Cur Intr H0 Hlt; simpl in *; [lia|].
  destruct (VT_eqb Ty isVoid); simpl in *.
  - now apply IH.
  - rewrite (assignedNumbers_length Tys _ 0) in *.
    rewrite Nat2Z.inj_succ in *. unfold wrap32.
    rewrite Z.mod_small by lia. rewrite IH by lia. lia.
Qed.

Lemma lastDef_recorded_stable :
  Stable (fun st => fitsUnsigned (Sema st) ->
                    CurDefNo st = totalDefs (Semantics (Sema st)) /\
                    lastDef_recorded (Sema st)).
Proof.
  split; try (unfold fitsUnsigned, lastDef_recorded; simpl; intros; auto; fail).
  intros NS st Hst [HL HT].
  rewrite addSemantics_Semantics in HL, HT.
  rewrite length_app, Nat2Z.inj_add in HL. simpl in HL.
  rewrite totalDefs_app in HT.
  pose proof (numDefs_nonneg NS) as HN.
  pose proof (totalDefs_nonneg (Semantics (Sema st))) as HT0.
  destruct Hst as [HC HR]; [split; lia|].
  unfold lastDef_recorded. rewrite addSemantics_Semantics, lastDefFrom_app.
  rewrite totalDefs_app. unfold addSemantics_st.
  pose proof (countDefs_fst (NodeTypes NS) (CurDefNo st)
                (HasIntrinsic (Sema st))) as Hc.
  destruct (countDefs _ _ _) as [Cur Intr]. simpl in Hc.
  fold (numDefs NS) in Hc. rewrite Hc by lia. clear Hc.
  split; [simpl; lia|].
  destruct (Z.ltb_spec 0 (numDefs NS)) as [Hpos | Hzero].
  - rewrite (proj2 (Z.eqb_neq _ _)) by lia. simpl.
    unfold wrap32. rewrite Z.mod_small by lia. split; lia.
  - rewrite (proj2 (Z.eqb_eq _ _)) by lia. simpl. exact HR.
Qed.

(** X6: in every collected semantics whose sizes fit [unsigned],
    [LastDefSemaIdx] is the index of the last operation that has a non-void
    result and [LastDefNo] is the number of the first value of that
    operation; both are [~0U] when no operation defines a value. *)
Theorem collected_lastDef_recorded CGP Equivs Instrs CGIByEnum E :
  SemanticsEmitter_ CGP Equivs Instrs CGIByEnum = OK E ->
  Forall (fun S => fitsUnsigned S -> lastDef_recorded S) (InstSemas E).
Proof.
  apply SemanticsEmitter_Forall. intros CGI TP T Flat Hl _ Hfit.
  apply (linearize_preserved
           (fun st => fitsUnsigned (Sema st) ->
                      CurDefNo st = totalDefs (Semantics (Sema st)) /\
                      lastDef_recorded (Sema st))
           CGI TP T tt Flat); [apply lastDef_recorded_stable| | | |exact Hl|exact Hfit].
  - intros st H. exact H.
  - intros st H. exact H.
  - intros _. split; [reflexivity|]. split; reflexivity.
Qed.

(** ** The operation [flattenSDNode] emits *)

Lemma flattenChildren_operands {f} Cs : forall NS st NS' st',
  flattenChildren f Cs NS st = OK (NS', st') ->
  TPN NS' = TPN NS /\ Opcode NS' = Opcode NS /\
  exists Fronts,
    NodeOperands NS' = NodeOperands NS ++ map ValueOp Fronts /\
    length Fronts = length Cs.
Proof.
  induction Cs as [|C Cs IH]; intros NS st NS' st' Hch; simpl in Hch.
  - monad_inv Hch. repeat split. exists []. now rewrite app_nil_r.
  - apply bind_OK in Hch as (CR & st1 & _ & Hch). cbv beta in Hch.
    destruct CR as [|Front CR]; [discriminate|].
    apply IH in Hch as (H1 & H2 & Fronts & H3 & H4). simpl in *.
    repeat split; [exact H1 | exact H2|].
    exists (DefNo Front :: Fronts). rewrite H3, <- app_assoc. simpl.
    split; [reflexivity | now rewrite H4].
Qed.

Lemma produceResults_results b Tys : forall i Cur st R st',
  produceResults b Tys i Cur st = OK (R, st') ->
  Semantics (Sema st') = Semantics (Sema st) /\
  map VT R = filter (fun Ty => Ty <> isVoid) Tys.
Proof.
  induction Tys as [|Ty Tys IH]; intros i Cur st R st' Hrun.
  - simpl in Hrun. monad_inv Hrun. split; reflexivity.
  - cbn [produceResults] in Hrun.
    apply bind_OK in Hrun as (u & st1 & H1 & Hrun).
    apply assert_OK in H1 as [_ ->].
    apply bind_OK in Hrun as (u' & st2 & H2 & Hrun).
    apply bind_OK in Hrun as (R' & st3 & H3 & Hrun).
    apply ret_OK in Hrun as [-> ->].
    destruct (IH _ _ _ _ _ H3) as [S1 HR]. split.
    + rewrite S1. destruct (b && VT_eqb Ty Untyped); now monad_inv H2.
    + unfold VT_eqb. rewrite filter_cons.
      case_bool_decide as E; destruct (decide (Ty <> isVoid)) as [D | D];
        simpl; try (exfalso; tauto); now rewrite HR.
Qed.

Section Emits.

Variable CGI : CodeGenInstruction.

Lemma flattenChildren_appends Cs NS st NS' st' :
  flattenChildren (flattenSubtree CGI) Cs NS st = OK (NS', st') ->
  Semantics (Sema st) `prefix_of` Semantics (Sema st').
Proof.
  intros H.
  eapply (preserves_flattenChildren
            (fun s => Semantics (Sema st) `prefix_of` Semantics (Sema s)));
    [| |exact H]; [|reflexivity].
  apply Forall_forall. intros C _ s R s' Hs Hrun. etrans; [exact Hs|].
  eapply (preserves_flattenSubtree CGI _ (extends_stable s));
    [apply extends_cp_ok | apply extends_refl | exact Hrun].
Qed.

Lemma node_tail_emits b Cs NS0 st0 R st' :
  (let* NS := flattenChildren (flattenSubtree CGI) Cs NS0 in
   let* st := get in
   let* R := produceResults b (NodeTypes NS) 0 (CurDefNo st) in
   let* _ := addSemantics NS in ret R) st0 = OK (R, st') ->
  exists Prog NS Fronts,
    Semantics (Sema st') = Semantics (Sema st0) ++ Prog ++ [NS] /\
    TPN NS = TPN NS0 /\ NodeTypes NS = NodeTypes NS0 /\
    NodeOperands NS = NodeOperands NS0 ++ map ValueOp Fronts /\
    length Fronts = length Cs /\
    map VT R = filter (fun Ty => Ty <> isVoid) (NodeTypes NS) /\
    Opcode NS = Opcode NS0.
Proof.
  intros Hrun.
  apply bind_OK in Hrun as (NS & st1 & Hch & Hrun).
  apply bind_OK in Hrun as (s & st1' & Hget & Hrun).
  apply get_OK in Hget as [-> ->].
  apply bind_OK in Hrun as (R' & st2 & Hpr & Hrun).
  apply bind_OK in Hrun as (u & st3 & Hadd & Hrun).
  apply addSemantics_run in Hadd as ->. apply ret_OK in Hrun as [-> ->].
  destruct (flattenChildren_appends _ _ _ _ _ Hch) as [Prog HProg].
  destruct (flattenChildren_operands _ _ _ _ _ Hch)
    as (H1 & H0 & Fronts & H3 & H4).
  pose proof (flattenChildren_NodeTypes _ _ _ _ _ Hch) as H2.
  destruct (produceResults_results _ _ _ _ _ _ _ Hpr) as [S1 HR].
  exists Prog, NS, Fronts.
  rewrite addSemantics_Semantics, S1, HProg, <- app_assoc. auto 10.
Qed.

Lemma flattenSDNode_shape N st R st' :
  flattenSDNode CGI N st = OK (R, st') ->
  exists Prog NS,
    Semantics (Sema st') = Semantics (Sema st) ++ Prog ++ [NS] /\
    operationOf N NS /\
    map VT R = filter (fun Ty => Ty <> isVoid) (NodeTypes NS).
Proof.
  intros Hrun.
  destruct N as [Tys N V | Tys N Op Preds Cs II CI]; [discriminate|].
  simpl in Hrun. unfold flattenSDNode_on in Hrun.
  set (Node := OpNode Tys N Op Preds Cs II CI) in *.
  assert (Hend : forall b NS0 st0 Head,
    Semantics (Sema st0) = Semantics (Sema st) ->
    TPN NS0 = Node -> NodeTypes NS0 `prefix_of` Tys ->
    NodeOperands NS0 = Head -> (length Head <= 1)%nat ->
    Forall (fun Op => match Op with NameOp _ => True | _ => False end) Head ->
    (let* NS := flattenChildren (flattenSubtree CGI) Cs NS0 in
     let* st := get in
     let* R := produceResults b (NodeTypes NS) 0 (CurDefNo st) in
     let* _ := addSemantics NS in ret R) st0 = OK (R, st') ->
    exists Prog NS,
      Semantics (Sema st') = Semantics (Sema st) ++ Prog ++ [NS] /\
      operationOf Node NS /\
      map VT R = filter (fun Ty => Ty <> isVoid) (NodeTypes NS)).
  { intros b NS0 st0 Head HS HT HTy HOps HLen HHead Htail.
    apply node_tail_emits in Htail
      as (Prog & NS & Fronts & E1 & E2 & E3 & E4 & E5 & E6 & _).
    exists Prog, NS. rewrite E1, HS. split; [reflexivity|].
    split; [|exact E6]. split; [congruence|]. split; [now rewrite E3|].
    exists Head, Fronts. subst Head. auto. }
  destruct (isSubClassOf Op "ComplexPattern").
  - apply bind_OK in Hrun as (u1 & st1 & H1 & Hrun).
    apply bind_OK in Hrun as (u2 & st2 & H2 & Hrun).
    apply bind_OK in Hrun as (s & st3 & H3 & Hrun).
    apply bind_OK in Hrun as (Kind & st4 & H4 & Hrun).
    monad_inv H1; monad_inv H2; monad_inv H3; monad_inv H4;
      (eapply Hend; [| | | reflexivity | | | exact Hrun];
       [reflexivity | reflexivity | reflexivity | simpl; lia
       | repeat constructor]).
  - destruct (negb (isSubClassOf Op "SDNode")); [discriminate|].
    apply bind_OK in Hrun as (u1 & st1 & H1 & Hrun).
    apply bind_OK in Hrun as (u2 & st2 & H2 & Hrun).
    apply bind_OK in Hrun as (s & st3 & H3 & Hrun).
    apply bind_OK in Hrun as (NS1 & st4 & H4 & Hrun).
    apply bind_OK in Hrun as (NS2 & st5 & H5 & Hrun).
    monad_inv H1; monad_inv H2; monad_inv H3; monad_inv H4; monad_inv H5;
      (eapply Hend; [| | | reflexivity | | | exact Hrun];
       [reflexivity | reflexivity
       | first [reflexivity | apply prefix_take]
       | simpl; lia | repeat constructor]).
Qed.


End Emits.

(** ** The example pattern [(set GPR:$dst, (add GPR:$a, GPR:$b))] *)

Lemma collected_no_untyped_witness :
  exists E,
    SemanticsEmitter_ (CGP_example "SelectAddr") [] []
      [mkInstructionEntry CGI_ADD (Some ADD_pattern)] = OK E /\
    length (InstSemas E) = 1%nat /\ Forall noUntyped (InstSemas E).
Proof.
  eexists. split; [vm_compute; reflexivity|]. split; [reflexivity|].
  apply (collected_no_untyped (CGP_example "SelectAddr") [] []
           [mkInstructionEntry CGI_ADD (Some ADD_pattern)]).
  vm_compute. reflexivity.
Defined.

Lemma collected_lastDef_recorded_witness :
  exists E,
    SemanticsEmitter_ (CGP_example "SelectAddr") [] []
      [mkInstructionEntry CGI_ADD (Some ADD_pattern)] = OK E /\
    map (fun S => (LastDefSemaIdx S, LastDefNo S)) (InstSemas E) = [(2, 2)] /\
    Forall (fun S => fitsUnsigned S -> lastDef_recorded S) (InstSemas E).
Proof.
  eexists. split; [vm_compute; reflexivity|]. split; [reflexivity|].
  apply (collected_lastDef_recorded (CGP_example "SelectAddr") [] []
           [mkInstructionEntry CGI_ADD (Some ADD_pattern)]).
  vm_compute. reflexivity.
Defined.

Lemma walk_extends_witness :
  exists R st',
    flattenSubtree CGI_ADD ADD_value
      (LinearSemantics_ Target_example InstSemantics_) = OK (R, st') /\
    length (Semantics (Sema st')) = 3%nat /\
    extends (LinearSemantics_ Target_example InstSemantics_) st'.
Proof.
  eexists. eexists. split; [vm_compute; reflexivity|].
  split; [reflexivity|].
  apply (proj1 (walk_extends CGI_ADD) ADD_value
           (LinearSemantics_ Target_example InstSemantics_)
           [mkLSResult 2 i32]).
  vm_compute. reflexivity.
Defined.


(** ** Invariants of the target through the walk *)

Section TargetInvariants.

Variable CGI : CodeGenInstruction.
Variable Q : SemanticsTarget -> Prop.
Hypothesis Q_constant : forall v T, Q T -> Q (snd (internConstant v T)).
Hypothesis Q_predicate : forall R T,
  Q T ->
  Q (set_EncounteredPredicates T (SetVector_insert R (EncounteredPredicates T))).

Let P (st : LinearSemantics) : Prop := Q (Target st).

Lemma target_addSemantics NS : preserves P (addSemantics NS).
Proof.
  apply preserves_modify. intros st H. unfold P.
  now rewrite addSemantics_Target.
Qed.

Lemma target_with_Sema f : preserves P (modify (with_Sema f)).
Proof. apply preserves_modify. intros st H. exact H. Qed.

Lemma target_flattenOperand N OpInfo :
  preserves P (flattenOperand CGI N OpInfo).
Proof.
  unfold flattenOperand. preserve;
    first [ apply preserves_soleType | apply target_addSemantics
          | apply preserves_modify; intros ? H; exact H ].
Qed.

Lemma target_flattenLeaf N V : preserves P (flattenLeaf CGI N V).
Proof.
  unfold flattenLeaf. apply preserves_bind; [apply preserves_soleType|].
  intros Ty0. destruct V as [v | R |].
  - intros st R st' Hst Hrun.
    apply bind_OK in Hrun as (s & st1 & Hget & Hrun).
    apply get_OK in Hget as [-> ->].
    pose proof (Q_constant v _ Hst) as HQ.
    destruct (internConstant v (Target st)) as [Idx T']. simpl in HQ.
    monad_inv Hrun. unfold P. rewrite addSemantics_Target. exact HQ.
  - preserve. apply target_addSemantics.
  - apply preserves_fatal.
Qed.

Lemma target_produceResults b Tys : forall i Cur,
  preserves P (produceResults b Tys i Cur).
Proof.
  induction Tys as [|Ty Tys IH]; intros i Cur; simpl; preserve;
    first [apply IH | apply preserves_modify; intros ? H; exact H].
Qed.

Lemma target_flattenSDNode_on (f : TreePatternNode -> M LSResults)
    N Operator Preds Cs :
  Forall (fun C => preserves P (f C)) Cs ->
  preserves P (flattenSDNode_on CGI f N Operator Preds Cs).
Proof.
  intros Hf. unfold flattenSDNode_on.
  preserve;
    first [ apply target_addSemantics | apply target_produceResults
          | apply preserves_flattenChildren; exact Hf
          | apply preserves_modify; intros ? H; exact H
          | apply preserves_modify; intros ? H; apply Q_predicate; exact H ].
Qed.

Lemma target_flattenSubtree N : preserves P (flattenSubtree CGI N).
Proof.
  induction N as [Tys N V | Tys N Op Preds Cs II CI IH]
    using TreePatternNode_nested_ind.
  - simpl. destruct (getNamedOperand CGI N);
      (apply preserves_bind; [|intros; apply preserves_ret]).
    + apply target_flattenOperand.
    + apply target_flattenLeaf.
  - change (flattenSubtree CGI (OpNode Tys N Op Preds Cs II CI)) with
      (match getNamedOperand CGI N with
       | Some OpInfo =>
           let* R := flattenOperand CGI (OpNode Tys N Op Preds Cs II CI) OpInfo
           in ret [R]
       | None =>
           flattenSDNode_on CGI (flattenSubtree CGI)
             (OpNode Tys N Op Preds Cs II CI) Op Preds Cs
       end).
    destruct (getNamedOperand CGI N).
    + apply preserves_bind; [|intros; apply preserves_ret].
      apply target_flattenOperand.
    + apply target_flattenSDNode_on. exact IH.
Qed.

Lemma target_flattenSetDefs N CR Defs : forall i,
  preserves P (flattenSetDefs CGI N CR Defs i).
Proof.
  induction Defs as [|Child Defs IH]; intros i; simpl; [apply preserves_ret|].
  apply preserves_bind; [|intros; apply IH].
  unfold flattenSetDef. preserve;
    first [ apply target_addSemantics
          | apply preserves_modify; intros ? H; exact H ].
Qed.

Lemma target_flatten N : preserves P (flatten CGI N).
Proof.
  unfold flatten.
  destruct N as [|Tys N Op Preds Cs II CI]; [apply preserves_fatal|].
  destruct (String.eqb _ _); [apply preserves_ret|].
  destruct (String.eqb _ _).
  - unfold flattenSet. preserve;
      first [apply target_flattenSubtree | apply target_flattenSetDefs].
  - apply preserves_bind; [|intros; apply preserves_assert].
    apply target_flattenSDNode_on. apply Forall_forall. intros C _.
    apply target_flattenSubtree.
Qed.

Lemma target_flattenTrees Trees : preserves P (flattenTrees CGI Trees).
Proof.
  induction Trees as [|N Trees IH]; simpl; [apply preserves_ret|].
  apply preserves_bind; [apply target_flatten | intros; exact IH].
Qed.

Lemma target_linearize TP T u Flat :
  Q T -> linearize CGI TP T = OK (u, Flat) -> Q (Target Flat).
Proof.
  intros HT Hrun. unfold linearize in Hrun.
  apply bind_OK in Hrun as (u1 & st1 & H1 & Hrun).
  apply modify_OK in Hrun as ->.
  apply (target_flattenTrees TP
           (LinearSemantics_ T (set_Pattern TP InstSemantics_)) u1 st1);
    [exact HT | exact H1].
Qed.

End TargetInvariants.

Section TargetCollected.

Variable Q : SemanticsTarget -> Prop.
Hypothesis Q_constant : forall v T, Q T -> Q (snd (internConstant v T)).
Hypothesis Q_predicate : forall R T,
  Q T ->
  Q (set_EncounteredPredicates T (SetVector_insert R (EncounteredPredicates T))).

Lemma target_parseInstSemantics i CGI TP E E' :
  parseInstSemantics i CGI TP E = OK E' ->
  Q (SemaTarget E) -> Q (SemaTarget E').
Proof.
  intros H HE.
  destruct (parseInstSemantics_cases _ _ _ _ _ H) as (Flat' & Hl & -> & _).
  eapply target_linearize; eauto.
Qed.

Lemma target_ParseSemantics CGIByEnum Instrs : forall E E',
  ParseSemantics CGIByEnum Instrs E = OK E' ->
  Q (SemaTarget E) -> Q (SemaTarget E').
Proof.
  induction Instrs as [|SD Instrs IH]; intros E E'; simpl.
  - now intros [= <-].
  - destruct (CGIByEnum !! Inst SD) as [Entry|]; [|discriminate].
    destruct (parseInstSemantics _ _ _ E) as [E1|] eqn:E1eq; [|discriminate].
    intros H HE. eapply IH; [exact H|].
    eapply target_parseInstSemantics; eauto.
Qed.

Lemma target_parsePatterns Entries : forall i E E',
  parsePatterns Entries i E = OK E' ->
  Q (SemaTarget E) -> Q (SemaTarget E').
Proof.
  induction Entries as [|Entry Entries IH]; intros i E E'; simpl.
  - now intros [= <-].
  - destruct (negb _); [apply IH|].
    destruct (DIPattern Entry) as [TP|]; [|apply IH].
    destruct (negb (isCodeGenOnly _)); [|apply IH].
    destruct (parseInstSemantics _ _ _ E) as [E1|] eqn:E1eq; [|discriminate].
    intros H HE. eapply IH; [exact H|].
    eapply target_parseInstSemantics; eauto.
Qed.

Lemma target_SemanticsEmitter CGP Equivs Instrs CGIByEnum E :
  Q (SemanticsTarget_ CGP Equivs) ->
  SemanticsEmitter_ CGP Equivs Instrs CGIByEnum = OK E ->
  Q (SemaTarget E).
Proof.
  intros H0. unfold SemanticsEmitter_.
  destruct (ParseSemantics _ _ _) as [E1|] eqn:H1; [|discriminate].
  intros H2. eapply target_parsePatterns; [exact H2|].
  eapply target_ParseSemantics; [exact H1|]. exact H0.
Qed.

End TargetCollected.


(** ** The constant pool of the collected semantics *)

Lemma rep_size (m : gmap Z Z) D : forall off,
  NoDup D ->
  (forall k idx, m !! k = Some idx <->
                 exists i : nat, D !! i = Some k /\ idx = Z.of_nat i + off) ->
  size m = length D.
Proof.
  revert m. induction D as [|k D IH]; intros m off Hnd Hrep.
  - assert (m = ∅) as ->; [|apply map_size_empty].
    apply map_empty. intros k.
    destruct (m !! k) as [idx|] eqn:E; [|reflexivity].
    apply Hrep in E as (i & Hi & _). now rewrite lookup_nil in Hi.
  - apply NoDup_cons in Hnd as [Hk Hnd].
    assert (Hmk : m !! k = Some (0 + off))
      by (apply Hrep; exists 0%nat; split; reflexivity).
    assert (Hs : size (delete k m) = length D).
    { apply (IH _ (off + 1) Hnd). intros k' idx. split.
      - intros H. apply lookup_delete_Some in H as [Hne H].
        apply Hrep in H as (i & Hi & ->).
        destruct i as [|i]; [simpl in Hi; congruence|].
        exists i. split; [exact Hi | lia].
      - intros (i & Hi & ->). apply lookup_delete_Some. split.
        + intros <-. apply Hk. eapply list_elem_of_lookup_2; eauto.
        + apply Hrep. exists (S i). split; [exact Hi | lia]. }
    rewrite map_size_delete, Hmk in Hs. simpl.
    destruct (size m) eqn:Em; [|simpl in Hs; congruence].
    apply map_size_empty_inv in Em. rewrite Em, lookup_empty in Hmk.
    discriminate.
Qed.

Lemma pool_rep_size T D :
  pool_rep T D -> size (ConstantIdx T) = length D.
Proof. intros (_ & Hnd & Hrep). exact (rep_size _ _ 1 Hnd Hrep). Qed.

Lemma internConstant_size v T :
  (size (ConstantIdx T) <= size (ConstantIdx (snd (internConstant v T))))%nat.
Proof.
  unfold internConstant. destruct (_ =? 0); simpl; [|lia].
  rewrite map_size_insert. destruct (ConstantIdx T !! wrap64 v); simpl; lia.
Qed.

Lemma pool_inv_constant v T : pool_inv T -> pool_inv (snd (internConstant v T)).
Proof.
  intros [[D HD] | Hbig].
  - destruct (decide (wrap64 v ∈ D)) as [Hin | Hin].
    + apply list_elem_of_lookup_1 in Hin as [i Hi].
      rewrite (intern_seen _ _ _ _ HD Hi). left. eauto.
    + destruct (Z_lt_le_dec (Z.of_nat (length D)) 65535) as [Hlt | Hge].
      * destruct (intern_fresh _ _ _ HD Hin Hlt) as (T' & -> & HT').
        left. eauto.
      * right. pose proof (pool_rep_size _ _ HD) as Hs.
        pose proof (pool_rep_absent _ _ _ HD Hin) as Hnone.
        unfold internConstant. rewrite Hnone. simpl.
        rewrite map_size_insert_None by exact Hnone. lia.
  - right. pose proof (internConstant_size v T). lia.
Qed.

Lemma pool_inv_predicate R T :
  pool_inv T ->
  pool_inv
    (set_EncounteredPredicates T (SetVector_insert R (EncounteredPredicates T))).
Proof. intros [[D HD] | Hbig]; [left; exists D; exact HD | right; exact Hbig]. Qed.

Lemma storeConstants_spec CIs : forall Constants,
  (forall k idx, (k, idx) ∈ CIs -> 1 <= idx <= Z.of_nat (length Constants)) ->
  exists Constants',
    storeConstants CIs Constants = OK Constants' /\
    length Constants' = length Constants /\
    forall i : nat,
      ((forall k, (k, Z.of_nat i + 1) ∉ CIs) ->
       Constants' !! i = Constants !! i) /\
      (forall k, (k, Z.of_nat i + 1) ∈ CIs ->
                 (forall k', (k', Z.of_nat i + 1) ∈ CIs -> k' = k) ->
                 Constants' !! i = Some k).
Proof.
  induction CIs as [|[k0 idx0] CIs IH]; intros Constants Hrange.
  - exists Constants. split; [reflexivity|]. split; [reflexivity|].
    intros i. split; [reflexivity|]. intros k Hk. now apply elem_of_nil in Hk.
  - assert (H0 : 1 <= idx0 <= Z.of_nat (length Constants))
      by (apply (Hrange k0); left).
    cbn [storeConstants fst snd].
    replace ((0 <=? idx0 - 1) && (idx0 - 1 <? Z.of_nat (length Constants)))
      with true
      by (symmetry; apply andb_true_iff; split;
          [apply Z.leb_le | apply Z.ltb_lt]; lia).
    destruct (IH (<[Z.to_nat (idx0 - 1) := k0]> Constants))
      as (C' & Hrun & Hlen & Hspec).
    { intros k idx Hin. rewrite length_insert. apply (Hrange k). now right. }
    exists C'. split; [exact Hrun|]. rewrite length_insert in Hlen.
    split; [exact Hlen|]. intros i. destruct (Hspec i) as [Hout Hin]. split.
    + intros Hno. rewrite Hout.
      * apply list_lookup_insert_ne. intros E.
        apply (Hno k0). replace (Z.of_nat i + 1) with idx0 by lia. left.
      * intros k Hk. apply (Hno k). now right.
    + intros k Hk Hfun.
      destruct (decide ((k, Z.of_nat i + 1) ∈ CIs)) as [Hin' | Hnin].
      * apply Hin; [exact Hin'|]. intros k' Hk'. apply Hfun. now right.
      * apply elem_of_cons in Hk as [[= -> <-] | Hk]; [|contradiction].
        rewrite Hout.
        -- replace (Z.to_nat (Z.of_nat i + 1 - 1)) with i by lia.
           apply list_lookup_insert_eq. lia.
        -- intros k' Hk'. assert (k' = k0) as -> by (apply Hfun; now right).
           contradiction.
Qed.

Lemma ConstantArray_pool_rep T D : pool_rep T D -> ConstantArray T = OK D.
Proof.
  intros HD. pose proof (pool_rep_size _ _ HD) as Hs.
  destruct HD as (Hcur & Hnd & Hrep).
  unfold ConstantArray, ConstantArray_assert. rewrite Hcur, Hs, Z.eqb_refl.
  simpl. rewrite Nat2Z.id.
  assert (Hin : forall k idx,
            (k, idx) ∈ entries (ConstantIdx T) <->
            exists i : nat, D !! i = Some k /\ idx = Z.of_nat i + 1).
  { intros k idx. unfold entries. rewrite merge_sort_Permutation.
    rewrite elem_of_map_to_list. apply Hrep. }
  destruct (storeConstants_spec (entries (ConstantIdx T))
              (replicate (length D) 0)) as (C' & -> & Hlen & Hspec).
  { intros k idx Hk. apply Hin in Hk as (i & Hi & ->).
    rewrite length_replicate. apply lookup_lt_Some in Hi. lia. }
  f_equal. rewrite length_replicate in Hlen. apply list_eq. intros i.
  destruct (D !! i) as [k|] eqn:Hi.
  - apply (proj2 (Hspec i)).
    + apply Hin. eauto.
    + intros k' Hk'. apply Hin in Hk' as (j & Hj & Hij).
      assert (j = i) as -> by lia. congruence.
  - apply lookup_ge_None. apply lookup_ge_None in Hi. lia.
Qed.

(** X8: when the pool of the collected semantics holds at most 65535
    constants, the assertion of [run] on the pool holds and the array
    [ConstantArray[]] that [run] prints is the list of the constants that
    were uniqued, each once: the constant of pool index [Idx] is the element
    [Idx - 1], the operand that [flattenLeaf] emitted for it. *)
Theorem collected_ConstantArray CGP Equivs Instrs CGIByEnum E :
  SemanticsEmitter_ CGP Equivs Instrs CGIByEnum = OK E ->
  Z.of_nat (size (ConstantIdx (SemaTarget E))) <= 65535 ->
  exists D,
    ConstantArray (SemaTarget E) = OK D /\ NoDup D /\
    forall k idx,
      ConstantIdx (SemaTarget E) !! k = Some idx <->
      1 <= idx /\ D !! Z.to_nat (idx - 1) = Some k.
Proof.
  intros HE Hsize.
  destruct (target_SemanticsEmitter pool_inv pool_inv_constant
              pool_inv_predicate CGP Equivs Instrs CGIByEnum E)
    as [[D HD] | Hbig]; [|exact HE| |lia].
  { left. exists []. now apply pool_rep_empty. }
  exists D. split; [now apply ConstantArray_pool_rep|].
  destruct HD as (_ & Hnd & Hrep). split; [exact Hnd|].
  intros k idx. rewrite Hrep. split.
  - intros (i & Hi & ->). split; [lia|].
    now replace (Z.to_nat (Z.of_nat i + 1 - 1)) with i by lia.
  - intros [H1 Hi]. exists (Z.to_nat (idx - 1)). split; [exact Hi | lia].
Qed.

Lemma collected_ConstantArray_witness :
  exists E,
    SemanticsEmitter_ (CGP_example "SelectAddr") [] []
      [mkInstructionEntry CGI_example (Some [store_5_5])] = OK E /\
    ConstantArray (SemaTarget E) = OK [5] /\
    exists D,
      ConstantArray (SemaTarget E) = OK D /\ NoDup D /\
      forall k idx,
        ConstantIdx (SemaTarget E) !! k = Some idx <->
        1 <= idx /\ D !! Z.to_nat (idx - 1) = Some k.
Proof.
  eexists. split; [vm_compute; reflexivity|].
  split; [vm_compute; reflexivity|].
  apply (collected_ConstantArray (CGP_example "SelectAddr") [] []
           [mkInstructionEntry CGI_example (Some [store_5_5])]).
  - vm_compute. reflexivity.
  - vm_compute. discriminate.
Defined.

(** ** The predicates met *)

Lemma SetVector_insert_prefix R V : V `prefix_of` SetVector_insert R V.
Proof.
  unfold SetVector_insert. destruct (existsb _ V); [reflexivity|].
  now apply prefix_app_r.
Qed.

Lemma SetVector_insert_NoDup R V :
  NoDup (map getName V) -> NoDup (map getName (SetVector_insert R V)).
Proof.
  intros Hnd. unfold SetVector_insert.
  destruct (existsb _ V) eqn:E; [exact Hnd|].
  rewrite map_app. simpl. apply NoDup_app. split; [exact Hnd|].
  split; [|apply NoDup_singleton].
  intros n Hn ->%list_elem_of_singleton.
  apply list_elem_of_fmap in Hn as (R' & HR' & Hin).
  assert (existsb (fun R'0 => (getName R'0 =? getName R)%string) V = true);
    [|congruence].
  apply existsb_exists. exists R'. split; [now apply list_elem_of_In|].
  apply String.eqb_eq. congruence.
Qed.

Lemma predicates_inv_constant V0 v T :
  predicates_inv V0 T -> predicates_inv V0 (snd (internConstant v T)).
Proof.
  unfold predicates_inv, internConstant. now destruct (_ =? 0).
Qed.

Lemma predicates_inv_predicate V0 R T :
  predicates_inv V0 T ->
  predicates_inv V0
    (set_EncounteredPredicates T (SetVector_insert R (EncounteredPredicates T))).
Proof.
  intros [H1 H2]. split; simpl.
  - etrans; [exact H1 | apply SetVector_insert_prefix].
  - now apply SetVector_insert_NoDup.
Qed.

(** X9: the predicates for which [run] prints a case of
    [getDCPredicateName] are pairwise distinct, and linearizing one more
    instruction keeps the predicates met before as the first ones, in their
    order. *)
Theorem collected_predicates_distinct :
  (forall CGP Equivs Instrs CGIByEnum E,
      SemanticsEmitter_ CGP Equivs Instrs CGIByEnum = OK E ->
      NoDup (map getName (EncounteredPredicates (SemaTarget E)))) /\
  (forall i CGI TP E E',
      parseInstSemantics i CGI TP E = OK E' ->
      NoDup (map getName (EncounteredPredicates (SemaTarget E))) ->
      EncounteredPredicates (SemaTarget E)
        `prefix_of` EncounteredPredicates (SemaTarget E') /\
      NoDup (map getName (EncounteredPredicates (SemaTarget E')))).
Proof.
  split.
  - intros CGP Equivs Instrs CGIByEnum E HE.
    apply (target_SemanticsEmitter (predicates_inv [])
             (predicates_inv_constant []) (predicates_inv_predicate [])
             CGP Equivs Instrs CGIByEnum E); [|exact HE].
    split; [reflexivity | constructor].
  - intros i CGI TP E E' HE Hnd.
    apply (target_parseInstSemantics
             (predicates_inv (EncounteredPredicates (SemaTarget E)))
             (predicates_inv_constant _) (predicates_inv_predicate _)
             i CGI TP E E' HE).
    split; [reflexivity | exact Hnd].
Qed.

(** The predicate of [(store<<P:isTrunc>> 5)], met twice. *)
Lemma collected_predicates_distinct_witness :
  exists E,
    SemanticsEmitter_ (CGP_example "SelectAddr") [] []
      [mkInstructionEntry CGI_example
         (Some [store_if_trunc; store_if_trunc])] = OK E /\
    map getName (EncounteredPredicates (SemaTarget E)) = ["isTrunc"%string] /\
    NoDup (map getName (EncounteredPredicates (SemaTarget E))).
Proof.
  eexists. split; [vm_compute; reflexivity|]. split; [reflexivity|].
  apply (proj1 collected_predicates_distinct (CGP_example "SelectAddr") [] []
           [mkInstructionEntry CGI_example
              (Some [store_if_trunc; store_if_trunc])]).
  vm_compute. reflexivity.
Defined.

(** ** The indices of the collected semantics *)

Lemma wrap32_le (n : Z) : 0 <= n -> 0 <= wrap32 n <= n.
Proof.
  intros H. unfold wrap32. split; [apply Z.mod_pos_bound; lia|].
  apply Z.mod_le; lia.
Qed.

Lemma parseInstSemantics_inv i CGI TP E E' :
  parseInstSemantics i CGI TP E = OK E' ->
  collected_inv E ->
  collected_inv E' /\ length (InstIdx E') = length (InstIdx E) /\
  forall (j : nat) k, j <> i -> InstIdx E !! j = Some k ->
                      InstIdx E' !! j = Some k.
Proof.
  intros H (Hv & Hr & Hd).
  destruct (parseInstSemantics_cases _ _ _ _ _ H)
    as (Flat' & Hl & _ & [(_ & HS & HI) | (Hrej & HS & HI)]).
  { unfold collected_inv, indices_valid, indices_distinct.
    rewrite HS, HI. auto. }
  pose proof (wrap32_le (Z.of_nat (length (InstSemas E)))) as Hw.
  split; [|split].
  - unfold collected_inv, indices_valid, indices_distinct.
    rewrite HS, HI, length_app, Nat2Z.inj_add. simpl. split; [|split].
    + intros j k Hj. destruct (decide (i = j)) as [-> | Hne].
      * apply list_lookup_insert_Some in Hj as [(_ & <- & _) | [? _]];
          [right; lia | congruence].
      * rewrite list_lookup_insert_ne in Hj by exact Hne.
        destruct (Hv j k Hj); [now left | right; lia].
    + apply Forall_app. split; [exact Hr | repeat constructor; exact Hrej].
    + intros Hlen j1 j2 k H1 H2 Hk.
      assert (Hfresh : forall j, j <> i -> InstIdx E !! j = Some k ->
                wrap32 (Z.of_nat (length (InstSemas E))) <> k).
      { intros j Hj Hjk. destruct (Hv j k Hjk) as [-> | Hlt]; [congruence|].
        unfold wrap32. rewrite Z.mod_small by lia. lia. }
      destruct (decide (i = j1)) as [<- | Hne1];
        destruct (decide (i = j2)) as [<- | Hne2]; [reflexivity| | |].
      * apply list_lookup_insert_Some in H1 as [(_ & <- & _) | [? _]];
          [|congruence].
        rewrite list_lookup_insert_ne in H2 by exact Hne2.
        exfalso. eapply Hfresh; [|exact H2|reflexivity]. congruence.
      * apply list_lookup_insert_Some in H2 as [(_ & <- & _) | [? _]];
          [|congruence].
        rewrite list_lookup_insert_ne in H1 by exact Hne1.
        exfalso. eapply Hfresh; [|exact H1|reflexivity]. congruence.
      * rewrite list_lookup_insert_ne in H1, H2 by assumption.
        apply (Hd ltac:(lia) j1 j2 k H1 H2 Hk).
  - rewrite HI. apply length_insert.
  - intros j k Hne Hj. rewrite HI.
    rewrite list_lookup_insert_ne by congruence. exact Hj.
Qed.

Lemma ParseSemantics_inv CGIByEnum Instrs : forall E E',
  ParseSemantics CGIByEnum Instrs E = OK E' ->
  collected_inv E ->
  collected_inv E' /\ length (InstIdx E') = length (InstIdx E).
Proof.
  induction Instrs as [|SD Instrs IH]; intros E E'; simpl.
  - intros [= <-]. auto.
  - destruct (CGIByEnum !! Inst SD) as [Entry|]; [|discriminate].
    destruct (parseInstSemantics _ _ _ E) as [E1|] eqn:E1eq; [|discriminate].
    intros H HE.
    destruct (parseInstSemantics_inv _ _ _ _ _ E1eq HE) as (H1 & H2 & _).
    destruct (IH _ _ H H1) as [H3 H4]. split; [exact H3 | congruence].
Qed.

Lemma parsePatterns_inv Entries : forall i E E',
  parsePatterns Entries i E = OK E' ->
  collected_inv E ->
  collected_inv E' /\ length (InstIdx E') = length (InstIdx E) /\
  forall (j : nat) k, InstIdx E !! j = Some k -> k <> NoIdx ->
                      InstIdx E' !! j = Some k.
Proof.
  induction Entries as [|Entry Entries IH]; intros i E E'; simpl.
  - intros [= <-]. auto.
  - destruct (Z.eqb_spec (default NoIdx (InstIdx E !! i)) NoIdx) as [Hno|Hyes];
      simpl; [|apply IH].
    destruct (DIPattern Entry) as [TP|]; [|apply IH].
    destruct (negb (isCodeGenOnly _)); [|apply IH].
    destruct (parseInstSemantics _ _ _ E) as [E1|] eqn:E1eq; [|discriminate].
    intros H HE.
    destruct (parseInstSemantics_inv _ _ _ _ _ E1eq HE) as (H1 & H2 & H3).
    destruct (IH _ _ _ H H1) as (H4 & H5 & H6).
    split; [exact H4|]. split; [congruence|].
    intros j k Hj Hk. apply H6; [|exact Hk]. apply H3; [|exact Hj].
    intros ->. rewrite Hj in Hno. simpl in Hno. contradiction.
Qed.

Lemma collected_inv_initial (n : nat) T :
  collected_inv (mkSemanticsEmitter [] (replicate n NoIdx) T).
Proof.
  split; [|split]; simpl.
  - intros i k Hi. apply lookup_replicate in Hi as [-> _]. now left.
  - constructor.
  - intros _ i j k Hi _ Hk. apply lookup_replicate in Hi as [-> _].
    contradiction.
Qed.

Lemma SemanticsEmitter_inv CGP Equivs Instrs CGIByEnum E :
  SemanticsEmitter_ CGP Equivs Instrs CGIByEnum = OK E ->
  collected_inv E /\ length (InstIdx E) = length CGIByEnum.
Proof.
  unfold SemanticsEmitter_.
  destruct (ParseSemantics _ _ _) as [E1|] eqn:H1; [|discriminate].
  intros H2.
  destruct (ParseSemantics_inv _ _ _ _ H1 (collected_inv_initial _ _))
    as [H3 H4].
  destruct (parsePatterns_inv _ _ _ _ H2 H3) as (H5 & H6 & _).
  split; [exact H5|]. rewrite H6, H4. simpl. apply length_replicate.
Qed.

(** X10: the constructor leaves one entry of [InstIdx] per instruction;
    every entry is [~0U] or the index of a collected semantics, and, as long
    as the number of collected semantics fits [unsigned], no two instructions
    share an index. *)
Theorem constructor_indices CGP Equivs Instrs CGIByEnum E :
  SemanticsEmitter_ CGP Equivs Instrs CGIByEnum = OK E ->
  length (InstIdx E) = length CGIByEnum /\
  indices_valid E /\
  (Z.of_nat (length (InstSemas E)) < 2 ^ 32 -> indices_distinct E).
Proof.
  intros HE. destruct (SemanticsEmitter_inv _ _ _ _ _ HE) as [(H1 & _ & H2) H3].
  auto.
Qed.

Lemma parseInstSemantics_frame i CGI TP E E' :
  parseInstSemantics i CGI TP E = OK E' ->
  (forall (j : nat) k, j <> i -> InstIdx E !! j = Some k ->
                       InstIdx E' !! j = Some k) /\
  InstSemas E `prefix_of` InstSemas E'.
Proof.
  intros H.
  destruct (parseInstSemantics_cases _ _ _ _ _ H)
    as (Flat' & _ & _ & [(_ & -> & ->) | (_ & -> & ->)]).
  - split; [auto | reflexivity].
  - split; [|now apply prefix_app_r].
    intros j k Hne Hj. now rewrite list_lookup_insert_ne by congruence.
Qed.

(** X11: an instruction that has its semantics when the loop of the
    constructor over the instruction patterns starts keeps it: the loop
    changes only entries of [InstIdx] that are [~0U], and only adds to the
    collected semantics, so a [Semantics] record takes precedence over the
    pattern of the instruction. *)
Theorem parsePatterns_keeps_semantics Entries : forall i E E' (j : nat) k,
  parsePatterns Entries i E = OK E' ->
  InstIdx E !! j = Some k -> k <> NoIdx ->
  InstIdx E' !! j = Some k /\
  InstSemas E `prefix_of` InstSemas E'.
Proof.
  induction Entries as [|Entry Entries IH]; intros i E E' j k; simpl.
  - intros [= <-]. auto.
  - destruct (Z.eqb_spec (default NoIdx (InstIdx E !! i)) NoIdx) as [Hno|Hyes];
      simpl; [|apply IH].
    destruct (DIPattern Entry) as [TP|]; [|apply IH].
    destruct (negb (isCodeGenOnly _)); [|apply IH].
    destruct (parseInstSemantics _ _ _ E) as [E1|] eqn:E1eq; [|discriminate].
    intros H Hj Hk.
    destruct (parseInstSemantics_frame _ _ _ _ _ E1eq) as [H1 H2].
    destruct (IH _ _ _ j k H) as [H3 H4]; [|exact Hk|].
    + apply H1; [|exact Hj]. intros ->. rewrite Hj in Hno. simpl in Hno.
      contradiction.
    + split; [exact H3 | etrans; eauto].
Qed.

(** ** The layout of the semantics table *)

Section Layout.

Variable TG : string.
Variable VTn : SimpleValueType -> string.

Lemma emitNode_length NS :
  Z.of_nat (length (emitNode VTn NS))
    = 2 + Z.of_nat (length (NodeTypes NS))
        + Z.of_nat (length (NodeOperands NS)).
Proof.
  unfold emitNode, printed_operands. simpl.
  rewrite length_app, !length_map. lia.
Qed.

Lemma emitNodes_fst Prog : forall I L Cur LO,
  fst (emitNodes VTn Prog I L Cur LO) = concat (map (emitNode VTn) Prog).
Proof.
  induction Prog as [|NS Prog IH]; intros I L Cur LO; [reflexivity|].
  cbn [emitNodes map concat]. cbv zeta.
  specialize (IH (I + 1) L
    (wrap32 (wrap32 (wrap32 (wrap32 (Cur + 1) + 1)
       + Z.of_nat (length (NodeTypes NS)))
       + Z.of_nat (length (NodeOperands NS))))
    (if I =? L then Cur else LO)).
  destruct (emitNodes VTn Prog _ _ _ _) as [Out r]. simpl in *. now rewrite IH.
Qed.

Lemma emitNodes_cur Prog : forall I L Cur LO,
  0 <= Cur ->
  Cur + Z.of_nat (length (concat (map (emitNode VTn) Prog))) < 2 ^ 32 ->
  fst (snd (emitNodes VTn Prog I L Cur LO))
    = Cur + Z.of_nat (length (concat (map (emitNode VTn) Prog))).
Proof.
  induction Prog as [|NS Prog IH]; intros I L Cur LO H0 Hlt.
  - simpl. lia.
  - cbn [emitNodes map concat] in *. cbv zeta.
    rewrite length_app, Nat2Z.inj_add, emitNode_length in Hlt.
    rewrite length_app, Nat2Z.inj_add, emitNode_length.
    assert (Hc : wrap32 (wrap32 (wrap32 (wrap32 (Cur + 1) + 1)
                   + Z.of_nat (length (NodeTypes NS)))
                   + Z.of_nat (length (NodeOperands NS)))
                 = Cur + 2 + Z.of_nat (length (NodeTypes NS))
                   + Z.of_nat (length (NodeOperands NS))).
    { unfold wrap32. rewrite (Z.mod_small (Cur + 1)) by lia.
      rewrite (Z.mod_small (Cur + 1 + 1)) by lia.
      rewrite (Z.mod_small (Cur + 1 + 1 + _)) by lia.
      rewrite Z.mod_small by lia. lia. }
    rewrite Hc.
    specialize (IH (I + 1) L
      (Cur + 2 + Z.of_nat (length (NodeTypes NS))
       + Z.of_nat (length (NodeOperands NS)))
      (if I =? L then Cur else LO)).
    destruct (emitNodes VTn Prog _ _ _ _) as [Out r]. simpl in *.
    rewrite IH by lia. lia.
Qed.

(** One instruction: what [emitInst TG VTn] does when it succeeds. *)
Lemma emitInst_OK InstSemas I st st' :
  emitInst TG VTn InstSemas I st = OK st' ->
  exists Idx, TInstIdx st !! Z.to_nat I = Some Idx /\
    ((Idx = NoIdx /\ st' = st) \/
     (Idx <> NoIdx /\
      exists Sema,
        InstSemas !! Z.to_nat Idx = Some Sema /\
        TInstIdx st' = <[Z.to_nat I := CurSemaOffset st]> (TInstIdx st) /\
        (Z.of_nat (length (Semantics Sema)) < 2 ^ 32 ->
         TableOS st' = TableOS st ++ semaElements TG VTn Sema /\
         (0 <= CurSemaOffset st ->
          CurSemaOffset st + Z.of_nat (length (semaElements TG VTn Sema)) < 2 ^ 32 ->
          CurSemaOffset st'
            = CurSemaOffset st + Z.of_nat (length (semaElements TG VTn Sema)))))).
Proof.
  unfold emitInst.
  destruct (TInstIdx st !! Z.to_nat I) as [Idx|]; [|discriminate].
  intros H. exists Idx. split; [reflexivity|].
  destruct (Z.eqb_spec Idx NoIdx) as [Heq | Hne].
  { injection H as <-. now left. }
  right. split; [exact Hne|].
  destruct (InstSemas !! Z.to_nat Idx) as [Sema|]; [|discriminate].
  exists Sema. split; [reflexivity|].
  pose proof (emitNodes_fst
    (take (Z.to_nat (wrap32 (Z.of_nat (length (Semantics Sema)))))
       (Semantics Sema)) 0 (LastDefSemaIdx Sema)
    (wrap32 (CurSemaOffset st + 1)) NoIdx) as Hout.
  pose proof (emitNodes_cur
    (take (Z.to_nat (wrap32 (Z.of_nat (length (Semantics Sema)))))
       (Semantics Sema)) 0 (LastDefSemaIdx Sema)
    (wrap32 (CurSemaOffset st + 1)) NoIdx) as Hcur.
  destruct (emitNodes _ _ _ _ _ _) as [Out [Cur LO]]. simpl in Hout, Hcur.
  unfold emitImplicit in H.
  destruct (negb _); [discriminate|].
  assert (Himp : exists Imp,
    OK Imp = match ImplicitDefs Sema with
             | [] => OK []
             | R :: _ =>
                 if LastDefNo Sema =? NoIdx then
                   Fatal "Can't handle IMPLICIT without any other def!"
                 else OK ["DCINS::IMPLICIT"%string; "0"%string;
                          TG +:+ "::" +:+ getReg R]
             end /\
    Imp = match ImplicitDefs Sema with
          | [] => []
          | R :: _ => ["DCINS::IMPLICIT"%string; "0"%string;
                       TG +:+ "::" +:+ getReg R]
          end /\
    Z.of_nat (length Imp)
      = if bool_decide (ImplicitDefs Sema = []) then 0 else 3).
  { destruct (ImplicitDefs Sema) as [|R Rs].
    - exists []. auto.
    - destruct (LastDefNo Sema =? NoIdx); [discriminate|].
      eexists. split; [reflexivity|]. split; reflexivity. }
  destruct Himp as (Imp & HImp & HImpEq & HImpLen).
  rewrite <- HImp in H. injection H as <-. simpl.
  split; [reflexivity|]. intros Hfit.
  unfold wrap32 in Hout, Hcur.
  rewrite (Z.mod_small (Z.of_nat (length (Semantics Sema)))) in Hout, Hcur
    by lia.
  rewrite Nat2Z.id, firstn_all in Hout, Hcur.
  unfold semaElements. rewrite <- HImpEq, <- Hout.
  split; [reflexivity|]. intros H0 Hlt.
  rewrite !length_app, !Nat2Z.inj_add in Hlt. simpl in Hlt.
  rewrite (Z.mod_small (CurSemaOffset st + 1)) in Hcur by lia.
  rewrite <- Hout in Hcur. specialize (Hcur ltac:(lia) ltac:(lia)).
  rewrite !length_app, !Nat2Z.inj_add. simpl.
  case_bool_decide; unfold wrap32; [|rewrite Z.mod_small by lia]; lia.
Qed.

Lemma emitInst_prefix InstSemas I st st' :
  emitInst TG VTn InstSemas I st = OK st' ->
  TableOS st `prefix_of` TableOS st'.
Proof.
  unfold emitInst.
  destruct (TInstIdx st !! Z.to_nat I) as [Idx|]; [|discriminate].
  destruct (Idx =? NoIdx); [now intros [= <-]|].
  destruct (InstSemas !! Z.to_nat Idx) as [Sema|]; [|discriminate].
  destruct (emitNodes _ _ _ _ _ _) as [Out [Cur LO]].
  destruct (emitImplicit TG Sema) as [Imp|]; [|discriminate].
  intros [= <-]. simpl. now apply prefix_app_r.
Qed.

Lemma emitInsts_prefix InstSemas Is : forall st st',
  emitInsts TG VTn InstSemas Is st = OK st' ->
  TableOS st `prefix_of` TableOS st'.
Proof.
  induction Is as [|I0 Is IH]; intros st st'; simpl.
  - now intros [= <-].
  - destruct (emitInst TG VTn InstSemas I0 st) as [st1|] eqn:E1; [|discriminate].
    intros H. etrans; [eapply emitInst_prefix; exact E1 | eapply IH; exact H].
Qed.

Lemma semaElements_length Sema :
  (1 <= length (semaElements TG VTn Sema))%nat.
Proof. unfold semaElements. rewrite !length_app. simpl. lia. Qed.

Lemma semaElements_last Sema :
  last (semaElements TG VTn Sema) = Some END_OF_INSTRUCTION.
Proof. unfold semaElements. now rewrite !app_assoc, last_snoc. Qed.

Lemma listed_app Table X off Sema :
  listed TG VTn Table off Sema -> listed TG VTn (Table ++ X) off Sema.
Proof.
  intros (H1 & H2 & H3). split; [exact H1|]. split.
  - rewrite lookup_app_l; [exact H2|]. now apply lookup_lt_Some in H2.
  - rewrite drop_app, take_app_le; [exact H3|].
    apply (f_equal length) in H3. rewrite length_take in H3. lia.
Qed.

Lemma listed_lt Table off Sema :
  listed TG VTn Table off Sema -> off < Z.of_nat (length Table).
Proof.
  intros (H1 & _ & H3). apply (f_equal length) in H3.
  rewrite length_take, length_drop in H3.
  pose proof (semaElements_length Sema). lia.
Qed.

Lemma listed_new Table Sema :
  last Table = Some END_OF_INSTRUCTION ->
  listed TG VTn (Table ++ semaElements TG VTn Sema)
    (Z.of_nat (length Table)) Sema.
Proof.
  intros HL. assert (Hlen : (1 <= length Table)%nat).
  { apply last_Some in HL as [l' ->]. rewrite length_app. simpl. lia. }
  split; [lia|]. split.
  - rewrite lookup_app_l by lia. rewrite last_lookup in HL.
    replace (Z.to_nat (Z.of_nat (length Table) - 1)) with (pred (length Table))
      by lia.
    exact HL.
  - rewrite Nat2Z.id, drop_app_length. apply firstn_all.
Qed.

Section Loop.

Variable E : SemanticsEmitter.
Hypothesis Hfit :
  Forall (fun S => Z.of_nat (length (Semantics S)) < 2 ^ 32) (InstSemas E).

Lemma emitInst_inv (a : Z) st st' :
  1 <= a -> table_inv TG VTn E a st ->
  emitInst TG VTn (InstSemas E) a st = OK st' ->
  Z.of_nat (length (TableOS st')) < 2 ^ 32 ->
  table_inv TG VTn E (a + 1) st'.
Proof.
  intros Ha (I1 & I2 & I3 & I4 & I5) Hrun Hlt.
  apply emitInst_OK in Hrun as (Idx & HIdx & Hcase).
  assert (HIdxE : InstIdx E !! Z.to_nat a = Some Idx).
  { rewrite <- I4; [exact HIdx | right; lia]. }
  destruct Hcase as [[-> ->] | (Hne & Sema & HSema & HI' & HT)].
  - split; [exact I1|]. split; [exact I2|]. split; [exact I3|]. split.
    + intros i Hi. apply I4. lia.
    + intros i Hi. destruct (decide (Z.of_nat i = a)) as [<- | Hia].
      * rewrite Nat2Z.id in HIdx, HIdxE. unfold entry_listed.
        rewrite HIdxE, Z.eqb_refl. exact HIdx.
      * apply I5. lia.
  - assert (HfitS : Z.of_nat (length (Semantics Sema)) < 2 ^ 32).
    { rewrite Forall_forall in Hfit. apply Hfit.
      eapply list_elem_of_lookup_2. exact HSema. }
    destruct (HT HfitS) as [HTab HCur]. unfold table_inv.
    rewrite HTab in Hlt |- *.
    rewrite length_app, Nat2Z.inj_add in Hlt.
    rewrite HI', HCur by lia. clear HT HCur.
    split; [now rewrite length_insert|].
    split; [rewrite length_app, Nat2Z.inj_add; lia|].
    split.
    { rewrite last_app, semaElements_last. reflexivity. }
    assert (Hlk : forall i : nat, Z.of_nat i <> a ->
              <[Z.to_nat a := CurSemaOffset st]> (TInstIdx st) !! i
              = TInstIdx st !! i).
    { intros i Hi. apply list_lookup_insert_ne. lia. }
    split.
    + intros i Hi. rewrite Hlk by lia. apply I4. lia.
    + intros i Hi. unfold entry_listed.
      destruct (decide (Z.of_nat i = a)) as [<- | Hia].
      * rewrite Nat2Z.id in *. rewrite HIdxE.
        rewrite (proj2 (Z.eqb_neq _ _) Hne).
        exists Sema, (CurSemaOffset st). split; [exact HSema|]. split.
        -- apply list_lookup_insert_eq. apply lookup_lt_Some in HIdx. exact HIdx.
        -- rewrite I2. now apply listed_new.
      * specialize (I5 i ltac:(lia)). unfold entry_listed in I5.
        rewrite Hlk by exact Hia.
        destruct (InstIdx E !! i) as [k|]; [|exact I].
        destruct (k =? NoIdx); [exact I5|].
        destruct I5 as (S' & off & H1 & H2 & H3).
        exists S', off. split; [exact H1|]. split; [exact H2|].
        now apply listed_app.
Qed.

Lemma emitInsts_inv (n : nat) : forall (a : Z) st st',
  1 <= a -> table_inv TG VTn E a st ->
  emitInsts TG VTn (InstSemas E) (seqZ a (Z.of_nat n)) st = OK st' ->
  Z.of_nat (length (TableOS st')) < 2 ^ 32 ->
  table_inv TG VTn E (a + Z.of_nat n) st'.
Proof.
  induction n as [|n IH]; intros a st st' Ha Hinv Hrun Hlt.
  - simpl in Hrun. injection Hrun as <-. now rewrite Z.add_0_r.
  - rewrite Nat2Z.inj_succ, seqZ_cons in Hrun by lia.
    cbn [emitInsts] in Hrun.
    destruct (emitInst TG VTn (InstSemas E) a st) as [st1|] eqn:E1;
      [|discriminate].
    rewrite Z.pred_succ in Hrun.
    replace (a + Z.of_nat (S n)) with (Z.succ a + Z.of_nat n) by lia.
    apply (IH (Z.succ a) st1 st'); [lia| |exact Hrun|exact Hlt].
    apply (emitInst_inv a st st1 Ha Hinv E1).
    apply emitInsts_prefix in Hrun. apply prefix_length in Hrun. lia.
Qed.

End Loop.

End Layout.

(** X12: when [run] succeeds and the tables fit [unsigned], the array
    [InstSemantics[]] starts with [END_OF_INSTRUCTION], [OpcodeToSemaIdx[]]
    has one entry per instruction, and the entry of every instruction with
    a non-zero enum value is [~0U] when the instruction has no semantics and
    otherwise the offset in [InstSemantics[]] at which the operations of
    its semantics are listed, each with its opcode, counts, types and
    operands, then the implicit definition if there is one, then
    [END_OF_INSTRUCTION]; the element before that offset is the
    [END_OF_INSTRUCTION] of what precedes.  The entry of the instruction of
    enum value 0 is printed as the constructor left it: the loop starts
    at 1. *)
Theorem run_table_layout TGName VT_getEnumName CGIByEnum CPs E Tabs :
  run TGName VT_getEnumName CGIByEnum CPs E = OK Tabs ->
  Z.of_nat (length (InstIdx E)) < 2 ^ 32 ->
  Z.of_nat (length (InstSemanticsArray Tabs)) < 2 ^ 32 ->
  Forall (fun S => Z.of_nat (length (Semantics S)) < 2 ^ 32) (InstSemas E) ->
  InstSemanticsArray Tabs !! 0%nat = Some END_OF_INSTRUCTION /\
  length (OpcodeToSemaIdx Tabs) = length (InstIdx E) /\
  OpcodeToSemaIdx Tabs !! 0%nat =
    (fun k => if k =? NoIdx then "~0U"%string else utostr k)
      <$> InstIdx E !! 0%nat /\
  forall (i : nat) k, (1 <= i)%nat -> InstIdx E !! i = Some k ->
    if k =? NoIdx then OpcodeToSemaIdx Tabs !! i = Some "~0U"%string
    else exists Sema off,
        InstSemas E !! Z.to_nat k = Some Sema /\
        OpcodeToSemaIdx Tabs !! i = Some (utostr off) /\
        listed TGName VT_getEnumName (InstSemanticsArray Tabs) off Sema.
Proof.
  unfold run. destruct (negb _); [discriminate|].
  destruct (CPKinds _ _) as [Kinds|]; [|discriminate].
  destruct (emitInstSemantics _ _ E) as [st|] eqn:Hemit; [|discriminate].
  destruct (ConstantArray _) as [Constants|]; [|discriminate].
  intros [= <-] Hn Hlt Hfit.
  cbn [InstSemanticsArray OpcodeToSemaIdx] in *.
  unfold emitInstSemantics in Hemit.
  unfold wrap32 in Hemit. rewrite Z.mod_small in Hemit by lia.
  destruct (length (InstIdx E)) as [|n] eqn:Hlen.
  { exfalso. apply length_zero_iff_nil in Hlen.
    change (Z.of_nat 0 =? 0) with true in Hemit. cbv iota in Hemit.
    rewrite seqZ_cons in Hemit by lia. cbn [emitInsts] in Hemit.
    unfold emitInst at 1 in Hemit. cbn [TInstIdx] in Hemit.
    rewrite Hlen, lookup_nil in Hemit. discriminate. }
  rewrite (proj2 (Z.eqb_neq _ _)) in Hemit by lia.
  replace (Z.of_nat (S n) - 1) with (Z.of_nat n) in Hemit by lia.
  pose proof (emitInsts_prefix _ _ _ _ _ _ Hemit) as [Rest HRest].
  cbn [TableOS] in HRest.
  apply (emitInsts_inv TGName VT_getEnumName E Hfit) in Hemit;
    [|lia| |exact Hlt].
  2:{ split; [reflexivity|]. split; [reflexivity|]. split; [reflexivity|].
      split; [reflexivity|]. intros i Hi. lia. }
  destruct Hemit as (I1 & I2 & I3 & I4 & I5).
  assert (Htake : emitOpcodeToSemaIdx (TInstIdx st)
                  = map (fun Idx => if Idx =? NoIdx then "~0U"%string
                                    else utostr Idx) (TInstIdx st)).
  { unfold emitOpcodeToSemaIdx, wrap32. rewrite I1, Hlen.
    rewrite Z.mod_small by lia. rewrite Nat2Z.id, <- Hlen, <- I1.
    now rewrite firstn_all. }
  rewrite Htake. split; [now rewrite HRest|].
  split; [now rewrite length_map, I1|].
  split; [rewrite list_lookup_fmap, I4 by (now left); reflexivity|].
  intros i k Hi Hk. rewrite list_lookup_fmap.
  assert (Hin : 1 <= Z.of_nat i < 1 + Z.of_nat n).
  { apply lookup_lt_Some in Hk. lia. }
  specialize (I5 i Hin). unfold entry_listed in I5. rewrite Hk in I5.
  destruct (Z.eqb_spec k NoIdx) as [Hk0 | Hne].
  - rewrite I5. reflexivity.
  - destruct I5 as (Sema & off & H1 & H2 & H3).
    exists Sema, off. split; [exact H1|]. split; [|exact H3].
    rewrite H2. simpl.
    destruct (Z.eqb_spec off NoIdx) as [Hoff | _]; [|reflexivity].
    exfalso. apply listed_lt in H3. unfold NoIdx in Hoff. lia.
Qed.

(** ** [run] on what the constructor collected *)

Section Success.

Variable TG : string.
Variable VTn : SimpleValueType -> string.
Variable E : SemanticsEmitter.
Hypothesis Hinv : collected_inv E.

Lemma emitImplicit_accepted Sema :
  rejected Sema = false -> exists Imp, emitImplicit TG Sema = OK Imp.
Proof.
  unfold rejected, emitImplicit. intros H.
  apply orb_false_iff in H as [H H3]. apply orb_false_iff in H as [_ H2].
  apply Nat.ltb_ge in H2. rewrite (proj2 (Nat.leb_le _ _) H2). simpl.
  destruct (ImplicitDefs Sema) as [|R Rs]; [eauto|].
  rewrite bool_decide_eq_false_2 in H3 by discriminate. simpl in H3.
  rewrite H3. eauto.
Qed.

Lemma emitInst_succeeds (a : nat) st k :
  TInstIdx st !! a = Some k -> InstIdx E !! a = Some k ->
  exists st',
    emitInst TG VTn (InstSemas E) (Z.of_nat a) st = OK st' /\
    length (TInstIdx st') = length (TInstIdx st) /\
    forall i : nat, i <> a -> TInstIdx st' !! i = TInstIdx st !! i.
Proof.
  intros Hst HE. destruct Hinv as (Hv & Hr & _).
  unfold emitInst. rewrite Nat2Z.id, Hst.
  destruct (Z.eqb_spec k NoIdx) as [Hk | Hk]; [eauto|].
  destruct (Hv a k HE) as [? | Hlt]; [contradiction|].
  destruct (lookup_lt_is_Some_2 (InstSemas E) (Z.to_nat k)) as [Sema HSema];
    [lia|].
  rewrite HSema. destruct (emitNodes _ _ _ _ _ _) as [Out [Cur LO]].
  destruct (emitImplicit_accepted Sema) as [Imp ->].
  { rewrite Forall_forall in Hr. apply Hr.
    eapply list_elem_of_lookup_2. exact HSema. }
  eexists. split; [reflexivity|]. simpl.
  split; [apply length_insert|]. intros i Hi.
  now apply list_lookup_insert_ne.
Qed.

Lemma emitInsts_succeeds (n : nat) : forall (a : nat) st,
  (a + n <= length (InstIdx E))%nat ->
  length (TInstIdx st) = length (InstIdx E) ->
  (forall i : nat, (a <= i)%nat -> TInstIdx st !! i = InstIdx E !! i) ->
  exists st',
    emitInsts TG VTn (InstSemas E) (seqZ (Z.of_nat a) (Z.of_nat n)) st
      = OK st'.
Proof.
  induction n as [|n IH]; intros a st Hle Hlen Hsame.
  - simpl. eauto.
  - rewrite Nat2Z.inj_succ, seqZ_cons by lia. cbn [emitInsts].
    destruct (lookup_lt_is_Some_2 (InstIdx E) a) as [k Hk]; [lia|].
    destruct (emitInst_succeeds a st k) as (st1 & -> & H1 & H2);
      [now rewrite Hsame | exact Hk |].
    rewrite Z.pred_succ, <- Nat2Z.inj_succ.
    apply IH; [lia | congruence |].
    intros i Hi. rewrite H2 by lia. apply Hsame. lia.
Qed.

End Success.

Lemma sameCGP_constant CGP v T :
  CGPatterns T = CGP -> CGPatterns (snd (internConstant v T)) = CGP.
Proof. unfold internConstant. now destruct (_ =? 0). Qed.

(** X13: [run] does not fail on what the constructor collected: when
    there is at least one instruction, the number of instructions fits
    [unsigned], every selector function of a complex pattern has its prefix,
    and at most 65535 constants were uniqued, no assertion of [run] fails and
    no index it uses is out of range. *)
Theorem run_after_constructor TGName VT_getEnumName CGP Equivs Instrs
    CGIByEnum CPs E :
  SemanticsEmitter_ CGP Equivs Instrs CGIByEnum = OK E ->
  CGIByEnum <> [] -> Z.of_nat (length CGIByEnum) < 2 ^ 32 ->
  Z.of_nat (size (ConstantIdx (SemaTarget E))) <= 65535 ->
  isOK (sanitizeAll CPs CGP) = true ->
  exists Tabs, run TGName VT_getEnumName CGIByEnum CPs E = OK Tabs.
Proof.
  intros HE Hne Hlen Hpool HCPs.
  destruct (SemanticsEmitter_inv _ _ _ _ _ HE) as [Hinv HIdx].
  assert (HCGP : CGPatterns (SemaTarget E) = CGP).
  { apply (target_SemanticsEmitter (fun T => CGPatterns T = CGP)
             (sameCGP_constant CGP) (fun _ _ H => H)
             CGP Equivs Instrs CGIByEnum E); [reflexivity | exact HE]. }
  assert (HCA : exists D, ConstantArray (SemaTarget E) = OK D).
  { destruct (target_SemanticsEmitter pool_inv pool_inv_constant
                pool_inv_predicate CGP Equivs Instrs CGIByEnum E)
      as [[D HD] | Hbig]; [|exact HE| |lia].
    - left. exists []. now apply pool_rep_empty.
    - exists D. now apply ConstantArray_pool_rep. }
  destruct HCA as [D HD].
  unfold run. rewrite HIdx, Nat.eqb_refl. simpl.
  unfold CPKinds. rewrite HCGP.
  destruct (sanitizeAll CPs CGP) as [Ks|]; [|discriminate].
  unfold emitInstSemantics, wrap32. rewrite HIdx, Z.mod_small by lia.
  destruct (length CGIByEnum) as [|n] eqn:Hn;
    [now apply length_zero_iff_nil in Hn|].
  rewrite (proj2 (Z.eqb_neq _ _)) by lia.
  replace (Z.of_nat (S n) - 1) with (Z.of_nat n) by lia.
  destruct (emitInsts_succeeds TGName VT_getEnumName E Hinv n 1
              (mkTableState (InstIdx E) 1 [END_OF_INSTRUCTION]))
    as [st Hst]; [lia | reflexivity | reflexivity |].
  change (Z.of_nat 1) with 1 in Hst. rewrite Hst, HD. eauto.
Qed.

(** ** The example target *)

Lemma constructor_indices_witness :
  exists E,
    SemanticsEmitter_ (CGP_example "SelectAddr") [] [] two_instructions
      = OK E /\
    InstIdx E = [NoIdx; 0] /\
    (length (InstIdx E) = length two_instructions /\
     indices_valid E /\
     (Z.of_nat (length (InstSemas E)) < 2 ^ 32 -> indices_distinct E)).
Proof.
  eexists. split; [vm_compute; reflexivity|]. split; [reflexivity|].
  apply (constructor_indices (CGP_example "SelectAddr") [] []
           two_instructions).
  vm_compute. reflexivity.
Defined.

Lemma parsePatterns_keeps_semantics_witness :
  let E := mkSemanticsEmitter [InstSemantics_] [0] Target_example in
  InstIdx E !! 0%nat = Some 0 /\
  InstSemas E `prefix_of` InstSemas E.
Proof.
  intros E.
  apply (parsePatterns_keeps_semantics
           [mkInstructionEntry CGI_ADD (Some ADD_pattern)] 0%nat E E 0%nat 0).
  - vm_compute. reflexivity.
  - reflexivity.
  - vm_compute. discriminate.
Defined.

Lemma run_table_layout_witness :
  exists E Tabs,
    SemanticsEmitter_ (CGP_example "SelectAddr") [] [] two_instructions
      = OK E /\
    run "X86" VT_names two_instructions [] E = OK Tabs /\
    OpcodeToSemaIdx Tabs = ["~0U"%string; "1"%string] /\
    InstSemanticsArray Tabs =
      ["DCINS::END_OF_INSTRUCTION"; "DCINS::GET_RC"; "(1<<8)|1"; "MVT::i32";
       "1"; "DCINS::GET_RC"; "(1<<8)|1"; "MVT::i32"; "2"; "ISD::add";
       "(1<<8)|2"; "MVT::i32"; "0"; "1"; "DCINS::PUT_RC"; "(0<<8)|2"; "0";
       "2"; "DCINS::END_OF_INSTRUCTION"]%string /\
    (InstSemanticsArray Tabs !! 0%nat = Some END_OF_INSTRUCTION /\
     length (OpcodeToSemaIdx Tabs) = length (InstIdx E) /\
     OpcodeToSemaIdx Tabs !! 0%nat =
       (fun k => if k =? NoIdx then "~0U"%string else utostr k)
         <$> InstIdx E !! 0%nat /\
     forall (i : nat) k, (1 <= i)%nat -> InstIdx E !! i = Some k ->
       if k =? NoIdx then OpcodeToSemaIdx Tabs !! i = Some "~0U"%string
       else exists Sema off,
           InstSemas E !! Z.to_nat k = Some Sema /\
           OpcodeToSemaIdx Tabs !! i = Some (utostr off) /\
           listed "X86" VT_names (InstSemanticsArray Tabs) off Sema).
Proof.
  eexists. eexists. split; [vm_compute; reflexivity|].
  split; [vm_compute; reflexivity|].
  split; [reflexivity|]. split; [reflexivity|].
  apply (run_table_layout "X86" VT_names two_instructions []).
  - vm_compute. reflexivity.
  - vm_compute. reflexivity.
  - vm_compute. reflexivity.
  - repeat constructor.
Defined.

Lemma run_after_constructor_witness :
  exists E,
    SemanticsEmitter_ (CGP_example "SelectAddr") [] [] two_instructions
      = OK E /\
    exists Tabs, run "X86" VT_names two_instructions [CP_example] E = OK Tabs.
Proof.
  eexists. split; [vm_compute; reflexivity|].
  apply (run_after_constructor "X86" VT_names (CGP_example "SelectAddr")
           [] [] two_instructions [CP_example]).
  - vm_compute. reflexivity.
  - discriminate.
  - vm_compute. reflexivity.
  - vm_compute. discriminate.
  - vm_compute. reflexivity.
Defined.

(** ** Equivalent nodes *)

(** X14: when the operator of an [SDNode] node has an equivalent node in
    [SDNodeEquiv] and [flattenSDNode] succeeds, the equivalent node has fewer
    results than the node has types, and the operation emitted for the node
    keeps exactly the first types, as many as the equivalent node has
    results; its opcode is that of the equivalent node unless the node has a
    predicate.  With as many results or more, generation stops. *)
Theorem flattenSDNode_equivalence CGI Tys N Op Preds Cs II CI EquivNode
    st R st' :
  let Node := OpNode Tys N Op Preds Cs II CI in
  let e := getNumResults (getSDNodeInfo (CGPatterns (Target st)) EquivNode) in
  isSubClassOf Op "ComplexPattern" = false ->
  SDNodeEquiv (Target st) !! getName Op = Some EquivNode ->
  0 <= e < 2 ^ 32 -> Z.of_nat (length Tys) < 2 ^ 32 ->
  flattenSDNode CGI Node st = OK (R, st') ->
  e < Z.of_nat (length Tys) /\
  exists Prog NS,
    Semantics (Sema st') = Semantics (Sema st) ++ Prog ++ [NS] /\
    TPN NS = Node /\
    NodeTypes NS = take (Z.to_nat e) Tys /\
    Opcode NS = equivOpcode (CGPatterns (Target st)) EquivNode Preds.
Proof.
  intros Node e HCP Hequiv He Hn Hrun.
  simpl in Hrun. unfold flattenSDNode_on in Hrun. rewrite HCP in Hrun.
  destruct (negb (isSubClassOf Op "SDNode")); [discriminate|].
  apply bind_OK in Hrun as (u1 & st1 & H1 & Hrun).
  apply bind_OK in Hrun as (u2 & st2 & H2 & Hrun).
  apply bind_OK in Hrun as (s & st3 & H3 & Hrun).
  apply get_OK in H3 as [-> ->].
  assert (HT : Target st2 = Target st /\
               Semantics (Sema st2) = Semantics (Sema st)).
  { simpl in H1, H2. destruct II, CI; monad_inv H1; monad_inv H2; auto. }
  destruct HT as [HT HS]. rewrite HT, Hequiv in Hrun. fold e in Hrun.
  apply bind_OK in Hrun as (NS1 & st4 & H4 & Hrun).
  apply bind_OK in H4 as (u3 & st5 & Ha1 & H4).
  apply assert_OK in Ha1 as [Ha1 ->].
  apply bind_OK in H4 as (u4 & st5 & Ha2 & H4).
  apply assert_OK in Ha2 as [Ha2 ->]. apply ret_OK in H4 as [-> ->].
  simpl in Ha1, Ha2. unfold getNumTypes in *. simpl in Ha1, Ha2.
  apply Z.ltb_lt in Ha1. apply Z.leb_le in Ha2.
  assert (Hlt : e < Z.of_nat (length Tys)).
  { unfold wrap32 in *.
    destruct (Z_lt_le_dec e (Z.of_nat (length Tys))) as [|Hge]; [assumption|].
    exfalso. destruct (Z.eq_dec e (Z.of_nat (length Tys))) as [Heq | Hne].
    - rewrite Heq, Z.sub_diag, Z.mod_0_l in Ha1 by lia. lia.
    - replace ((Z.of_nat (length Tys) - e) mod 2 ^ 32)
        with (Z.of_nat (length Tys) - e + 2 ^ 32) in Ha2; [lia|].
      apply Z.mod_unique with (q := -1); lia. }
  split; [exact Hlt|].
  assert (Hsize : Z.of_nat (length Tys)
                  - wrap32 (Z.of_nat (length Tys) - e) = e).
  { unfold wrap32. rewrite Z.mod_small by lia. lia. }
  simpl in Hrun. rewrite Hsize in Hrun.
  apply bind_OK in Hrun as (NS2 & st6 & H5 & Hrun).
  assert (H2' : Semantics (Sema st6) = Semantics (Sema st) /\
                TPN NS2 = Node /\
                NodeTypes NS2 = take (Z.to_nat e) Tys /\
                Opcode NS2 = equivOpcode (CGPatterns (Target st)) EquivNode
                               Preds).
  { destruct (last Preds) as [PredRec|] eqn:HL.
    - monad_inv H5. simpl. rewrite HS.
      destruct Preds; [discriminate | auto]. 
    - monad_inv H5. destruct Preds as [|P Ps]; [simpl; rewrite HS; auto|].
      apply last_None in HL. discriminate. }
  destruct H2' as (S6 & T6 & Ty6 & O6).
  apply node_tail_emits in Hrun
    as (Prog & NS & Fronts & E1 & E2 & E3 & E4 & E5 & E6 & E7).
  exists Prog, NS. rewrite E1, S6. split; [reflexivity|].
  split; [congruence|]. split; congruence.
Qed.

(** [(X86add_flag GPR:$a, GPR:$b)], equivalent to [add]. *)
Lemma flattenSDNode_equivalence_witness :
  exists R st',
    flattenSDNode CGI_ADDF ADDF_value
      (LinearSemantics_ Target_ADDF InstSemantics_) = OK (R, st') /\
    length R = 1%nat /\
    1 < 2 /\
    exists Prog NS,
      Semantics (Sema st') = [] ++ Prog ++ [NS] /\
      TPN NS = ADDF_value /\
      NodeTypes NS = [i32] /\
      Opcode NS = "ISD::add"%string.
Proof.
  eexists. eexists. split; [vm_compute; reflexivity|].
  split; [reflexivity|].
  apply (flattenSDNode_equivalence CGI_ADDF [i32; i32] "" X86add_flag []
           [LeafNode [i32] "a" (DefInit GPR); LeafNode [i32] "b" (DefInit GPR)]
           false false add_node
           (LinearSemantics_ Target_ADDF InstSemantics_)
           [mkLSResult 2 i32]).
  - reflexivity.
  - vm_compute. reflexivity.
  - vm_compute. split; [discriminate | reflexivity].
  - vm_compute. reflexivity.
  - vm_compute. reflexivity.
Defined.

(** ** Top-level trees *)

(** X15: a top-level tree that is neither an [implicit] nor a [set] node is
    linearized by [flatten] only when its operation defines no value: when
    [flatten] succeeds on it, the operation of the node is the last one of
    the program and every result type it has is void. *)
Theorem flatten_toplevel CGI Tys N Op Preds Cs II CI st u st' :
  let Node := OpNode Tys N Op Preds Cs II CI in
  getName Op <> "implicit"%string -> getName Op <> "set"%string ->
  flatten CGI Node st = OK (u, st') ->
  exists Prog NS,
    Semantics (Sema st') = Semantics (Sema st) ++ Prog ++ [NS] /\
    operationOf Node NS /\
    Forall (fun Ty => Ty = isVoid) (NodeTypes NS) /\
    numDefs NS = 0.
Proof.
  intros Node Hi Hs Hrun. unfold flatten in Hrun. simpl in Hrun.
  apply String.eqb_neq in Hi, Hs. rewrite Hi, Hs in Hrun.
  apply bind_OK in Hrun as (R & st1 & Hrun & Ha).
  apply assert_OK in Ha as [Ha ->]. apply bool_decide_eq_true in Ha as ->.
  change (flattenSDNode_on CGI (flattenSubtree CGI) Node Op Preds Cs)
    with (flattenSDNode CGI Node) in Hrun.
  apply flattenSDNode_shape in Hrun as (Prog & NS & H1 & H2 & H3).
  exists Prog, NS. split; [exact H1|]. split; [exact H2|].
  simpl in H3. symmetry in H3.
  assert (HV : Forall (fun Ty => Ty = isVoid) (NodeTypes NS)).
  { apply Forall_forall. intros Ty HTy.
    destruct (decide (Ty = isVoid)) as [|Hne]; [assumption|].
    assert (Hin : Ty ∈ filter (fun Ty => Ty <> isVoid) (NodeTypes NS))
      by (apply list_elem_of_filter; auto).
    rewrite H3 in Hin. now apply elem_of_nil in Hin. }
  split; [exact HV|]. unfold numDefs. clear H3.
  induction HV as [|Ty Tys' -> _ IH]; [reflexivity|]. simpl. exact IH.
Qed.

Lemma flatten_toplevel_witness :
  exists st',
    flatten CGI_example store_5_5
      (LinearSemantics_ Target_example InstSemantics_) = OK (tt, st') /\
    exists Prog NS,
      Semantics (Sema st') = [] ++ Prog ++ [NS] /\
      operationOf store_5_5 NS /\
      Forall (fun Ty => Ty = isVoid) (NodeTypes NS) /\
      numDefs NS = 0.
Proof.
  eexists. split; [vm_compute; reflexivity|].
  apply (flatten_toplevel CGI_example [] "" store_node []
           [LeafNode [i32] "" (IntInit 5); LeafNode [i64] "" (IntInit 5)]
           false false
           (LinearSemantics_ Target_example InstSemantics_) tt).
  - vm_compute. discriminate.
  - vm_compute. discriminate.
  - vm_compute. reflexivity.
Defined.

(** ** [SemanticsTarget::SemanticsTarget] *)

Lemma find_app {A} (f : A -> bool) (l1 l2 : list A) :
  List.find f (l1 ++ l2) =
    match List.find f l1 with
    | Some x => Some x
    | None => List.find f l2
    end.
Proof.
  induction l1 as [|a l1 IH]; simpl; [reflexivity|].
  now destruct (f a).
Qed.

Lemma foldl_insert_lookup (Equivs : list (Record * Record)) :
  forall (m : gmap string Record) n,
  foldl (fun m E => <[getName (fst E) := snd E]> m) m Equivs !! n =
    match List.find (fun E => String.eqb (getName (fst E)) n) (rev Equivs) with
    | Some E => Some (snd E)
    | None => m !! n
    end.
Proof.
  induction Equivs as [|E Equivs IH]; intros m n; simpl; [reflexivity|].
  rewrite IH, find_app.
  destruct (List.find _ (rev Equivs)) as [E'|]; [reflexivity|]. simpl.
  destruct (String.eqb_spec (getName (fst E)) n) as [<- | Hne].
  - now rewrite lookup_insert_eq.
  - now rewrite lookup_insert_ne.
Qed.

(** X16: the target starts with an empty pool and no predicate met, and its
    table [SDNodeEquiv] maps the name of a target-specific node to the
    target-independent node of the last [SDNodeEquiv] record that names it;
    a node that no record names has no equivalent. *)
Theorem SemanticsTarget_equivalences CGP Equivs n :
  let T := SemanticsTarget_ CGP Equivs in
  SDNodeEquiv T !! n =
    option_map snd
      (List.find (fun E => String.eqb (getName (fst E)) n) (rev Equivs)) /\
  ConstantIdx T = ∅ /\ CurConstantIdx T = 0 /\
  EncounteredPredicates T = [] /\ CGPatterns T = CGP.
Proof.
  cbv zeta. unfold SemanticsTarget_. simpl. split; [|auto].
  rewrite foldl_insert_lookup, lookup_empty.
  now destruct (List.find _ _).
Qed.

(** ** Operands and leaves *)






(** ** The enumerators of [ComplexPattern] *)

Lemma string_le_total : Total string_le.
Proof. intros a b. apply String.leb_total. Qed.

Lemma string_le_antisym a b : string_le a b -> string_le b a -> a = b.
Proof. apply String.leb_antisym. Qed.

Lemma string_le_trans : Transitive string_le.
Proof.
  intros a b c Hab Hbc. unfold string_le in *.
  destruct (String.compare a b) eqn:Eab.
  - apply String.compare_eq_iff in Eab. now subst.
  - destruct (String.compare b c) eqn:Ebc.
    + apply String.compare_eq_iff in Ebc. now subst.
    + apply OrderedTypeEx.String_as_OT.cmp_lt in Eab, Ebc.
      pose proof (OrderedTypeEx.String_as_OT.lt_trans _ _ _ Eab Ebc) as H.
      apply OrderedTypeEx.String_as_OT.cmp_lt in H.
      unfold OrderedTypeEx.String_as_OT.cmp in H.
      unfold String.leb. now rewrite H.
    + unfold String.leb in Hbc. rewrite Ebc in Hbc. discriminate.
  - unfold String.leb in Hab. rewrite Eab in Hab. discriminate.
Qed.

Lemma string_le_refl a : string_le a a.
Proof. now destruct (String.leb_total a a). Qed.

Lemma unique_elem_of l : forall x, x ∈ unique l <-> x ∈ l.
Proof.
  induction l as [|a l IH]; intros x; [reflexivity|].
  destruct l as [|b l]; [reflexivity|].
  change (unique (a :: b :: l))
    with (if String.eqb a b then unique (b :: l) else a :: unique (b :: l)).
  destruct (String.eqb_spec a b) as [-> | Hne].
  - rewrite IH. set_solver.
  - rewrite !elem_of_cons, IH, !elem_of_cons. tauto.
Qed.

Lemma unique_sorted l :
  StronglySorted string_le l ->
  StronglySorted string_le (unique l) /\ NoDup (unique l).
Proof.
  induction 1 as [|a l HS IH HF]; [split; constructor|].
  destruct l as [|b l]; [split; repeat constructor; apply not_elem_of_nil|].
  change (unique (a :: b :: l))
    with (if String.eqb a b then unique (b :: l) else a :: unique (b :: l)).
  destruct IH as [IH1 IH2].
  destruct (String.eqb_spec a b) as [-> | Hne]; [auto|].
  assert (HF' : Forall (string_le a) (unique (b :: l))).
  { apply Forall_forall. intros x Hx. rewrite unique_elem_of in Hx.
    rewrite Forall_forall in HF. auto. }
  split; [now constructor|]. constructor; [|exact IH2].
  intros Hin. rewrite unique_elem_of in Hin.
  apply Hne. apply string_le_antisym.
  - apply Forall_inv in HF. exact HF.
  - apply StronglySorted_inv in HS as [_ HS].
    apply elem_of_cons in Hin as [-> | Hin]; [apply string_le_refl|].
    rewrite Forall_forall in HS. auto.
Qed.

Lemma sanitizeAll_OK CPs CGP : forall Ks,
  sanitizeAll CPs CGP = OK Ks ->
  forall K, K ∈ Ks <->
            exists CP, CP ∈ CPs /\ sanitizeSelectFuncToEnumVal CP CGP = OK K.
Proof.
  induction CPs as [|CP CPs IH]; intros Ks; simpl.
  - intros [= <-] K. split; [now intros ?%elem_of_nil|].
    now intros (CP & ?%elem_of_nil & _).
  - destruct (sanitizeSelectFuncToEnumVal CP CGP) as [K0|] eqn:E0;
      [|discriminate].
    destruct (sanitizeAll CPs CGP) as [Ks0|]; [|discriminate].
    intros [= <-] K. rewrite elem_of_cons, (IH Ks0 eq_refl). split.
    + intros [-> | (CP' & H1 & H2)]; [exists CP; split; [left|exact E0]|].
      exists CP'. split; [now right | exact H2].
    + intros (CP' & [-> | H1]%elem_of_cons & H2); [left; congruence|].
      right. eauto.
Qed.

(** X18: the enumerators that [run] prints for [ComplexPattern] are the
    sanitized names of the selector functions of the complex patterns, in
    ascending order and each once. *)
Theorem CPKinds_sorted_distinct CPs CGP Ks :
  CPKinds CPs CGP = OK Ks ->
  StronglySorted string_le Ks /\ NoDup Ks /\
  forall K, K ∈ Ks <->
            exists CP, CP ∈ CPs /\ sanitizeSelectFuncToEnumVal CP CGP = OK K.
Proof.
  unfold CPKinds.
  destruct (sanitizeAll CPs CGP) as [Ks0|] eqn:E0; [|discriminate].
  intros [= <-].
  destruct (unique_sorted (merge_sort string_le Ks0)) as [H1 H2].
  { apply StronglySorted_merge_sort;
      [apply string_le_trans | apply string_le_total]. }
  split; [exact H1|]. split; [exact H2|].
  intros K. rewrite unique_elem_of, merge_sort_Permutation.
  now apply sanitizeAll_OK.
Qed.

Lemma CPKinds_sorted_distinct_witness :
  let CGP :=
    mkCGP (fun CP => "Select" +:+ getName CP)
          (fun R => mkSDNodeInfo ("ISD::" +:+ getName R) 1) in
  let CPs := [mkRecord "b" [] None; mkRecord "a" [] None;
              mkRecord "b" [] None] in
  CPKinds CPs CGP = OK ["a"%string; "b"%string] /\
  (StronglySorted string_le ["a"%string; "b"%string] /\
   NoDup ["a"%string; "b"%string] /\
   forall K, K ∈ ["a"%string; "b"%string] <->
             exists CP, CP ∈ CPs /\
                        sanitizeSelectFuncToEnumVal CP CGP = OK K).
Proof.
  intros CGP CPs. split; [vm_compute; reflexivity|].
  apply (CPKinds_sorted_distinct CPs CGP). vm_compute. reflexivity.
Defined.
